(** * supply_QR: order log, freshness reconciliation, session, batching,
      recipients, SMTP configuration and catalog CSV round trip.

    Shallow embedding of [src/app.py], [src/db/supabase_client.py],
    [src/services/email_service.py] and [src/data/catalog.py]. *)

From Stdlib Require Import String Ascii List ZArith Bool Permutation Sorted Lia.
From Stdlib Require Import QArith Lqa DecimalString DecimalZ.
From Stdlib Require OrderedTypeEx.
From Corelib Require Floats.PrimFloat Floats.SpecFloat Floats.FloatOps.
Import ListNotations.

Local Open Scope Z_scope.

(* ------------------------------------------------------------------ *)
(** ** Catalog rows, as [read_catalog] hands them to the app *)

Module Catalog.

Record CatalogRow := mkCatalogRow {
  item : string;
  product_number : string;
  multiplier : Z;
  items_per_order : Z;
  current_qty : Z;
  sort_order : Z;
  price : PrimFloat.float
}.

Definition cat_key (r : CatalogRow) : string * string :=
  (item r, product_number r).

End Catalog.

(* ------------------------------------------------------------------ *)
(** ** The order log ([supabase_client.py]) *)

Module OrderLog.
Import Catalog.

(** One row of table [orders_log].  [ordered_at] is the value
    [pd.to_datetime(..., errors="coerce")] gives for the stored text:
    [Some t] for a timestamp, [None] for NaT. *)
Record LogEntry := mkLogEntry {
  l_item : string;
  l_product_number : string;
  qty : Z;
  ordered_at : option Z;
  orderer : string
}.

Definition key (e : LogEntry) : string * string :=
  (l_item e, l_product_number e).

Definition key_eqb (a b : string * string) : bool :=
  String.eqb (fst a) (fst b) && String.eqb (snd a) (snd b).

(** Ascending order of [sort_values("ordered_at")]: NaT sorts last
    ([na_position="last"]). *)
Definition ts_le (a b : option Z) : bool :=
  match a, b with
  | Some x, Some y => x <=? y
  | _, None => true
  | None, Some _ => false
  end.

(** [read_log]: the store returns every row, ordered by [ordered_at]
    descending; the order among equal timestamps is not specified by the
    query, so the result is any such permutation of the stored rows. *)
Definition read_log_rel (log df : list LogEntry) : Prop :=
  Permutation log df /\
  Sorted (fun a b => ts_le (ordered_at b) (ordered_at a) = true) df.

(** [logs.sort_values("ordered_at")]: pandas' default sort kind
    (quicksort) is not stable, so the result is any ascending
    permutation. *)
Definition sort_values_rel (df s : list LogEntry) : Prop :=
  Permutation df s /\
  Sorted (fun a b => ts_le (ordered_at a) (ordered_at b) = true) s.

(** [.groupby(["item", "product_number"], as_index=False).tail(1)]:
    the last row of every group, rows kept in frame order. *)
Fixpoint group_tail (s : list LogEntry) : list LogEntry :=
  match s with
  | [] => []
  | e :: rest =>
      if existsb (fun e' => key_eqb (key e') (key e)) rest
      then group_tail rest
      else e :: group_tail rest
  end.

(** A row of the frame returned by [last_info_map] (columns renamed). *)
Record LastInfo := mkLastInfo {
  li_item : string;
  li_product_number : string;
  last_ordered_at : option Z;
  last_qty : Z;
  last_orderer : string
}.

Definition rename (e : LogEntry) : LastInfo :=
  mkLastInfo (l_item e) (l_product_number e) (ordered_at e) (qty e) (orderer e).

Definition li_key (li : LastInfo) : string * string :=
  (li_item li, li_product_number li).

(** [last_info_map] on a given sorted frame [s]. *)
Definition last_info_rows (s : list LogEntry) : list LastInfo :=
  map rename (group_tail s).

(** [last_info_map()]: the empty log gives the empty frame; otherwise the
    log is read, sorted ascending and reduced to the tail of every group. *)
Definition last_info_map_rel (log : list LogEntry) (m : list LastInfo) : Prop :=
  match log with
  | [] => m = []
  | _ => exists df s, read_log_rel log df /\ sort_values_rel df s /\
                      m = last_info_rows s
  end.

(** A row of [table] in the Create Order tab. *)
Record FreshRow := mkFreshRow {
  f_row : CatalogRow;
  f_last_ordered_at : option Z;
  f_last_qty : option Z;
  f_last_orderer : option string
}.

(** [catalog.merge(last_map, on=["item", "product_number"], how="left")]:
    one output row per match of a left row, or one row with nulls when
    nothing matches; left order kept. *)
Definition merge_left (cat : list CatalogRow) (m : list LastInfo) : list FreshRow :=
  flat_map
    (fun r =>
       match filter (fun li => key_eqb (li_key li) (cat_key r)) m with
       | [] => [mkFreshRow r None None None]
       | ms => map (fun li => mkFreshRow r (last_ordered_at li)
                                (Some (last_qty li)) (Some (last_orderer li))) ms
       end)
    cat.

(** The entry of [log] the spec says wins for key [k]: the last one in log
    (insertion) order among those with the greatest timestamp. *)
Fixpoint last_max_in_log (k : string * string) (log : list LogEntry)
  : option LogEntry :=
  match log with
  | [] => None
  | e :: rest =>
      match last_max_in_log k rest with
      | Some e' => if ts_le (ordered_at e) (ordered_at e') then Some e'
                   else if key_eqb (key e) k then Some e else Some e'
      | None => if key_eqb (key e) k then Some e else None
      end
  end.

Definition find_key (k : string * string) (m : list LastInfo) : option LastInfo :=
  find (fun li => key_eqb (li_key li) k) m.

End OrderLog.

(* ------------------------------------------------------------------ *)
(** ** Text helpers (Python [str] operations used by the code) *)

Module Text.
Local Open Scope string_scope.

(** A Python [str] is modelled by its UTF-8 encoding, one [ascii] per
    byte; the file readers decode UTF-8, so these are valid encodings. *)

(** [str.isspace] on one-byte characters: \t \n \x0b \x0c \r, \x1c-\x1f
    and space. *)
Definition is_space (c : ascii) : bool :=
  let n := nat_of_ascii c in
  ((9 <=? n) && (n <=? 13))%nat || ((28 <=? n) && (n <=? 32))%nat.

(** The two-byte whitespace characters: U+0085 and U+00A0. *)
Definition is_space2 (a b : ascii) : bool :=
  Nat.eqb (nat_of_ascii a) 194 &&
  (Nat.eqb (nat_of_ascii b) 133 || Nat.eqb (nat_of_ascii b) 160).

(** The three-byte whitespace characters: U+1680, U+2000-U+200A, U+2028,
    U+2029, U+202F, U+205F and U+3000. *)
Definition is_space3 (a b c : ascii) : bool :=
  let x := nat_of_ascii a in
  let y := nat_of_ascii b in
  let z := nat_of_ascii c in
  (Nat.eqb x 225 && Nat.eqb y 154 && Nat.eqb z 128) ||
  (Nat.eqb x 226 && Nat.eqb y 128 &&
     (((128 <=? z) && (z <=? 138))%nat || Nat.eqb z 168 || Nat.eqb z 169 ||
      Nat.eqb z 175)) ||
  (Nat.eqb x 226 && Nat.eqb y 129 && Nat.eqb z 159) ||
  (Nat.eqb x 227 && Nat.eqb y 128 && Nat.eqb z 128).

(** The number of bytes of the whitespace character the bytes [l] start
    with, 0 when they start with none. *)
Definition ws_len (l : list ascii) : nat :=
  match l with
  | a :: r =>
      if is_space a then 1 else
      match r with
      | b :: r2 =>
          if is_space2 a b then 2 else
          match r2 with
          | c :: _ => if is_space3 a b c then 3 else 0
          | [] => 0
          end
      | [] => 0
      end
  | [] => 0
  end.

(** The same at the end of a string, given its bytes reversed. *)
Definition ws_len_rev (r : list ascii) : nat :=
  match r with
  | c :: r1 =>
      if is_space c then 1 else
      match r1 with
      | b :: r2 =>
          if is_space2 b c then 2 else
          match r2 with
          | a :: _ => if is_space3 a b c then 3 else 0
          | [] => 0
          end
      | [] => 0
      end
  | [] => 0
  end.

(** Dropping whitespace characters from the front while there is one;
    each step drops at least one byte, so [length l] steps suffice. *)
Fixpoint drop_ws (len : list ascii -> nat) (fuel : nat) (l : list ascii) : list ascii :=
  match fuel with
  | O => l
  | S f =>
      match len l with
      | O => l
      | k => drop_ws len f (skipn k l)
      end
  end.

(** [str.lstrip()] on the bytes. *)
Definition lstripL (l : list ascii) : list ascii := drop_ws ws_len (length l) l.

(** [str.rstrip()] on the reversed bytes. *)
Definition rstripR (r : list ascii) : list ascii := drop_ws ws_len_rev (length r) r.

Definition stripL (l : list ascii) : list ascii := rev (rstripR (rev (lstripL l))).

(** [str.strip()] *)
Definition strip (s : string) : string :=
  string_of_list_ascii (stripL (list_ascii_of_string s)).

(** [str.replace(" ", "")] *)
Fixpoint remove_spaces (s : string) : string :=
  match s with
  | EmptyString => EmptyString
  | String c r => if Ascii.eqb c " " then remove_spaces r
                  else String c (remove_spaces r)
  end.

(** ["@" in e] *)
Definition has_at (s : string) : bool :=
  existsb (fun c => Ascii.eqb c "@") (list_ascii_of_string s).

(** Truthiness of a Python string. *)
Definition truthy_str (s : string) : bool := negb (String.eqb s "").

(** [str(n)] for a Python int. *)
Definition py_str_int (z : Z) : string := NilEmpty.string_of_int (Z.to_int z).

(** A non-empty run of ASCII decimal digits. *)
Definition digits_val (s : string) : option Decimal.uint :=
  match s with
  | EmptyString => None
  | _ => NilEmpty.uint_of_string s
  end.

(** ASCII decimal integer text: optional sign, then digits. *)
Definition parse_int_text (s : string) : option Z :=
  match s with
  | String "-" r => option_map (fun d => Z.of_int (Decimal.Neg d)) (digits_val r)
  | String "+" r => option_map (fun d => Z.of_int (Decimal.Pos d)) (digits_val r)
  | _ => option_map (fun d => Z.of_int (Decimal.Pos d)) (digits_val s)
  end.

Local Open Scope Z_scope.

(** The code points of a [str] from its UTF-8 bytes. *)
Definition utf8_cont (b : ascii) : bool :=
  ((128 <=? nat_of_ascii b) && (nat_of_ascii b <=? 191))%nat.

Definition utf8_low (b : ascii) : Z := Z.of_nat (nat_of_ascii b) - 128.

Fixpoint utf8_decode (l : list ascii) : option (list Z) :=
  match l with
  | [] => Some []
  | a :: r =>
      let x := Z.of_nat (nat_of_ascii a) in
      if x <? 128 then option_map (cons x) (utf8_decode r) else
      match r with
      | b :: r2 =>
          if (192 <=? x) && (x <=? 223) && utf8_cont b then
            option_map (cons ((x - 192) * 64 + utf8_low b)) (utf8_decode r2) else
          match r2 with
          | c :: r3 =>
              if (224 <=? x) && (x <=? 239) && utf8_cont b && utf8_cont c then
                option_map (cons ((x - 224) * 4096 + utf8_low b * 64 + utf8_low c))
                           (utf8_decode r3) else
              match r3 with
              | d :: r4 =>
                  if (240 <=? x) && (x <=? 247) && utf8_cont b && utf8_cont c &&
                     utf8_cont d then
                    option_map (cons ((x - 240) * 262144 + utf8_low b * 4096 +
                                      utf8_low c * 64 + utf8_low d)) (utf8_decode r4)
                  else None
              | [] => None
              end
          | [] => None
          end
      | [] => None
      end
  end.

(** [str.isspace] on a code point. *)
Definition is_space_cp (x : Z) : bool :=
  ((0x9 <=? x) && (x <=? 0xD)) || ((0x1C <=? x) && (x <=? 0x20)) ||
  (x =? 0x85) || (x =? 0xA0) || (x =? 0x1680) ||
  ((0x2000 <=? x) && (x <=? 0x200A)) || (x =? 0x2028) || (x =? 0x2029) ||
  (x =? 0x202F) || (x =? 0x205F) || (x =? 0x3000).

Fixpoint drop_while {A} (p : A -> bool) (l : list A) : list A :=
  match l with
  | x :: r => if p x then drop_while p r else l
  | [] => []
  end.

Definition strip_cps (l : list Z) : list Z :=
  rev (drop_while is_space_cp (rev (drop_while is_space_cp l))).

(** The code points of the digits 0 of the Unicode category Nd (Unicode
    14.0, the database of Python 3.11); each starts a run of ten digits. *)
Definition nd_zeros : list Z :=
  [0x30; 0x660; 0x6F0; 0x7C0; 0x966; 0x9E6; 0xA66; 0xAE6; 0xB66; 0xBE6;
   0xC66; 0xCE6; 0xD66; 0xDE6; 0xE50; 0xED0; 0xF20; 0x1040; 0x1090; 0x17E0;
   0x1810; 0x1946; 0x19D0; 0x1A80; 0x1A90; 0x1B50; 0x1BB0; 0x1C40; 0x1C50;
   0xA620; 0xA8D0; 0xA900; 0xA9D0; 0xA9F0; 0xAA50; 0xABF0; 0xFF10; 0x104A0;
   0x10D30; 0x11066; 0x110F0; 0x11136; 0x111D0; 0x112F0; 0x11450; 0x114D0;
   0x11650; 0x116C0; 0x11730; 0x118E0; 0x11950; 0x11C50; 0x11D50; 0x11DA0;
   0x16A60; 0x16AC0; 0x16B50; 0x1D7CE; 0x1D7D8; 0x1D7E2; 0x1D7EC; 0x1D7F6;
   0x1E140; 0x1E2F0; 0x1E950; 0x1FBF0].

(** [unicodedata.decimal(ch)] *)
Definition decimal_value (x : Z) : option Z :=
  match find (fun z => (z <=? x) && (x <=? z + 9)) nd_zeros with
  | Some z => Some (x - z)
  | None => None
  end.

(** Digits with single underscores between them; [after_digit] says
    whether the previous code point was a digit. *)
Fixpoint digits_us (acc : Z) (after_digit : bool) (l : list Z) : option Z :=
  match l with
  | [] => if after_digit then Some acc else None
  | x :: r =>
      if x =? 0x5F then (if after_digit then digits_us acc false r else None)
      else match decimal_value x with
           | Some d => digits_us (acc * 10 + d) true r
           | None => None
           end
  end.

(** [sys.get_int_max_str_digits()], 4300 by default: longer digit strings
    raise [ValueError]. *)
Definition max_str_digits : nat := 4300.

Definition digits_ok (l : list Z) : option Z :=
  if Nat.leb (length (filter (fun x => negb (x =? 0x5F)) l)) max_str_digits
  then digits_us 0 false l else None.

Definition int_of_cps (l : list Z) : option Z :=
  match l with
  | x :: r =>
      if x =? 0x2D then option_map Z.opp (digits_ok r)
      else if x =? 0x2B then digits_ok r
      else digits_ok l
  | [] => None
  end.

(** [int(s)] for a string ([None]: [ValueError]). *)
Definition py_int_of_str (s : string) : option Z :=
  match utf8_decode (list_ascii_of_string s) with
  | Some cps => int_of_cps (strip_cps cps)
  | None => None
  end.

Local Open Scope string_scope.

(** [re.split(r"[;,]\s*", txt)] followed by [strip]; the pieces are
    stripped afterwards, so the [\s*] after a separator has no effect. *)
Fixpoint split_seps_acc (cur : list ascii) (s : string) : list string :=
  match s with
  | EmptyString => [string_of_list_ascii (rev cur)]
  | String c r =>
      if Ascii.eqb c ";" || Ascii.eqb c ","
      then string_of_list_ascii (rev cur) :: split_seps_acc [] r
      else split_seps_acc (c :: cur) r
  end.

(** [_split_emails(txt)] *)
Definition split_emails (txt : string) : list string :=
  if String.eqb txt "" then []
  else filter truthy_str (map strip (split_seps_acc [] txt)).

(** [sorted(set(l))] on strings: Python compares strings by code point,
    i.e. as [String.compare] does on ASCII and UTF-8 text. *)
Fixpoint insert_uniq (x : string) (l : list string) : list string :=
  match l with
  | [] => [x]
  | y :: r =>
      match String.compare x y with
      | Lt => x :: l
      | Eq => l
      | Gt => y :: insert_uniq x r
      end
  end.

Definition sorted_set (l : list string) : list string :=
  fold_right insert_uniq [] l.

End Text.

(* ------------------------------------------------------------------ *)
(** ** Order session ([st.session_state["qty_map"]]) *)

Module Session.
Import Catalog.

(** The dict [product_number -> qty], in insertion order. *)
Definition QtyMap := list (string * Z).

(** [qty_map[pid] = new_qty]: in place if the key exists, else appended. *)
Fixpoint set_qty (pid : string) (q : Z) (m : QtyMap) : QtyMap :=
  match m with
  | [] => [(pid, q)]
  | (p, v) :: r => if String.eqb p pid then (p, q) :: r
                   else (p, v) :: set_qty pid q r
  end.

(** A selected line [{"item", "product_number", "qty"}]. *)
Record Line := mkLine {
  ln_item : string;
  ln_product_number : string;
  ln_qty : Z
}.

(** [catalog.loc[catalog["product_number"].astype(str) == str(pid)]] *)
Definition catalog_lookup (cat : list CatalogRow) (pid : string) : list CatalogRow :=
  filter (fun r => String.eqb (product_number r) pid) cat.

(** The loop building [selected_items] (preview) and [rows] (Generate &
    Log Order): the two loops are the same code. *)
Fixpoint selected_lines (cat : list CatalogRow) (m : QtyMap) : list Line :=
  match m with
  | [] => []
  | (pid, q) :: rest =>
      if 0 <? q then
        match catalog_lookup cat pid with
        | r :: _ => mkLine (item r) pid q :: selected_lines cat rest
        | [] => selected_lines cat rest
        end
      else selected_lines cat rest
  end.

End Session.

(* ------------------------------------------------------------------ *)
(** ** SMTP configuration ([email_service.py]) *)

Module Smtp.
Import Text.
Local Open Scope string_scope.

(** Values of the [[smtp]] secrets table: TOML strings, integers,
    booleans and floats, and the other TOML values (arrays, tables, dates)
    by their truth value and [str()]. *)
Inductive TomlVal :=
| TStr (s : string)
| TInt (z : Z)
| TBool (b : bool)
| TFloat (x : PrimFloat.float) (text : string)
| TOther (truth : bool) (text : string).

Definition SmtpTable := list (string * TomlVal).

(** [smtp_config.get(k)] *)
Fixpoint get (c : SmtpTable) (k : string) : option TomlVal :=
  match c with
  | [] => None
  | (k', v) :: r => if String.eqb k' k then Some v else get r k
  end.

Definition truthy (v : TomlVal) : bool :=
  match v with
  | TStr s => truthy_str s
  | TInt z => negb (z =? 0)%Z
  | TBool b => b
  | TFloat x _ => negb (PrimFloat.eqb x PrimFloat.zero)
  | TOther b _ => b
  end.

Definition truthy_opt (v : option TomlVal) : bool :=
  match v with Some v => truthy v | None => false end.

(** [str(v)] *)
Definition py_str (v : TomlVal) : string :=
  match v with
  | TStr s => s
  | TInt z => py_str_int z
  | TBool b => if b then "True" else "False"
  | TFloat _ t => t
  | TOther _ t => t
  end.

(** [int(x)] for a float: truncation toward zero; an infinity
    ([OverflowError]) or NaN ([ValueError]) gives [None]. *)
Definition py_int_of_float (x : PrimFloat.float) : option Z :=
  match FloatOps.Prim2SF x with
  | SpecFloat.S754_zero _ => Some 0%Z
  | SpecFloat.S754_finite s m e =>
      let v := if (0 <=? e)%Z then Z.shiftl (Zpos m) e else Z.shiftr (Zpos m) (- e) in
      Some (if s then (- v)%Z else v)
  | _ => None
  end.

(** [int(v)]; [None] is the exception it raises. *)
Definition py_int (v : TomlVal) : option Z :=
  match v with
  | TStr s => py_int_of_str s
  | TInt z => Some z
  | TBool b => Some (if b then 1 else 0)
  | TFloat x _ => py_int_of_float x
  | TOther _ _ => None
  end.

(** The dict [get_smtp_config] returns when it does not fail. *)
Record SmtpCfg := mkSmtpCfg {
  host : option TomlVal;
  port : Z;
  username : option TomlVal;
  password : string;
  from_ : option TomlVal;
  subject_prefix : TomlVal;
  default_to : list string;
  use_ssl : bool
}.

(** [get_smtp_config()].  [secrets] is [None] when there is no [[smtp]]
    table ([st.secrets["smtp"]] raises).  Every exception of the body is
    caught and turned into [{}], written [None] here (the [st.error] it
    shows then is [config_error_shown]). *)
Definition get_smtp_config (secrets : option SmtpTable) : option SmtpCfg :=
  match secrets with
  | None => None
  | Some c =>
      let port_v := match get c "port" with
                    | Some v => py_int v
                    | None => Some 587
                    end in
      let pw_v := match get c "password" with
                  | Some (TStr s) => Some (remove_spaces s)
                  | Some _ => None          (* .replace on a non-str *)
                  | None => Some ""
                  end in
      match port_v, pw_v with
      | Some p, Some pw =>
          Some (mkSmtpCfg (get c "host") p (get c "user") pw (get c "from")
                  (match get c "subject_prefix" with Some v => v | None => TStr "" end)
                  (match get c "to" with
                   | Some v => if truthy v then split_emails (py_str v) else []
                   | None => []
                   end)
                  (match get c "use_ssl" with Some v => truthy v | None => false end))
      | _, _ => None
      end
  end.

(** Whether a call of [get_smtp_config()] shows [st.error(f"Error reading
    SMTP config: {e}")]. *)
Definition config_error_shown (secrets : option SmtpTable) : bool :=
  match get_smtp_config secrets with None => true | Some _ => false end.

(** [cfg.get("default_to", [])] *)
Definition cfg_default_to (cfg : option SmtpCfg) : list string :=
  match cfg with Some c => default_to c | None => [] end.

(** [smtp_ok()]: [all(cfg.get(k) for k in required)]. *)
Definition smtp_ok (secrets : option SmtpTable) : bool :=
  match get_smtp_config secrets with
  | None => false
  | Some c =>
      truthy_opt (host c) && negb (port c =? 0)%Z && truthy_opt (username c) &&
      truthy_str (password c) && truthy_opt (from_ c)
  end.

End Smtp.

(* ------------------------------------------------------------------ *)
(** ** Recipients and sending *)

Module Mail.
Import Text Smtp.

(** [all_recipients(emails_df)]: [roster] is the [email] column of the
    frame [read_emails] builds (empty when the frame is empty). *)
Definition all_recipients (cfg : option SmtpCfg) (roster : list string) : list string :=
  let file_recipients := roster in
  let recipients := filter truthy_str file_recipients ++
                    filter truthy_str (cfg_default_to cfg) in
  sorted_set (filter has_at recipients).

Inductive SendResult :=
| SendErr (msg : string)
| Sent (recipients : list string).

(** The recipient list [send_email] computes. *)
Definition send_recipients (cfg : option SmtpCfg) (to_emails : list string)
  : list string :=
  let recipients := to_emails ++ cfg_default_to cfg in
  sorted_set (filter (fun e => truthy_str e && has_at e) recipients).

(** [send_email(subject, body, to_emails)] with the configuration
    [get_smtp_config()] returned; the transport itself is external and
    [transport_ok] says whether it delivered.  [cfg["subject_prefix"]] on
    the empty dict raises [KeyError]. *)
Definition send_email (cfg : option SmtpCfg) (to_emails : list string)
  (transport_ok : bool) : SendResult :=
  match send_recipients cfg to_emails with
  | [] => SendErr "No recipients found."%string
  | rs =>
      match cfg with
      | None => SendErr "KeyError: 'subject_prefix'"%string
      | Some _ => if transport_ok then Sent rs else SendErr "SMTP error"%string
      end
  end.

End Mail.

(* ------------------------------------------------------------------ *)
(** ** Notification batching (Generate & Log Order) *)

Module Batch.
Import Catalog Session PrimFloat.

(** [float(n)] for a Python int: rounded to nearest, ties to even;
    [None] is the [OverflowError] of an int too large for a float. *)
Definition py_float_of_int (z : Z) : option float :=
  let x := FloatOps.SF2Prim (SpecFloat.binary_normalize 53 1024 z 0 false) in
  if is_infinity x then None else Some x.

(** [float(price or 0)]: a zero price (either sign) becomes [0.0]. *)
Definition price_or_zero (p : float) : float :=
  if PrimFloat.eqb p 0%float then 0%float else p.

(** [price = float(row.iloc[0].get("price", 0) or 0)] and
    [total = qty * price]; [None] is the [IndexError] of a product number
    with no catalog row, or the [OverflowError] of [qty * price]. *)
Definition line_total (cat : list CatalogRow) (l : Line) : option (string * float) :=
  match catalog_lookup cat (ln_product_number l) with
  | r :: _ =>
      match py_float_of_int (ln_qty l) with
      | Some q => Some (ln_product_number l, (q * price_or_zero (price r))%float)
      | None => None
      end
  | [] => None
  end.

Fixpoint priced_lines (cat : list CatalogRow) (ls : list Line)
  : option (list (string * float)) :=
  match ls with
  | [] => Some []
  | l :: r =>
      match line_total cat l, priced_lines cat r with
      | Some t, Some ts => Some (t :: ts)
      | _, _ => None
      end
  end.

(** The fixed ceiling of the loop. *)
Definition ceiling : float := 4999%float.

Definition is_nil {A} (l : list A) : bool :=
  match l with [] => true | _ => false end.

(** The [for _, r in order_df.iterrows()] loop, state
    [(product_groups, current_group, running_total)]; [running_total]
    starts at [0.0] and is reset to [0.0] when a group is closed. *)
Fixpoint batch_loop (groups : list (list string * float)) (cur : list string)
  (running_total : float) (ls : list (string * float)) : list (list string * float) :=
  match ls with
  | [] => if is_nil cur then groups else groups ++ [(cur, running_total)]
  | (pid, total) :: rest =>
      if ltb ceiling (running_total + total)%float && negb (is_nil cur)
      then batch_loop (groups ++ [(cur, running_total)]) [pid] (0 + total)%float rest
      else batch_loop groups (cur ++ [pid]) (running_total + total)%float rest
  end.

(** [product_groups] for the priced lines of an order. *)
Definition product_groups (ls : list (string * float)) : list (list string * float) :=
  batch_loop [] [] 0%float ls.

(** Float sum from [0.0], in list order. *)
Definition fsum (l : list float) : float := fold_left add l 0%float.

(** The group the loop records for the lines [ch] placed in it: their
    product numbers and the running total summed from [0.0] in line
    order. *)
Definition group_of (ch : list (string * float)) : list string * float :=
  (map fst ch, fsum (map snd ch)).

(** Every line of [ch] after the first fitted under the ceiling when it
    was added: [running_total + total > 4999] was false. *)
Definition fits (ch : list (string * float)) : Prop :=
  forall a x b, ch = a ++ x :: b -> a <> [] ->
                ltb ceiling (snd (group_of a) + snd x)%float = false.

(** The first line of [c2] did not fit after [c1]. *)
Definition overflow (c1 c2 : list (string * float)) : Prop :=
  exists x b, c2 = x :: b /\ ltb ceiling (snd (group_of c1) + snd x)%float = true.

Fixpoint boundaries_ok (chunks : list (list (string * float))) : Prop :=
  match chunks with
  | c1 :: ((c2 :: _) as rest) => overflow c1 c2 /\ boundaries_ok rest
  | _ => True
  end.

(** [f"- {item} (#{pid}): {qty}"] (HTML wrapping left out). *)
Definition detail_line (l : Line) : string :=
  ("- " ++ ln_item l ++ " (#" ++ ln_product_number l ++ "): " ++
   Text.py_str_int (ln_qty l))%string.

(** The exact value of a finite float ([None] for infinities and NaN). *)
Definition float_value (x : float) : option Q :=
  match FloatOps.Prim2SF x with
  | SpecFloat.S754_zero _ => Some 0%Q
  | SpecFloat.S754_finite s m e =>
      let v := if (0 <=? e)%Z then inject_Z (Z.shiftl (Zpos m) e)
               else (Zpos m # Pos.pow 2 (Z.to_pos (- e)))%Q in
      Some (if s then Qopp v else v)
  | _ => None
  end.

End Batch.

(* ------------------------------------------------------------------ *)
(** ** Generate & Log Order *)

Module Submit.
Import Catalog OrderLog Session Smtp Mail Batch.

(** The messages the handler shows: [st.success], [st.error] of a failed
    mail, and the [st.error] [get_smtp_config] shows when it cannot read
    the configuration. *)
Inductive UiMsg :=
| UiSuccess (s : string)
| UiError (s : string)
| UiConfigError.

(** What the handler reads and changes: the stored log, the session's
    quantity map, the messages shown, and the mails handed to the
    transport (recipients and product groups). *)
Record World := mkWorld {
  w_log : list LogEntry;
  w_qty_map : QtyMap;
  w_ui : list UiMsg;
  w_outbox : list (list string * list (list string * PrimFloat.float))
}.

(** How the handler ends: normally (through [st.rerun()]), or by an
    uncaught exception, with the world as it was when it was raised. *)
Inductive Outcome :=
| Finished (w : World)
| Raised (w : World).

(** [append_log(order_df, orderer)]: one row per line, one shared
    timestamp. *)
Definition append_rows (ls : list Line) (orderer_ : string) (now : Z) : list LogEntry :=
  map (fun l => mkLogEntry (ln_item l) (ln_product_number l) (ln_qty l)
                           (Some now) orderer_) ls.

(** The message [smtp_ok()] adds through [get_smtp_config]. *)
Definition config_msgs (secrets : option SmtpTable) : list UiMsg :=
  if config_error_shown secrets then [UiConfigError] else [].

(** [st.session_state["qty_map"] = {}] *)
Definition clear_qty_map (w : World) : World :=
  mkWorld (w_log w) [] (w_ui w) (w_outbox w).

(** The body of [if st.button("Generate & Log Order")].  [insert_ok] says
    whether the insert of [append_log] succeeds (it raises otherwise) and
    [transport_ok] whether the SMTP transport delivers. *)
Definition generate_and_log (cat : list CatalogRow) (secrets : option SmtpTable)
  (roster : list string) (orderer_ : string) (now : Z) (insert_ok transport_ok : bool)
  (w : World) : Outcome :=
  let rows := selected_lines cat (w_qty_map w) in
  if is_nil rows then Finished w
  else if negb insert_ok then Raised w
  else
    let w1 := mkWorld (w_log w ++ append_rows rows orderer_ now)
                      (w_qty_map w) (w_ui w ++ config_msgs secrets) (w_outbox w) in
    if smtp_ok secrets then
      let cfg := get_smtp_config secrets in
      let recipients := all_recipients cfg roster in
      if is_nil recipients then Finished (clear_qty_map w1)
      else
        match priced_lines cat rows with
        | None => Raised w1
        | Some ts =>
            let groups := product_groups ts in
            match send_email cfg recipients transport_ok with
            | Sent rs =>
                Finished (clear_qty_map
                  (mkWorld (w_log w1) (w_qty_map w1)
                     (w_ui w1 ++ [UiSuccess ("Emailed " ++
                         Text.py_str_int (Z.of_nat (length recipients)) ++
                         " recipient(s).")%string])
                     (w_outbox w1 ++ [(rs, groups)])))
            | SendErr m =>
                Finished (clear_qty_map
                  (mkWorld (w_log w1) (w_qty_map w1)
                     (w_ui w1 ++ [UiError ("Email failed: " ++ m)%string])
                     (w_outbox w1)))
            end
        end
    else Finished (clear_qty_map w1).

End Submit.

(* ------------------------------------------------------------------ *)
(** ** The catalog file ([catalog.py]): [write_catalog], [read_csv] and
       [read_catalog] *)

Module CsvCatalog.
Import Text.

(** Python floats other than NaN, as the catalog code uses them: [repr]
    (which is also [str] and what [to_csv] writes), the parser's text to
    float conversion, [float(n)] and [int(x)] (which raises on an
    infinity). *)
Class PyFloat (F : Type) := {
  float_repr : F -> string;
  float_text : string -> option F;
  float_of_Z : Z -> F;
  float_trunc : F -> option Z
}.

Definition int64_min : Z := -9223372036854775808.
Definition int64_max : Z := 9223372036854775807.
Definition uint64_max : Z := 18446744073709551615.

Definition is_some {A} (o : option A) : bool :=
  match o with Some _ => true | None => false end.

(** [read_csv]'s default missing-value markers. *)
Definition na_values : list string :=
  [""; "#N/A"; "#N/A N/A"; "#NA"; "-1.#IND"; "-1.#QNAN"; "-NaN"; "-nan";
   "1.#IND"; "1.#QNAN"; "<NA>"; "N/A"; "NA"; "NULL"; "NaN"; "None"; "n/a";
   "nan"; "null"]%string.

Definition is_na (c : string) : bool := existsb (String.eqb c) na_values.

(** The parser's whitespace around a number: space and \t \n \v \f \r. *)
Definition c_space (c : ascii) : bool :=
  let n := nat_of_ascii c in ((9 <=? n) && (n <=? 13))%nat || Nat.eqb n 32.

Fixpoint c_lstrip (l : list ascii) : list ascii :=
  match l with
  | c :: r => if c_space c then c_lstrip r else l
  | [] => []
  end.

Definition c_strip (s : string) : string :=
  string_of_list_ascii (rev (c_lstrip (rev (c_lstrip (list_ascii_of_string s))))).

(** The parser's integer conversion: optional sign and ASCII decimal
    digits, surrounding spaces allowed. *)
Definition int_text (c : string) : option Z := parse_int_text (c_strip c).

Definition in_int64 (z : Z) : bool := (int64_min <=? z) && (z <=? int64_max).
Definition in_uint64 (z : Z) : bool := (0 <=? z) && (z <=? uint64_max).

(** The integers [to_numeric] reads from a string: in the int64 or uint64
    range. *)
Definition int_in_range (c : string) : option Z :=
  match int_text c with
  | Some z => if (int64_min <=? z) && (z <=? uint64_max) then Some z else None
  | None => None
  end.

(** The low-memory reader's chunk size for a table of [table_width]
    columns: [heuristic = 2**20 // table_width], then [buffer_lines]
    doubled from 1 while [buffer_lines * 2 < heuristic]. *)
Fixpoint grow_buffer (fuel : nat) (heuristic b : Z) : Z :=
  match fuel with
  | O => b
  | S f => if b * 2 <? heuristic then grow_buffer f heuristic (b * 2) else b
  end.

Definition buffer_lines (table_width : Z) : Z :=
  grow_buffer 64 (2 ^ 20 / table_width) 1.

(** The parser's default boolean values. *)
Definition bool_text (c : string) : option bool :=
  if existsb (String.eqb c) ["True"; "TRUE"; "true"]%string then Some true
  else if existsb (String.eqb c) ["False"; "FALSE"; "false"]%string then Some false
  else None.

Section Frames.
Context {F : Type} `{PyFloat F}.

(** A cell of a DataFrame column. *)
Inductive Val :=
| VStr (s : string)
| VInt (z : Z)
| VFloat (x : F)
| VBool (b : bool)
| VNaN
| VPdNA.

(** A DataFrame as its named columns, in order. *)
Definition Frame := list (string * list Val).

(** [str(v)], one cell of [Series.astype(str)]. *)
Definition astype_str (v : Val) : string :=
  match v with
  | VStr s => s
  | VInt z => py_str_int z
  | VFloat x => float_repr x
  | VBool b => if b then "True"%string else "False"%string
  | VNaN => "nan"%string
  | VPdNA => "<NA>"%string
  end.

(** The text [to_csv] writes for a cell ([na_rep=""]). *)
Definition render (v : Val) : string :=
  match v with
  | VNaN | VPdNA => EmptyString
  | _ => astype_str v
  end.

(** [write_catalog(df)], i.e. [df.to_csv(CATALOG_PATH, index=False)].
    The file is modelled by its header and cells, column by column: the
    writer quotes a cell holding a comma, a quote or a line break and the
    reader removes exactly that quoting, so both sides see these cells. *)
Definition write_catalog (df : Frame) : list (string * list string) :=
  map (fun p => (fst p, map render (snd p))) df.

(** The dtype the parser gives one chunk of a column. *)
Inductive Kind := KInt | KUInt | KFloat | KBool | KObj.

Definition kind_eqb (a b : Kind) : bool :=
  match a, b with
  | KInt, KInt | KUInt, KUInt | KFloat, KFloat | KBool, KBool | KObj, KObj => true
  | _, _ => false
  end.

Definition is_numeric_kind (k : Kind) : bool :=
  match k with KInt | KUInt | KFloat => true | _ => false end.

(** [read_csv]'s type inference for one chunk of a column: when every cell
    is an integer and none is missing, int64 if they all fit, else uint64
    if they all fit, else text (the overflow leaves the cells as they
    are); otherwise float64 when every present cell is a number, else bool
    when every present cell is a boolean, else text; missing cells become
    NaN. *)
Definition infer_chunk (cells : list string) : Kind * list Val :=
  if negb (existsb is_na cells) && forallb (fun c => is_some (int_text c)) cells then
    let zs := map (fun c => match int_text c with Some z => z | None => 0 end) cells in
    if forallb in_int64 zs then (KInt, map VInt zs)
    else if forallb in_uint64 zs then (KUInt, map VInt zs)
    else (KObj, map VStr cells)
  else if forallb (fun c => is_na c || is_some (float_text c)) cells then
    (KFloat, map (fun c => if is_na c then VNaN else
                           match float_text c with Some x => VFloat x | None => VNaN end)
                 cells)
  else if forallb (fun c => is_na c || is_some (bool_text c)) cells then
    (KBool, map (fun c => if is_na c then VNaN else
                          match bool_text c with Some b => VBool b | None => VNaN end)
                cells)
  else (KObj, map (fun c => if is_na c then VNaN else VStr c) cells).

(** An integer cell of a chunk concatenated into a float64 column. *)
Definition as_float (v : Val) : Val :=
  match v with VInt z => VFloat (float_of_Z z) | _ => v end.

(** The chunks of a column put together: chunks of different numeric
    dtypes give a float64 column; any other mix of dtypes gives an object
    column, which keeps the values. *)
Definition concat_chunks (parts : list (Kind * list Val)) : list Val :=
  let ks := map fst parts in
  if forallb is_numeric_kind ks && negb (forallb (kind_eqb (hd KObj ks)) ks)
  then concat (map (fun p => map as_float (snd p)) parts)
  else concat (map snd parts).

(** The first [n] rows, [rows[:n]]. *)
Fixpoint take_rows {A} (n : Z) (l : list A) : list A :=
  match l with
  | [] => []
  | x :: r => if 0 <? n then x :: take_rows (n - 1) r else []
  end.

(** The rows after the first [n], [rows[n:]]. *)
Fixpoint drop_rows {A} (n : Z) (l : list A) : list A :=
  match l with
  | [] => []
  | _ :: r => if 0 <? n then drop_rows (n - 1) r else l
  end.

(** The rows cut into chunks of [n] rows. *)
Fixpoint chunks_fuel {A} (n : Z) (fuel : nat) (l : list A) : list (list A) :=
  match fuel with
  | O => []
  | S f =>
      match l with
      | [] => []
      | _ => take_rows n l :: chunks_fuel n f (drop_rows n l)
      end
  end.

Definition chunks {A} (n : Z) (l : list A) : list (list A) :=
  chunks_fuel n (length l) l.

(** The inference of a column read in chunks of [n] rows. *)
Definition infer_column (n : Z) (cells : list string) : list Val :=
  concat_chunks (map infer_chunk (chunks n cells)).

(** [pd.read_csv(path)] on the cells of the file; with [low_memory=True]
    (the default) the C reader reads [buffer_lines] rows at a time, for a
    table of that many columns. *)
Definition read_csv (file : list (string * list string)) : Frame :=
  let n := buffer_lines (Z.of_nat (length file)) in
  map (fun p => (fst p, infer_column n (snd p))) file.

(** [df[c]] *)
Definition lookup (c : string) (df : Frame) : option (list Val) :=
  match find (fun p => String.eqb (fst p) c) df with
  | Some p => Some (snd p)
  | None => None
  end.

Definition col (c : string) (df : Frame) : list Val :=
  match lookup c df with Some v => v | None => [] end.

Definition has_col (c : string) (df : Frame) : bool :=
  existsb (fun p => String.eqb (fst p) c) df.

(** [len(df)] *)
Definition nrows (df : Frame) : nat :=
  match df with [] => O | p :: _ => length (snd p) end.

(** [df[c] = v]: replaces the column in place, or appends it. *)
Definition set_col (c : string) (v : list Val) (df : Frame) : Frame :=
  if has_col c df
  then map (fun p => if String.eqb (fst p) c then (c, v) else p) df
  else (df ++ [(c, v)])%list.

Definition catalog_columns : list string :=
  ["item"; "product_number"; "multiplier"; "items_per_order"; "current_qty";
   "sort_order"; "price"]%string.

(** The empty catalog frame [read_catalog] returns for an empty file. *)
Definition empty_catalog : Frame := map (fun c => (c, [])) catalog_columns.

(** [pd.to_numeric] on one cell, with [errors="coerce"]. *)
Inductive Num :=
| NInt (z : Z)
| NFloat (x : F)
| NNaN.

Definition to_numeric (v : Val) : Num :=
  match v with
  | VStr s =>
      match int_in_range s with
      | Some z => NInt z
      | None => match float_text s with Some x => NFloat x | None => NNaN end
      end
  | VInt z => NInt z
  | VFloat x => NFloat x
  | VBool b => NInt (if b then 1 else 0)
  | VNaN | VPdNA => NNaN
  end.

Definition is_int_num (n : Num) : bool :=
  match n with NInt _ => true | _ => false end.

(** [pd.to_numeric(col, errors="coerce").fillna(d).astype(int)]: a column
    of integers stays an integer column; otherwise it is a float column,
    missing values become [d] and [astype(int)] truncates ([None]: the
    cast of an infinity raises). *)
Definition fill_int (d : Z) (vs : list Val) : list (option Z) :=
  let ns := map to_numeric vs in
  if forallb is_int_num ns
  then map (fun n => match n with NInt z => Some z | _ => Some d end) ns
  else map (fun n => match n with
                     | NInt z => float_trunc (float_of_Z z)
                     | NFloat x => float_trunc x
                     | NNaN => Some d
                     end) ns.

(** [so.fillna(filler).astype(int)] with [filler] the row positions. *)
Definition fill_sort (vs : list Val) : list (option Z) :=
  let ns := map to_numeric vs in
  if forallb is_int_num ns
  then map (fun n => match n with NInt z => Some z | _ => Some 0 end) ns
  else map (fun p => match snd p with
                     | NInt z => float_trunc (float_of_Z z)
                     | NFloat x => float_trunc x
                     | NNaN => Some (Z.of_nat (fst p))
                     end) (combine (seq 0 (length ns)) ns).

(** [pd.to_numeric(col, errors="coerce").fillna(0).astype(float)] *)
Definition fill_float (vs : list Val) : list F :=
  map (fun v => match to_numeric v with
                | NInt z => float_of_Z z
                | NFloat x => x
                | NNaN => float_of_Z 0
                end) vs.

Fixpoint all_some (l : list (option Z)) : option (list Z) :=
  match l with
  | [] => Some []
  | Some z :: r => option_map (cons z) (all_some r)
  | None :: _ => None
  end.

(** [df[c].astype(str).str.strip()], as pandas 2 evaluates it: a missing
    value becomes the text ["nan"] (pandas 3 keeps it missing; the
    theorems below about this column only concern columns without missing
    values). *)
Definition text_col (vs : list Val) : list Val :=
  map (fun v => VStr (strip (astype_str v))) vs.

(** [read_catalog()] on the frame [safe_read_csv] returned; [None] is an
    exception raised by a cast. *)
Definition read_catalog (df : Frame) : option Frame :=
  if Nat.eqb (nrows df) 0 then Some empty_catalog
  else
    let n := nrows df in
    let df1 := fold_left (fun d c => if has_col c d then d
                                     else (d ++ [(c, repeat VPdNA n)])%list)
                         catalog_columns df in
    match all_some (fill_int 1 (col "multiplier" df1)),
          all_some (fill_int 1 (col "items_per_order" df1)),
          all_some (fill_int 0 (col "current_qty" df1)),
          all_some (fill_sort (col "sort_order" df1)) with
    | Some ms, Some ips, Some cqs, Some sos =>
        Some (set_col "sort_order" (map VInt sos)
               (set_col "price" (map VFloat (fill_float (col "price" df1)))
                 (set_col "current_qty" (map VInt cqs)
                   (set_col "items_per_order" (map VInt ips)
                     (set_col "multiplier" (map VInt ms)
                       (set_col "product_number" (text_col (col "product_number" df1))
                         (set_col "item" (text_col (col "item" df1)) df1)))))))
    | _, _, _, _ => None
    end.

(** Writing a catalog frame with [write_catalog] and reading it back with
    [read_catalog]. *)
Definition catalog_roundtrip (df : Frame) : option Frame :=
  read_catalog (read_csv (write_catalog df)).

(** Shapes of the frames [read_catalog] returns. *)
Definition int64 (z : Z) : Prop := int64_min <= z <= int64_max.

(** A price whose text [to_csv] writes is read back as that float. *)
Definition float_ok (x : F) : Prop :=
  float_text (float_repr x) = Some x /\ int_text (float_repr x) = None /\
  is_na (float_repr x) = false.

Definition int_columns : list string :=
  ["multiplier"; "items_per_order"; "current_qty"; "sort_order"]%string.

(** A catalog record set: a frame as [read_catalog] returns it, with text
    [item] and [product_number] columns, int64 integer columns and float
    prices. *)
Definition catalog_frame (df : Frame) : Prop :=
  NoDup (map fst df) /\
  (forall c v, In (c, v) df -> length v = nrows df) /\
  (exists ss, lookup "item" df = Some (map VStr ss)) /\
  (exists ss, lookup "product_number" df = Some (map VStr ss)) /\
  (forall c, In c int_columns ->
     exists zs, lookup c df = Some (map VInt zs) /\ Forall int64 zs) /\
  (exists xs, lookup "price" df = Some (map VFloat xs) /\ Forall float_ok xs).

(** Text values that come back unchanged: stripped, not a missing-value
    marker, and either the decimal form of an int64 (read as an integer
    and printed back the same way) or text that reads as neither a number
    nor a boolean (read as text), whatever chunk of rows it falls in. *)
Definition text_column_ok (ss : list string) : Prop :=
  Forall (fun s => strip s = s /\ is_na s = false /\
                   ((exists z, s = py_str_int z /\ int64 z) \/
                    (int_text s = None /\ float_text s = None /\ bool_text s = None))) ss.

End Frames.

Arguments Val F : clear implicits.
Arguments Frame F : clear implicits.

(** Floats with integral values, written as Python writes them ([5.0]);
    used for examples. *)
Definition int_float_text (s : string) : option Z :=
  match rev (list_ascii_of_string (c_strip s)) with
  | "0"%char :: "."%char :: r => parse_int_text (string_of_list_ascii (rev r))
  | _ => parse_int_text (c_strip s)
  end.

#[export] Instance IntFloat : PyFloat Z := {
  float_repr z := (py_str_int z ++ ".0")%string;
  float_text := int_float_text;
  float_of_Z z := z;
  float_trunc z := Some z
}.

End CsvCatalog.

(* ------------------------------------------------------------------ *)
(** ** The order editor and the orderer select box ([app.py]) *)

Module Editor.
Import Text Session.
Local Open Scope string_scope.

(** [st.session_state["qty_map"].get(pid)] *)
Fixpoint get_qty (m : QtyMap) (pid : string) : option Z :=
  match m with
  | [] => None
  | (p, v) :: r => if String.eqb p pid then Some v else get_qty r pid
  end.

(** How the loop over the edited rows ends: normally, with the map and
    [rerun_needed], or by an exception, with the map as far as it was
    updated (the session state keeps those updates). *)
Inductive EditResult :=
| EditDone (m : QtyMap) (rerun : bool)
| EditRaised (m : QtyMap).

(** [for _, r in edited.iterrows(): ...]: a row is [(str(product_number),
    int(qty))], the second component [None] when [int] raises (a cleared
    cell).  A row whose quantity differs from [qty_map.get(pid)] (which is
    [None] for an unknown product) is written into the map and asks for a
    rerun. *)
Fixpoint apply_edits (m : QtyMap) (rerun_needed : bool)
  (rows : list (string * option Z)) : EditResult :=
  match rows with
  | [] => EditDone m rerun_needed
  | (pid, q) :: rest =>
      match q with
      | None => EditRaised m
      | Some new_qty =>
          match get_qty m pid with
          | Some v => if Z.eqb v new_qty then apply_edits m rerun_needed rest
                      else apply_edits (set_qty pid new_qty m) true rest
          | None => apply_edits (set_qty pid new_qty m) true rest
          end
      end
  end.

(** The [qty] column of the editor table:
    [table["product_number"].map(qty_map).fillna(0).astype(int)]. *)
Definition shown_qty (m : QtyMap) (pid : string) : Z :=
  match get_qty m pid with Some z => z | None => 0 end.

(** The rows the loop reads back from the editor when the user changed
    nothing: each listed product with the quantity the table showed. *)
Definition editor_rows (m : QtyMap) (pids : list string) : list (string * option Z) :=
  map (fun p => (p, Some (shown_qty m p))) pids.

(** [options=(people if people else ["Unknown"])] *)
Definition orderer_options (people : list string) : list string :=
  match people with [] => ["Unknown"] | _ => people end.

(** [st.session_state["orderer"] or (people[0] if people else "Unknown")];
    the session value is [None] before the first choice. *)
Definition current_orderer (sess : option string) (people : list string) : string :=
  let fallback := match people with p :: _ => p | [] => "Unknown" end in
  match sess with
  | Some s => if truthy_str s then s else fallback
  | None => fallback
  end.

(** [people.index(x)], the first position of [x]; only called when [x] is
    in [people]. *)
Fixpoint py_index (x : string) (l : list string) : nat :=
  match l with
  | [] => O
  | y :: r => if String.eqb y x then O else S (py_index x r)
  end.

(** [index=(people.index(current_orderer) if people and current_orderer in
    people else 0)] *)
Definition orderer_index (sess : option string) (people : list string) : nat :=
  let cur := current_orderer sess people in
  match people with
  | [] => O
  | _ => if existsb (String.eqb cur) people then py_index cur people else O
  end.

(** The option the select box shows before the user touches it, which is
    also what it returns and what is stored as the session orderer. *)
Definition preselected_orderer (sess : option string) (people : list string) : string :=
  nth (orderer_index sess people) (orderer_options people) "".

End Editor.

(* ------------------------------------------------------------------ *)
(** ** [read_people] and [read_emails] ([app.py]) *)

Module People.
Import Text.
Local Open Scope string_scope.

(** The file behind a path: absent, unreadable ([read_text] or the parser
    raises), or its text. *)
Inductive TextFile :=
| NoFile
| Unreadable
| FileText (s : string).

(** One-byte line boundaries of [str.splitlines] other than \r: \n, \v,
    \f, \x1c, \x1d, \x1e. *)
Definition is_line_break (c : ascii) : bool :=
  let n := nat_of_ascii c in
  ((10 <=? n) && (n <=? 12))%nat || ((28 <=? n) && (n <=? 30))%nat.

(** The two-byte boundary U+0085. *)
Definition is_line_break2 (a b : ascii) : bool :=
  Nat.eqb (nat_of_ascii a) 194 && Nat.eqb (nat_of_ascii b) 133.

(** The three-byte boundaries U+2028 and U+2029. *)
Definition is_line_break3 (a b c : ascii) : bool :=
  Nat.eqb (nat_of_ascii a) 226 && Nat.eqb (nat_of_ascii b) 128 &&
  (Nat.eqb (nat_of_ascii c) 168 || Nat.eqb (nat_of_ascii c) 169).

(** [cur] holds the bytes of the current line, reversed; \r\n is one
    boundary. *)
Fixpoint splitlines_acc (cur : list ascii) (s : list ascii) : list string :=
  match s with
  | [] => match cur with [] => [] | _ => [string_of_list_ascii (rev cur)] end
  | c :: r =>
      if Ascii.eqb c "013" then
        match r with
        | c2 :: r' =>
            if Ascii.eqb c2 "010" then string_of_list_ascii (rev cur) :: splitlines_acc [] r'
            else string_of_list_ascii (rev cur) :: splitlines_acc [] r
        | [] => string_of_list_ascii (rev cur) :: splitlines_acc [] r
        end
      else if is_line_break c then string_of_list_ascii (rev cur) :: splitlines_acc [] r
      else
        match r with
        | c2 :: r2 =>
            if is_line_break2 c c2 then string_of_list_ascii (rev cur) :: splitlines_acc [] r2
            else
              match r2 with
              | c3 :: r3 =>
                  if is_line_break3 c c2 c3
                  then string_of_list_ascii (rev cur) :: splitlines_acc [] r3
                  else splitlines_acc (c :: cur) r
              | [] => splitlines_acc (c :: cur) r
              end
        | [] => splitlines_acc (c :: cur) r
        end
  end.

(** [str.splitlines()] *)
Definition splitlines (s : string) : list string :=
  splitlines_acc [] (list_ascii_of_string s).

(** Whether the bytes [l] start with a line boundary. *)
Definition breaks_at (l : list ascii) : bool :=
  match l with
  | c :: r =>
      Ascii.eqb c "013" || is_line_break c ||
      match r with
      | c2 :: r2 =>
          is_line_break2 c c2 ||
          match r2 with c3 :: _ => is_line_break3 c c2 c3 | [] => false end
      | [] => false
      end
  | [] => false
  end.

(** [read_people()] *)
Definition read_people (f : TextFile) : list string :=
  match f with
  | FileText s => filter truthy_str (map strip (splitlines s))
  | _ => []
  end.

End People.

Module Emails.
Import Text CsvCatalog People.
Local Open Scope string_scope.

(** Character classes of the pattern
    [([A-Za-z0-9._%+\-]+@[A-Za-z0-9.\-]+\.[A-Za-z]{2,})]. *)
Definition in_range (lo hi : nat) (c : ascii) : bool :=
  let n := nat_of_ascii c in ((lo <=? n) && (n <=? hi))%nat.

Definition is_alpha (c : ascii) : bool := in_range 65 90 c || in_range 97 122 c.

(** [[A-Za-z0-9.\-]] *)
Definition is_domain_char (c : ascii) : bool :=
  is_alpha c || in_range 48 57 c || Ascii.eqb c "." || Ascii.eqb c "-".

(** [[A-Za-z0-9._%+\-]] *)
Definition is_local_char (c : ascii) : bool :=
  is_domain_char c || Ascii.eqb c "_" || Ascii.eqb c "%" || Ascii.eqb c "+".

(** A greedy repetition [cls{min,}] followed by the rest of the pattern
    [k], with the backtracking of Python's [re]: the longest run is tried
    first, then shorter ones down to [min].  The result is the text left
    after the whole match. *)
Fixpoint rep (cls : ascii -> bool) (min : nat) (s : list ascii)
  (k : list ascii -> option (list ascii)) : option (list ascii) :=
  match s with
  | c :: r =>
      if cls c then
        match rep cls (pred min) r k with
        | Some t => Some t
        | None => if Nat.eqb min 0 then k s else None
        end
      else if Nat.eqb min 0 then k s else None
  | [] => if Nat.eqb min 0 then k s else None
  end.

(** The pattern matched at the start of [s]. *)
Definition email_at (s : list ascii) : option (list ascii) :=
  rep is_local_char 1 s (fun s1 =>
    match s1 with
    | c :: s2 =>
        if Ascii.eqb c "@" then
          rep is_domain_char 1 s2 (fun s3 =>
            match s3 with
            | c' :: s4 => if Ascii.eqb c' "." then rep is_alpha 2 s4 (fun s5 => Some s5)
                          else None
            | [] => None
            end)
        else None
    | [] => None
    end).

(** [email_re.search]: the match at the first position where there is
    one. *)
Fixpoint search_from (s : list ascii) : option (list ascii) :=
  match email_at s with
  | Some rest => Some (firstn (length s - length rest) s)
  | None => match s with [] => None | _ :: r => search_from r end
  end.

(** [m = email_re.search(raw)], then [m.group(1)] (the whole match). *)
Definition email_search (raw : string) : option string :=
  option_map string_of_list_ascii (search_from (list_ascii_of_string raw)).

(** [str.lower()] on ASCII. *)
Definition lower_char (c : ascii) : ascii :=
  if in_range 65 90 c then ascii_of_nat (nat_of_ascii c + 32) else c.

Definition lower (s : string) : string :=
  string_of_list_ascii (map lower_char (list_ascii_of_string s)).

(** [str(c).strip().lower()] for a header. *)
Definition norm_header (c : string) : string := lower (strip c).

Section ReadEmails.
Context {F : Type} `{PyFloat F}.

(** [read_emails()] on the frame [pd.read_csv] returned ([None]: the file
    is missing or [read_csv] raised).  [r.get(c, "")] reads the column of
    that (normalized) name; the headers are taken distinct after
    normalization.  Rows are [(name, email)]. *)
Definition read_emails (file : option (Frame F)) : list (string * string) :=
  match file with
  | None => []
  | Some df =>
      let df' := map (fun p => (norm_header (fst p), snd p)) df in
      let cell c i := match lookup c df' with
                      | Some v => astype_str (nth i v VNaN)
                      | None => ""
                      end in
      flat_map (fun i => match email_search (cell "email" i) with
                         | Some e => [(cell "name" i, e)]
                         | None => []
                         end)
               (seq 0 (nrows df'))
  end.

End ReadEmails.

(** [emails_df["email"].tolist() if not emails_df.empty and "email" in
    emails_df.columns else []] for [emails_df = pd.DataFrame(rows)]: the
    frame is empty, without columns, exactly when there is no row. *)
Definition emails_roster (rows : list (string * string)) : list string :=
  match rows with [] => [] | _ => map snd rows end.

End Emails.

(* ------------------------------------------------------------------ *)
(** ** Sample data used by the examples *)

Module Samples.
Import Catalog OrderLog PrimFloat.

(** Two orders of the same product logged with the same timestamp. *)
Definition tie_e1 : LogEntry := mkLogEntry "Gloves" "100" 1 (Some 5) "Ann".
Definition tie_e2 : LogEntry := mkLogEntry "Gloves" "100" 2 (Some 5) "Bob".

Definition gloves_row : CatalogRow :=
  mkCatalogRow "Gloves" "100" 1 1 0 0 5%float.
Definition masks_row : CatalogRow :=
  mkCatalogRow "Masks" "200" 1 1 0 1 3%float.

(** A session with nothing selected and no history. *)
Definition empty_world : Submit.World := Submit.mkWorld [] [] [] [].

(** A quantity map with a catalog product, a product number no longer in
    the catalog and a product set back to 0. *)
Definition sample_qty_map : Session.QtyMap :=
  [("100", 2); ("999", 4); ("200", 0)]%string.

(** An [[smtp]] table with host, user, password, from and a default
    recipient, and no port. *)
Definition sample_secrets : Smtp.SmtpTable :=
  [("host", Smtp.TStr "smtp.x.com"); ("user", Smtp.TStr "orders");
   ("password", Smtp.TStr "app pw"); ("from", Smtp.TStr "orders@x.com");
   ("to", Smtp.TStr "b@x.com")]%string.

(** A one-row catalog frame with product number [pn] and price 5.0. *)
Definition gloves_frame (pn : string) : CsvCatalog.Frame Z :=
  [("item", [CsvCatalog.VStr "Gloves"]);
   ("product_number", [CsvCatalog.VStr pn]);
   ("multiplier", [CsvCatalog.VInt 1]);
   ("items_per_order", [CsvCatalog.VInt 10]);
   ("current_qty", [CsvCatalog.VInt 3]);
   ("sort_order", [CsvCatalog.VInt 0]);
   ("price", [CsvCatalog.VFloat 5])]%string.

End Samples.

(* ------------------------------------------------------------------ *)
(** ** Facts about the reconciler *)

Module OrderLogFacts.
Import Catalog OrderLog.

Lemma key_eqb_true a b : key_eqb a b = true <-> a = b.
Proof.
  destruct a as [a1 a2], b as [b1 b2]; unfold key_eqb; simpl.
  rewrite andb_true_iff, !String.eqb_eq.
  split; [intros [-> ->]; reflexivity | intros H; inversion H; auto].
Qed.

Lemma key_eqb_refl a : key_eqb a a = true.
Proof. apply key_eqb_true; reflexivity. Qed.

Lemma group_tail_in s x : In x (group_tail s) -> In x s.
Proof.
  induction s as [|e rest IH]; simpl; [tauto|].
  destruct (existsb _ rest); simpl; intuition.
Qed.

Lemma group_tail_complete s e :
  In e s -> exists x, In x (group_tail s) /\ key x = key e.
Proof.
  revert e; induction s as [|e0 rest IH]; intros e; simpl; [tauto|].
  intros [-> | Hin].
  - destruct (existsb (fun e' => key_eqb (key e') (key e)) rest) eqn:Hex.
    + apply existsb_exists in Hex as [x [Hx Hk]].
      apply key_eqb_true in Hk.
      destruct (IH x Hx) as [y [Hy Hky]].
      exists y; split; [exact Hy | congruence].
    + exists e; simpl; auto.
  - destruct (IH e Hin) as [y [Hy Hky]].
    exists y; split; [|exact Hky].
    destruct (existsb _ rest); simpl; auto.
Qed.

Lemma group_tail_split s e :
  In e (group_tail s) ->
  exists pre post, s = pre ++ e :: post /\
                   forall x, In x post -> key x <> key e.
Proof.
  induction s as [|e0 rest IH]; simpl; [tauto|].
  destruct (existsb (fun e' => key_eqb (key e') (key e0)) rest) eqn:Hex.
  - intros Hin; destruct (IH Hin) as [pre [post [-> Hpost]]].
    exists (e0 :: pre), post; split; [reflexivity | exact Hpost].
  - simpl; intros [<- | Hin].
    + exists [], rest; split; [reflexivity|].
      intros x Hx Hk.
      assert (Hc : existsb (fun e' => key_eqb (key e') (key e0)) rest = true).
      { apply existsb_exists; exists x; split; [exact Hx|].
        apply key_eqb_true; exact Hk. }
      congruence.
    + destruct (IH Hin) as [pre [post [-> Hpost]]].
      exists (e0 :: pre), post; split; [reflexivity | exact Hpost].
Qed.

(** The reduced frame has at most one row per key. *)
Lemma group_tail_unique s k :
  (length (filter (fun e => key_eqb (key e) k) (group_tail s)) <= 1)%nat.
Proof.
  induction s as [|e rest IH]; simpl; [lia|].
  destruct (existsb (fun e' => key_eqb (key e') (key e)) rest) eqn:Hex;
    [exact IH|].
  simpl. destruct (key_eqb (key e) k) eqn:Hk; [|exact IH].
  apply key_eqb_true in Hk.
  assert (Hnil : filter (fun e0 => key_eqb (key e0) k) (group_tail rest) = []).
  { destruct (filter (fun e0 => key_eqb (key e0) k) (group_tail rest)) as [|y ys]
      eqn:Hf; [reflexivity|].
    assert (Hy : In y (filter (fun e0 => key_eqb (key e0) k) (group_tail rest)))
      by (rewrite Hf; simpl; auto).
    apply filter_In in Hy as [Hy Hky].
    apply key_eqb_true in Hky.
    assert (Hc : existsb (fun e' => key_eqb (key e') (key e)) rest = true).
    { apply existsb_exists; exists y; split; [apply group_tail_in; exact Hy|].
      apply key_eqb_true; congruence. }
    congruence. }
  rewrite Hnil; simpl; lia.
Qed.

Lemma filter_rename s k :
  filter (fun li => key_eqb (li_key li) k) (map rename s) =
  map rename (filter (fun e => key_eqb (key e) k) s).
Proof.
  induction s as [|e rest IH]; simpl; [reflexivity|].
  unfold li_key at 1; simpl; fold (key e).
  destruct (key_eqb (key e) k); simpl; rewrite IH; reflexivity.
Qed.

Lemma last_info_unique s k :
  (length (filter (fun li => key_eqb (li_key li) k) (last_info_rows s)) <= 1)%nat.
Proof.
  unfold last_info_rows; rewrite filter_rename, length_map.
  apply group_tail_unique.
Qed.

Lemma merge_left_rows cat m :
  (forall k, (length (filter (fun li => key_eqb (li_key li) k) m) <= 1)%nat) ->
  map f_row (merge_left cat m) = cat.
Proof.
  intros Hu; induction cat as [|r rest IH]; simpl; [reflexivity|].
  rewrite map_app, IH.
  specialize (Hu (cat_key r)).
  destruct (filter (fun li => key_eqb (li_key li) (cat_key r)) m)
    as [|li [|li' ms]]; simpl in *; [reflexivity | reflexivity | lia].
Qed.

Lemma merge_left_in cat m fr :
  In fr (merge_left cat m) ->
  exists r, In r cat /\ f_row fr = r /\
    ((filter (fun li => key_eqb (li_key li) (cat_key r)) m = [] /\
      f_last_ordered_at fr = None) \/
     (exists li, In li m /\ li_key li = cat_key r /\
                 f_last_ordered_at fr = last_ordered_at li)).
Proof.
  unfold merge_left; rewrite in_flat_map; intros [r [Hr Hfr]].
  exists r; split; [exact Hr|].
  destruct (filter (fun li => key_eqb (li_key li) (cat_key r)) m) as [|l ls] eqn:Hf.
  - simpl in Hfr; destruct Hfr as [<- | []]; simpl; auto.
  - apply in_map_iff in Hfr as [li [<- Hli]]; simpl.
    split; [reflexivity|]; right; exists li.
    rewrite <- Hf in Hli; apply filter_In in Hli as [Hli Hk].
    apply key_eqb_true in Hk; auto.
Qed.

(** [ts_le] is a total preorder. *)
Lemma ts_le_trans a b c :
  ts_le a b = true -> ts_le b c = true -> ts_le a c = true.
Proof.
  destruct a, b, c; simpl; try discriminate; rewrite ?Z.leb_le; auto; lia.
Qed.

Lemma ts_le_total a b : ts_le a b = true \/ ts_le b a = true.
Proof.
  destruct a as [x|], b as [y|]; simpl; auto.
  rewrite !Z.leb_le; lia.
Qed.

End OrderLogFacts.

Module ReconcilerProofs.
Import Catalog OrderLog OrderLogFacts Samples.

Lemma last_info_map_props log m :
  last_info_map_rel log m ->
  (forall k, (length (filter (fun li => key_eqb (li_key li) k) m) <= 1)%nat) /\
  (forall li, In li m -> exists e, In e log /\ li = rename e) /\
  (forall e, In e log -> exists li, In li m /\ li_key li = key e).
Proof.
  destruct log as [|e0 rest]; simpl.
  - intros ->; simpl; repeat split; intros; try tauto; lia.
  - intros [df [s [[Hp1 _] [[Hp2 _] ->]]]].
    assert (Hp : Permutation (e0 :: rest) s) by (eapply perm_trans; eassumption).
    split; [intros k; apply last_info_unique|split].
    + intros li Hli; unfold last_info_rows in Hli.
      apply in_map_iff in Hli as [e [<- He]].
      exists e; split; [|reflexivity].
      apply (Permutation_in _ (Permutation_sym Hp)), group_tail_in; exact He.
    + intros e He.
      apply (Permutation_in _ Hp) in He.
      destruct (group_tail_complete s e He) as [x [Hx Hk]].
      exists (rename x); split; [apply in_map; exact Hx | exact Hk].
Qed.

Lemma strongly_sorted_app_before {A} (R : A -> A -> Prop) pre y post x :
  StronglySorted R (pre ++ y :: post) -> In x pre -> R x y.
Proof.
  induction pre as [|a pre IH]; simpl; [tauto|].
  intros Hs [<- | Hin].
  - apply StronglySorted_inv in Hs as [_ Hall].
    rewrite Forall_forall in Hall; apply Hall, in_or_app; simpl; auto.
  - apply StronglySorted_inv in Hs as [Hs _]; auto.
Qed.

Lemma sorted_tail_is_latest s y e' :
  Sorted (fun a b => ts_le (ordered_at a) (ordered_at b) = true) s ->
  In y (group_tail s) -> In e' s -> key e' = key y ->
  ts_le (ordered_at e') (ordered_at y) = true.
Proof.
  intros Hsort Hy He' Hk.
  destruct (group_tail_split s y Hy) as [pre [post [Hs Hpost]]].
  apply Sorted_StronglySorted in Hsort;
    [|intros a b c; apply ts_le_trans].
  rewrite Hs in He', Hsort.
  apply in_app_or in He' as [Hpre | [-> | Hin]].
  - exact (strongly_sorted_app_before _ pre y post e' Hsort Hpre).
  - destruct (ordered_at e'); simpl; [apply Z.leb_refl | reflexivity].
  - exfalso; exact (Hpost e' Hin Hk).
Qed.

(** C1: for every log whose stored timestamps all parse and every catalog,
    the left merge of the reduced log onto the catalog has exactly one row
    per catalog row (the catalog rows themselves, in order), and a row's
    [last_ordered_at] is null iff no log entry has that row's
    [(item, product_number)] key. *)
Theorem freshness_one_row_per_catalog_row
    (log : list LogEntry) (cat : list CatalogRow) (m : list LastInfo) :
  (forall e, In e log -> ordered_at e <> None) ->
  last_info_map_rel log m ->
  map f_row (merge_left cat m) = cat /\
  (forall fr, In fr (merge_left cat m) ->
     (f_last_ordered_at fr = None <->
      ~ exists e, In e log /\ key e = cat_key (f_row fr))).
Proof.
  intros Hts Hm.
  destruct (last_info_map_props log m Hm) as [Hu [Hsound Hcompl]].
  split; [apply merge_left_rows; exact Hu|].
  intros fr Hfr.
  destruct (merge_left_in cat m fr Hfr)
    as [r [_ [Hrow [[Hnil Hnone] | [li [Hli [Hkey Hlast]]]]]]];
    rewrite Hrow.
  - split; [intros _|intros _; exact Hnone].
    intros [e [He Hk]].
    destruct (Hcompl e He) as [li [Hli Hlk]].
    assert (Hin : In li (filter (fun li => key_eqb (li_key li) (cat_key r)) m)).
    { apply filter_In; split; [exact Hli|]. apply key_eqb_true; congruence. }
    rewrite Hnil in Hin; destruct Hin.
  - destruct (Hsound li Hli) as [e [He ->]].
    split.
    + intros Hn; exfalso. rewrite Hlast in Hn; simpl in Hn.
      exact (Hts e He Hn).
    + intros Hno; exfalso; apply Hno.
      exists e; split; [exact He | exact Hkey].
Qed.

(** C2 (counterexample): two entries of the same key with the same
    timestamp, [tie_e1] inserted before [tie_e2].  The store may return
    them in either order and the sort need not keep it; one admissible run
    selects [tie_e1], not the last inserted [tie_e2]. *)
Lemma reconciler_tie_not_insertion_order :
  ~ (forall log df s k,
       (exists pre e1 mid e2 post,
          log = pre ++ e1 :: mid ++ e2 :: post /\ key e1 = k /\ key e2 = k /\
          ordered_at e1 = ordered_at e2) ->
       read_log_rel log df -> sort_values_rel df s ->
       find_key k (last_info_rows s) = option_map rename (last_max_in_log k log)).
Proof.
  intros H.
  specialize (H [tie_e1; tie_e2] [tie_e2; tie_e1] [tie_e2; tie_e1]
                ("Gloves", "100")%string).
  assert (Hc : find_key ("Gloves", "100")%string (last_info_rows [tie_e2; tie_e1]) =
               option_map rename
                 (last_max_in_log ("Gloves", "100")%string [tie_e1; tie_e2])).
  { apply H.
    - exists [], tie_e1, [], tie_e2, []; repeat split.
    - split; [apply perm_swap|].
      repeat constructor.
    - split; [apply Permutation_refl|].
      repeat constructor. }
  vm_compute in Hc; discriminate Hc.
Qed.

(** C2 (amended): whatever order the store and the sort produce, the row
    the reconciler keeps for a key occurring in the log is the renaming of
    a log entry with that key whose [ordered_at] is greatest among the
    entries of that key (NaT counting as greatest), and it is the only row
    of that key; which of several such entries is kept is left open. *)
Theorem reconciler_selects_a_latest_entry log df s k :
  read_log_rel log df -> sort_values_rel df s ->
  (exists e0, In e0 log /\ key e0 = k) ->
  length (filter (fun li => key_eqb (li_key li) k) (last_info_rows s)) = 1%nat /\
  exists e, find_key k (last_info_rows s) = Some (rename e) /\
            In e log /\ key e = k /\
            forall e', In e' log -> key e' = k ->
                       ts_le (ordered_at e') (ordered_at e) = true.
Proof.
  intros [Hp1 _] [Hp2 Hsort] [e0 [He0 Hk0]].
  split.
  { pose proof (last_info_unique s k) as Hu.
    destruct (group_tail_complete s e0 (Permutation_in _ (perm_trans Hp1 Hp2) He0))
      as [x [Hx Hkx]].
    assert (Hin : In (rename x) (filter (fun li => key_eqb (li_key li) k) (last_info_rows s))).
    { apply filter_In; split; [apply in_map; exact Hx|].
      unfold li_key; simpl; fold (key x); rewrite Hkx, Hk0; apply key_eqb_refl. }
    destruct (filter (fun li => key_eqb (li_key li) k) (last_info_rows s)) as [|a [|b l]];
      simpl in *; [destruct Hin | reflexivity | lia]. }
  assert (Hp : Permutation log s) by (eapply perm_trans; eassumption).
  destruct (group_tail_complete s e0 (Permutation_in _ Hp He0)) as [x [Hx Hkx]].
  unfold find_key.
  destruct (find (fun li => key_eqb (li_key li) k) (last_info_rows s)) as [li|] eqn:Hf.
  - apply find_some in Hf as [Hli Hk].
    apply key_eqb_true in Hk.
    unfold last_info_rows in Hli; apply in_map_iff in Hli as [y [<- Hy]].
    change (li_key (rename y)) with (key y) in Hk.
    exists y; split; [reflexivity|].
    split; [apply (Permutation_in _ (Permutation_sym Hp)), group_tail_in; exact Hy|].
    split; [exact Hk|].
    intros e' He' Hk'.
    apply (sorted_tail_is_latest s y e' Hsort Hy (Permutation_in _ Hp He')).
    rewrite Hk'; symmetry; exact Hk.
  - exfalso.
    assert (Hfx := find_none _ _ Hf (rename x) (in_map _ _ _ Hx)).
    simpl in Hfx. unfold li_key in Hfx; simpl in Hfx; fold (key x) in Hfx.
    rewrite Hkx, Hk0, key_eqb_refl in Hfx; discriminate.
Qed.

Lemma freshness_one_row_per_catalog_row_witness :
  (forall e, In e [tie_e1; tie_e2] -> ordered_at e <> None) /\
  last_info_map_rel [tie_e1; tie_e2] (last_info_rows [tie_e1; tie_e2]) /\
  map f_row (merge_left [gloves_row; masks_row] (last_info_rows [tie_e1; tie_e2]))
    = [gloves_row; masks_row] /\
  (forall fr, In fr (merge_left [gloves_row; masks_row]
                                (last_info_rows [tie_e1; tie_e2])) ->
     (f_last_ordered_at fr = None <->
      ~ exists e, In e [tie_e1; tie_e2] /\ key e = cat_key (f_row fr))).
Proof.
  assert (H1 : forall e, In e [tie_e1; tie_e2] -> ordered_at e <> None).
  { intros e [<- | [<- | []]]; discriminate. }
  assert (H2 : last_info_map_rel [tie_e1; tie_e2] (last_info_rows [tie_e1; tie_e2])).
  { exists [tie_e2; tie_e1], [tie_e1; tie_e2].
    split; [split; [apply perm_swap | repeat constructor]|].
    split; [split; [apply perm_swap | repeat constructor]|reflexivity]. }
  split; [exact H1|]; split; [exact H2|].
  exact (freshness_one_row_per_catalog_row _ _ _ H1 H2).
Defined.

Lemma reconciler_selects_a_latest_entry_witness :
  read_log_rel [tie_e1; tie_e2] [tie_e2; tie_e1] /\
  sort_values_rel [tie_e2; tie_e1] [tie_e1; tie_e2] /\
  (exists e0, In e0 [tie_e1; tie_e2] /\ key e0 = ("Gloves", "100")%string) /\
  length (filter (fun li => key_eqb (li_key li) ("Gloves", "100")%string)
                 (last_info_rows [tie_e1; tie_e2])) = 1%nat /\
  exists e, find_key ("Gloves", "100")%string (last_info_rows [tie_e1; tie_e2])
              = Some (rename e) /\
            In e [tie_e1; tie_e2] /\ key e = ("Gloves", "100")%string /\
            forall e', In e' [tie_e1; tie_e2] -> key e' = ("Gloves", "100")%string ->
                       ts_le (ordered_at e') (ordered_at e) = true.
Proof.
  assert (H1 : read_log_rel [tie_e1; tie_e2] [tie_e2; tie_e1]).
  { split; [apply perm_swap | repeat constructor]. }
  assert (H2 : sort_values_rel [tie_e2; tie_e1] [tie_e1; tie_e2]).
  { split; [apply perm_swap | repeat constructor]. }
  assert (H3 : exists e0, In e0 [tie_e1; tie_e2] /\ key e0 = ("Gloves", "100")%string).
  { exists tie_e1; split; [left; reflexivity | reflexivity]. }
  split; [exact H1|]; split; [exact H2|]; split; [exact H3|].
  exact (reconciler_selects_a_latest_entry _ _ _ _ H1 H2 H3).
Defined.

End ReconcilerProofs.

(* ------------------------------------------------------------------ *)
(** ** The batching loop *)

Module BatchProofs.
Import Batch PrimFloat.
Local Open Scope float_scope.

Lemma group_of_snoc ch x :
  group_of (ch ++ [x]) = (map fst ch ++ [fst x], snd (group_of ch) + snd x).
Proof. unfold group_of, fsum; simpl; rewrite !map_app, fold_left_app; reflexivity. Qed.

Lemma fits_single x : fits [x].
Proof.
  intros a y b Heq Ha.
  destruct a as [|z a]; [congruence|].
  simpl in Heq; inversion Heq as [[Hz Hnil]].
  destruct a; discriminate.
Qed.

Lemma fits_snoc ch x :
  fits ch -> (ch <> [] -> ltb ceiling (snd (group_of ch) + snd x) = false) ->
  fits (ch ++ [x]).
Proof.
  intros Hf Hlast a y b Heq Ha.
  destruct b as [|z b _] using rev_ind.
  - apply app_inj_tail in Heq as [-> ->]; apply Hlast; exact Ha.
  - rewrite app_comm_cons, app_assoc in Heq.
    apply app_inj_tail in Heq as [Heq _].
    exact (Hf a y b Heq Ha).
Qed.

Lemma overflow_snoc c d x : overflow c d -> overflow c (d ++ [x]).
Proof.
  intros [y [b [-> H]]]; exists y, (b ++ [x]); split; [reflexivity | exact H].
Qed.

Lemma boundaries_snoc l c d :
  boundaries_ok (l ++ [c]) -> overflow c d -> boundaries_ok (l ++ [c; d]).
Proof.
  induction l as [|e l IH]; simpl.
  - intros _ H; split; [exact H | exact I].
  - destruct l as [|e' l']; simpl in *.
    + intros [H1 _] H; repeat split; assumption.
    + intros [H1 H2] H; split; [exact H1 | apply IH; assumption].
Qed.

Lemma boundaries_snoc_last l c x :
  boundaries_ok (l ++ [c]) -> boundaries_ok (l ++ [c ++ [x]]).
Proof.
  induction l as [|e l IH]; simpl; [intros _; exact I|].
  destruct l as [|e' l']; simpl in *.
  - intros [H1 _]; split; [apply overflow_snoc; exact H1 | exact I].
  - intros [H1 H2]; split; [exact H1 | apply IH; exact H2].
Qed.

Lemma boundaries_split chunks pre c1 c2 post :
  boundaries_ok chunks -> chunks = pre ++ c1 :: c2 :: post -> overflow c1 c2.
Proof.
  revert chunks; induction pre as [|e pre IH]; intros chunks Hb ->; simpl in Hb.
  - exact (proj1 Hb).
  - destruct pre as [|e' pre']; simpl in Hb.
    + exact (proj1 (proj2 Hb)).
    + refine (IH (e' :: pre' ++ c1 :: c2 :: post) _ eq_refl); exact (proj2 Hb).
Qed.

(** The loop invariant: the groups closed so far are the groups of the
    chunks [done], the open group is the one of [ch]. *)
Lemma batch_loop_spec ls : forall done ch,
  (ch = [] -> done = []) ->
  Forall (fun c => c <> []) done ->
  Forall fits done -> fits ch ->
  boundaries_ok (done ++ [ch]) ->
  exists chunks,
    batch_loop (map group_of done) (map fst ch) (snd (group_of ch)) ls =
      map group_of chunks /\
    concat chunks = concat done ++ ch ++ ls /\
    Forall (fun c => c <> []) chunks /\ Forall fits chunks /\
    boundaries_ok chunks.
Proof.
  induction ls as [|[pid t] rest IH]; intros done ch Hnil Hne Hfd Hfc Hb.
  - destruct ch as [|y ch'] eqn:Hch.
    + rewrite (Hnil eq_refl). exists []; simpl; repeat split; constructor.
    + exists (done ++ [ch]); subst ch; simpl.
      rewrite map_app, concat_app; simpl; rewrite !app_nil_r.
      split; [reflexivity|]; split; [reflexivity|].
      split; [apply Forall_app; split; [exact Hne | repeat constructor; discriminate]|].
      split; [apply Forall_app; split; [exact Hfd | repeat constructor; exact Hfc]|].
      exact Hb.
  - destruct ch as [|y ch'] eqn:Hch.
    + rewrite (Hnil eq_refl) in *; cbn [batch_loop map is_nil negb]; rewrite andb_false_r.
      destruct (IH [] [(pid, t)]) as [chunks [H1 [H2 [H3 [H4 H5]]]]];
        [discriminate | constructor | constructor | apply fits_single | exact I|].
      exists chunks; split; [exact H1|]; split; [exact H2|].
      split; [exact H3|]; split; [exact H4 | exact H5].
    + rewrite <- Hch; rewrite <- Hch in Hnil, Hfc, Hb.
      assert (Hnn : ch <> []) by (subst; discriminate).
      assert (Hisnil : is_nil (map fst ch) = false) by (subst; reflexivity).
      cbn [batch_loop]; rewrite Hisnil; cbn [negb]; rewrite andb_true_r.
      destruct (ltb ceiling (snd (group_of ch) + t)) eqn:Hle.
      * destruct (IH (done ++ [ch]) [(pid, t)]) as [chunks [H1 [H2 [H3 [H4 H5]]]]].
        -- discriminate.
        -- apply Forall_app; split; [exact Hne | repeat constructor; exact Hnn].
        -- apply Forall_app; split; [exact Hfd | repeat constructor; exact Hfc].
        -- apply fits_single.
        -- rewrite <- app_assoc; apply boundaries_snoc; [exact Hb|].
           exists (pid, t), []; split; [reflexivity | exact Hle].
        -- exists chunks.
           rewrite map_app in H1; simpl in H1.
           split; [exact H1|].
           split; [rewrite H2, concat_app; simpl; rewrite app_nil_r, <- app_assoc;
                   reflexivity|].
           repeat split; assumption.
      * destruct (IH done (ch ++ [(pid, t)])) as [chunks [H1 [H2 [H3 [H4 H5]]]]].
        -- intros H; destruct ch; [contradiction | discriminate].
        -- exact Hne.
        -- exact Hfd.
        -- apply fits_snoc; [exact Hfc | intros _; exact Hle].
        -- apply boundaries_snoc_last; exact Hb.
        -- exists chunks.
           rewrite group_of_snoc, map_app in H1; simpl in H1.
           split; [exact H1|].
           split; [rewrite H2, <- app_assoc; reflexivity|].
           repeat split; assumption.
Qed.

Lemma product_groups_spec ls :
  exists chunks,
    product_groups ls = map group_of chunks /\ concat chunks = ls /\
    Forall (fun c => c <> []) chunks /\ Forall fits chunks /\
    boundaries_ok chunks.
Proof.
  destruct (batch_loop_spec ls [] []) as [chunks [H1 [H2 H3]]];
    [reflexivity | constructor | constructor |
     intros a x b Heq; destruct a; discriminate | exact I |].
  exists chunks; split; [exact H1|]; split; [exact H2 | exact H3].
Qed.

Lemma groups_concat ls :
  concat (map fst (product_groups ls)) = map fst ls.
Proof.
  destruct (product_groups_spec ls) as [chunks [-> [<- _]]].
  rewrite map_map, concat_map; reflexivity.
Qed.

Lemma nodup_app_disjoint {A} (l l' : list A) a :
  NoDup (l ++ l') -> In a l -> ~ In a l'.
Proof.
  induction l as [|b l IH]; simpl; [tauto|].
  intros Hnd [-> | Hin]; apply NoDup_cons_iff in Hnd as [Hb Hnd].
  - intros Hin'; apply Hb, in_or_app; right; exact Hin'.
  - exact (IH Hnd Hin).
Qed.

Lemma existsb_eqb_in p g : existsb (String.eqb p) g = true <-> In p g.
Proof.
  rewrite existsb_exists; split.
  - intros [x [Hx Hp]]; apply String.eqb_eq in Hp; subst; exact Hx.
  - intros Hp; exists p; split; [exact Hp | apply String.eqb_refl].
Qed.

Lemma count_groups_one (G : list (list string)) p :
  NoDup (concat G) -> In p (concat G) ->
  length (filter (fun g => existsb (String.eqb p) g) G) = 1%nat.
Proof.
  induction G as [|g G IH]; simpl; [tauto|].
  intros Hnd Hin.
  destruct (existsb (String.eqb p) g) eqn:Hg.
  - simpl; f_equal.
    apply existsb_eqb_in in Hg.
    assert (Hout : ~ In p (concat G)) by exact (nodup_app_disjoint _ _ p Hnd Hg).
    destruct (filter (fun g0 => existsb (String.eqb p) g0) G) as [|g' G'] eqn:Hf;
      [reflexivity|].
    exfalso; apply Hout.
    assert (Hg' : In g' (filter (fun g0 => existsb (String.eqb p) g0) G))
      by (rewrite Hf; left; reflexivity).
    apply filter_In in Hg' as [Hg' Hp]; apply existsb_eqb_in in Hp.
    apply in_concat; exists g'; split; assumption.
  - apply IH; [exact (NoDup_app_remove_l _ _ Hnd)|].
    apply in_app_or in Hin as [Hin | Hin]; [|exact Hin].
    apply existsb_eqb_in in Hin; congruence.
Qed.

Lemma filter_fst_length {B} (f : list string -> bool) (l : list (list string * B)) :
  length (filter (fun g => f (fst g)) l) = length (filter f (map fst l)).
Proof.
  induction l as [|g l IH]; simpl; [reflexivity|].
  destruct (f (fst g)); simpl; rewrite IH; reflexivity.
Qed.

(** C3: the loop cuts the submitted lines, in order, into non-empty
    groups; the cost of a line is the float [qty * price] the loop
    computes and a subtotal is the float sum of its lines' costs from
    [0.0].  Inside a group every line after the first fitted ([running
    subtotal + cost > 4999] was false), and a group was closed exactly when
    the next line's cost pushed its subtotal strictly above 4999.  Costs
    [3000, 3000, 100] give the groups [[L1], [L2, L3]] with subtotals
    [3000, 3100]. *)
Theorem batcher_greedy_groups :
  (forall ls,
     exists chunks,
       concat chunks = ls /\ Forall (fun c => c <> []) chunks /\
       product_groups ls = map group_of chunks /\
       (forall c a x b, In c chunks -> c = a ++ x :: b -> a <> [] ->
          ltb ceiling (snd (group_of a) + snd x) = false) /\
       (forall pre c1 c2 post, chunks = pre ++ c1 :: c2 :: post ->
          exists x b, c2 = x :: b /\ ltb ceiling (snd (group_of c1) + snd x) = true)) /\
  product_groups [("L1", 3000); ("L2", 3000); ("L3", 100)]%string =
    [(["L1"], 3000); (["L2"; "L3"], 3100)]%string.
Proof.
  split; [|vm_compute; reflexivity].
  intros ls.
  destruct (product_groups_spec ls) as [chunks [H1 [H2 [H3 [H4 H5]]]]].
  exists chunks; split; [exact H2|]; split; [exact H3|]; split; [exact H1|].
  split.
  - intros c a x b Hc; rewrite Forall_forall in H4; exact (H4 c Hc a x b).
  - intros pre c1 c2 post Heq; exact (boundaries_split chunks pre c1 c2 post H5 Heq).
Qed.


(** Costs of three lines: 5000.0, 0.1 and 0.3. *)
Definition three_costs : list (string * float) :=
  [("A", 5000); ("B", 0x1.999999999999ap-4); ("C", 0x1.3333333333333p-2)]%string.

(** The exact sum of floats, when they are all finite. *)
Fixpoint exact_sum (l : list float) : option Q :=
  match l with
  | [] => Some 0%Q
  | x :: r =>
      match float_value x, exact_sum r with
      | Some a, Some b => Some (a + b)%Q
      | _, _ => None
      end
  end.

Definition q_eqb (a b : option Q) : bool :=
  match a, b with
  | Some a, Some b => Qeq_bool a b
  | None, None => true
  | _, _ => false
  end.

(** C10 (counterexample): for the costs 5000.0, 0.1 and 0.3 (distinct
    product numbers) the groups are [[A]] with subtotal 5000.0 and [[B, C]]
    with subtotal 0.4.  The float sum of the subtotals (5000.4) is not the
    float total cost of the order (5000.400000000001), and the subtotal 0.4
    is not the exact sum of 0.1 and 0.3. *)
Theorem batcher_subtotals_not_exact :
  NoDup (map fst three_costs) /\
  product_groups three_costs =
    [(["A"], 5000); (["B"; "C"], 0x1.999999999999ap-2)]%string /\
  ~ (forall ls, NoDup (map fst ls) ->
       fsum (map snd (product_groups ls)) = fsum (map snd ls)) /\
  ~ (forall ls, NoDup (map fst ls) ->
       forall chunks, product_groups ls = map group_of chunks -> concat chunks = ls ->
       Forall (fun c => q_eqb (float_value (snd (group_of c))) (exact_sum (map snd c)) = true)
              chunks).
Proof.
  assert (Hnd : NoDup (map fst three_costs)).
  { simpl; repeat constructor; simpl; intros Hin;
      repeat destruct Hin as [Hin | Hin]; try discriminate; exact Hin. }
  split; [exact Hnd|]; split; [vm_compute; reflexivity|]; split.
  - intros H; specialize (H three_costs Hnd); vm_compute in H; discriminate H.
  - intros H.
    specialize (H three_costs Hnd [[("A", 5000)]; [("B", 0x1.999999999999ap-4);
                                                   ("C", 0x1.3333333333333p-2)]]%string
                  ltac:(vm_compute; reflexivity) eq_refl).
    inversion H as [|? ? _ H2]; inversion H2 as [|? ? H3 _].
    vm_compute in H3; discriminate H3.
Qed.

(** C10 (amended): with distinct product numbers (the keys of the quantity
    map), the groups partition the submitted lines: they cut the line list
    in order into non-empty pieces, each group's subtotal is the float sum,
    from [0.0] in line order, of its lines' float costs, and every product
    number lies in exactly one group. *)
Theorem batcher_partition ls :
  NoDup (map fst ls) ->
  (exists chunks, concat chunks = ls /\ Forall (fun c => c <> []) chunks /\
                  product_groups ls = map group_of chunks) /\
  concat (map fst (product_groups ls)) = map fst ls /\
  (forall p, In p (map fst ls) ->
     length (filter (fun g => existsb (String.eqb p) (fst g))
                    (product_groups ls)) = 1%nat).
Proof.
  intros Hnd.
  destruct (product_groups_spec ls) as [chunks [Hg [Hcat [Hne _]]]].
  split; [exists chunks; split; [exact Hcat|]; split; [exact Hne | exact Hg]|].
  split; [apply groups_concat|].
  intros p Hp.
  rewrite (filter_fst_length (fun g => existsb (String.eqb p) g)).
  apply count_groups_one; rewrite groups_concat; assumption.
Qed.


Lemma batcher_partition_witness :
  NoDup (map fst [("L1", 3000); ("L2", 3000); ("L3", 100)]%string) /\
  concat (map fst (product_groups [("L1", 3000); ("L2", 3000); ("L3", 100)]%string)) =
    ["L1"; "L2"; "L3"]%string.
Proof.
  assert (H : NoDup (map fst [("L1", 3000); ("L2", 3000); ("L3", 100)]%string)).
  { simpl; repeat constructor; simpl; intros Hin;
      repeat destruct Hin as [Hin | Hin]; try discriminate; exact Hin. }
  split; [exact H|].
  exact (proj1 (proj2 (batcher_partition _ H))).
Defined.

End BatchProofs.

(* ------------------------------------------------------------------ *)
(** ** The order session and the Generate & Log Order handler *)

Module SessionProofs.
Import Catalog Session Samples.

Lemma catalog_lookup_in cat pid r :
  In r (catalog_lookup cat pid) <-> In r cat /\ product_number r = pid.
Proof.
  unfold catalog_lookup; rewrite filter_In, String.eqb_eq; reflexivity.
Qed.

(** C6: every selected line has a positive quantity and the product number
    and item of a catalog row; a positive entry of the quantity map whose
    product number is in the catalog gives a line, one whose product number
    is not in the catalog gives none.  With the catalog [Gloves #100, Masks
    #200], the map [100 -> 2, 999 -> 4, 200 -> 0] selects only Gloves. *)
Theorem selected_lines_positive_and_in_catalog cat m :
  (forall l, In l (selected_lines cat m) ->
     0 < ln_qty l /\
     exists r, In r cat /\ product_number r = ln_product_number l /\
               item r = ln_item l) /\
  (forall pid q, In (pid, q) m -> 0 < q ->
     (exists r, In r cat /\ product_number r = pid) ->
     exists l, In l (selected_lines cat m) /\ ln_product_number l = pid /\
               ln_qty l = q) /\
  selected_lines [gloves_row; masks_row] sample_qty_map =
    [mkLine "Gloves" "100" 2].
Proof.
  split; [|split; [|reflexivity]].
  - induction m as [|[pid q] rest IH]; simpl; [tauto|].
    intros l.
    destruct (0 <? q) eqn:Hq; [|apply IH].
    destruct (catalog_lookup cat pid) as [|r rs] eqn:Hl; [apply IH|].
    intros [<- | Hin]; [|apply IH; exact Hin].
    simpl; split; [apply Z.ltb_lt; exact Hq|].
    exists r.
    assert (Hr : In r (catalog_lookup cat pid)) by (rewrite Hl; left; reflexivity).
    apply catalog_lookup_in in Hr as [Hr Hpn].
    split; [exact Hr|]; split; [exact Hpn | reflexivity].
  - induction m as [|[pid0 q0] rest IH]; simpl; [tauto|].
    intros pid q Hin Hq Hcat.
    destruct Hin as [Heq | Hin].
    + inversion Heq; subst pid0 q0.
      assert (Hqb : (0 <? q) = true) by (apply Z.ltb_lt; exact Hq).
      rewrite Hqb.
      destruct Hcat as [r [Hr Hpn]].
      destruct (catalog_lookup cat pid) as [|r' rs] eqn:Hl.
      * assert (Hr' : In r (catalog_lookup cat pid))
          by (apply catalog_lookup_in; split; assumption).
        rewrite Hl in Hr'; destruct Hr'.
      * exists (mkLine (item r') pid q); simpl; auto.
    + destruct (IH pid q Hin Hq Hcat) as [l [Hl [Hp Hql]]].
      exists l; split; [|split; assumption].
      destruct (0 <? q0); [|exact Hl].
      destruct (catalog_lookup cat pid0); [exact Hl | right; exact Hl].
Qed.

End SessionProofs.

Module SubmitProofs.
Import Catalog OrderLog Session Smtp Submit Samples.

(** C5 (counterexample): with a non-empty catalog and nothing selected,
    the handler neither raises nor shows a new message: it ends with the
    world unchanged. *)
Lemma submit_empty_selection_no_error :
  ~ (forall cat secrets roster orderer_ now insert_ok transport_ok w,
       cat <> [] -> selected_lines cat (w_qty_map w) = [] ->
       ((exists w', generate_and_log cat secrets roster orderer_ now insert_ok
                      transport_ok w = Raised w') \/
        (exists w', generate_and_log cat secrets roster orderer_ now insert_ok
                      transport_ok w = Finished w' /\
                    exists m, In m (w_ui w') /\ ~ In m (w_ui w))) /\
       forall w', generate_and_log cat secrets roster orderer_ now insert_ok
                    transport_ok w = Finished w' -> w_log w' = w_log w).
Proof.
  intros H.
  assert (Hcat : [gloves_row] <> []) by discriminate.
  destruct (H [gloves_row] None [] "Ann"%string 0%Z true true empty_world Hcat eq_refl)
    as [[[w' Hw] | [w' [Hw [m [Hm _]]]]] _];
    vm_compute in Hw; [discriminate Hw|].
  injection Hw as <-; exact Hm.
Qed.

(** C5 (amended): when no line is selected, Generate & Log Order does
    nothing: it ends normally with no message, no log row, no mail, and
    the quantity map kept. *)
Theorem submit_empty_selection_is_noop cat secrets roster orderer_ now insert_ok
    transport_ok w :
  selected_lines cat (w_qty_map w) = [] ->
  generate_and_log cat secrets roster orderer_ now insert_ok transport_ok w = Finished w.
Proof.
  intros H; unfold generate_and_log; rewrite H; reflexivity.
Qed.

Lemma submit_empty_selection_is_noop_witness :
  selected_lines [gloves_row] [("100", 0)]%string = [] /\
  generate_and_log [gloves_row] (Some sample_secrets) ["a@x.com"]%string
    "Ann"%string 0%Z true true (mkWorld [] [("100", 0)]%string [] [])
  = Finished (mkWorld [] [("100", 0)]%string [] []).
Proof.
  assert (H : selected_lines [gloves_row] [("100", 0)]%string = []) by reflexivity.
  split; [exact H|].
  exact (submit_empty_selection_is_noop [gloves_row] (Some sample_secrets)
           ["a@x.com"]%string "Ann"%string 0%Z true true
           (mkWorld [] [("100", 0)]%string [] []) H).
Defined.

End SubmitProofs.

(* ------------------------------------------------------------------ *)
(** ** Recipients *)

Module MailProofs.
Import Text Smtp Mail Samples.

Definition str_lt (a b : string) : Prop := String.compare a b = Lt.

Lemma str_lt_trans a b c : str_lt a b -> str_lt b c -> str_lt a c.
Proof.
  unfold str_lt; intros H1 H2.
  apply OrderedTypeEx.String_as_OT.cmp_lt in H1, H2.
  apply OrderedTypeEx.String_as_OT.cmp_lt.
  exact (OrderedTypeEx.String_as_OT.lt_trans _ _ _ H1 H2).
Qed.

Lemma str_gt_lt a b : String.compare a b = Gt -> str_lt b a.
Proof.
  unfold str_lt; intros H; rewrite String.compare_antisym, H; reflexivity.
Qed.

Lemma in_insert_uniq x y l : In x (insert_uniq y l) <-> x = y \/ In x l.
Proof.
  induction l as [|a l IH]; simpl; [intuition congruence|].
  destruct (String.compare y a) eqn:Hc; simpl.
  - apply String.compare_eq_iff in Hc; subst; intuition congruence.
  - intuition congruence.
  - rewrite IH; intuition congruence.
Qed.

Lemma in_sorted_set x l : In x (sorted_set l) <-> In x l.
Proof.
  induction l as [|a l IH]; simpl; [tauto|].
  rewrite in_insert_uniq, IH; split; intros [H|H]; auto.
Qed.

Lemma insert_uniq_sorted y l :
  StronglySorted str_lt l -> StronglySorted str_lt (insert_uniq y l).
Proof.
  induction l as [|a l IH]; simpl; intros Hs.
  - repeat constructor.
  - apply StronglySorted_inv in Hs as [Hs Hall].
    destruct (String.compare y a) eqn:Hc.
    + constructor; assumption.
    + constructor; [constructor; assumption|].
      constructor; [exact Hc|].
      rewrite Forall_forall in *; intros b Hb.
      exact (str_lt_trans _ _ _ Hc (Hall b Hb)).
    + constructor; [exact (IH Hs)|].
      rewrite Forall_forall in *; intros b Hb.
      apply in_insert_uniq in Hb as [-> | Hb]; [apply str_gt_lt; exact Hc|].
      exact (Hall b Hb).
Qed.

Lemma sorted_set_sorted l : StronglySorted str_lt (sorted_set l).
Proof.
  induction l as [|a l IH]; simpl; [constructor|].
  apply insert_uniq_sorted; exact IH.
Qed.

Lemma truthy_str_true x : truthy_str x = true <-> x <> EmptyString.
Proof.
  unfold truthy_str; rewrite negb_true_iff, String.eqb_neq; reflexivity.
Qed.

(** C7: the recipients are the union of the explicit list given to
    [send_email], the roster's emails (through [all_recipients]) and the
    configured defaults, keeping the non-empty strings that contain [@],
    deduplicated on the exact string and sorted (a strictly increasing
    list); an empty result makes [send_email] fail with "No recipients
    found.".  Roster [a@x.com, a@x.com] and default [b@x.com] give
    [a@x.com, b@x.com]. *)
Theorem recipients_union_dedup_sorted cfg roster to_emails :
  (forall x, In x (all_recipients cfg roster) <->
     (In x roster \/ In x (cfg_default_to cfg)) /\ x <> EmptyString /\
     has_at x = true) /\
  (forall x, In x (send_recipients cfg to_emails) <->
     (In x to_emails \/ In x (cfg_default_to cfg)) /\ x <> EmptyString /\
     has_at x = true) /\
  (forall x, In x (send_recipients cfg (all_recipients cfg roster)) <->
     (In x roster \/ In x (cfg_default_to cfg)) /\ x <> EmptyString /\
     has_at x = true) /\
  StronglySorted str_lt (all_recipients cfg roster) /\
  StronglySorted str_lt (send_recipients cfg to_emails) /\
  (send_recipients cfg to_emails = [] ->
     forall transport_ok,
       send_email cfg to_emails transport_ok = SendErr "No recipients found."%string) /\
  (let cfg0 := get_smtp_config (Some sample_secrets) in
   send_recipients cfg0 (all_recipients cfg0 ["a@x.com"; "a@x.com"]%string) =
     ["a@x.com"; "b@x.com"]%string).
Proof.
  assert (Hall : forall x, In x (all_recipients cfg roster) <->
            (In x roster \/ In x (cfg_default_to cfg)) /\ x <> EmptyString /\
            has_at x = true).
  { intros x; unfold all_recipients.
    rewrite in_sorted_set, filter_In, in_app_iff, !filter_In, truthy_str_true.
    tauto. }
  assert (Hsend : forall to x, In x (send_recipients cfg to) <->
            (In x to \/ In x (cfg_default_to cfg)) /\ x <> EmptyString /\
            has_at x = true).
  { intros to x; unfold send_recipients.
    rewrite in_sorted_set, filter_In, in_app_iff, andb_true_iff, truthy_str_true.
    tauto. }
  split; [exact Hall|].
  split; [apply Hsend|].
  split; [intros x; rewrite Hsend, Hall; tauto|].
  split; [apply sorted_set_sorted|].
  split; [apply sorted_set_sorted|].
  split; [|vm_compute; reflexivity].
  intros Hnil t; unfold send_email; rewrite Hnil; reflexivity.
Qed.

End MailProofs.

(* ------------------------------------------------------------------ *)
(** ** When mail is configured *)

Module SmtpProofs.
Import Text Smtp Session Submit Samples.

(** C9 (counterexample): a table with host, user, password and from but no
    port is configured: the port defaults to 587. *)
Lemma smtp_ok_without_port :
  ~ (forall c : SmtpTable,
       smtp_ok (Some c) = false <->
       (get c "host" = None \/ get c "port" = None \/ get c "user" = None \/
        get c "password" = None \/ get c "from" = None)).
Proof.
  intros H.
  destruct (H sample_secrets) as [_ H2].
  assert (Hf : smtp_ok (Some sample_secrets) = false)
    by (apply H2; right; left; reflexivity).
  vm_compute in Hf; discriminate Hf.
Qed.

(** [get_smtp_config()] shows its error exactly when there is no [[smtp]]
    table, the port does not convert with [int], or the password is not a
    string. *)
Lemma config_error_shown_iff secrets :
  config_error_shown secrets = true <->
  secrets = None \/ exists c, secrets = Some c /\
    ((exists v, get c "port" = Some v /\ py_int v = None) \/
     (exists v, get c "password" = Some v /\ forall s, v <> TStr s)).
Proof.
  unfold config_error_shown, get_smtp_config.
  destruct secrets as [c|]; [|split; [left; reflexivity | reflexivity]].
  destruct (get c "port") as [pv|] eqn:Hp; [destruct (py_int pv) as [p|] eqn:Hpi|];
    destruct (get c "password") as [[pw|z|b|x t|b t]|] eqn:Hpw; cbn;
    split; intros H;
    first [ reflexivity | discriminate H
          | (right; exists c; split; [reflexivity|];
             first [ left; exists pv; split; [exact Hp | exact Hpi]
                   | right; eexists; split; [exact Hpw | intros s Hs; discriminate Hs] ])
          | (destruct H as [Hx | [c' [Hc [[v [Hv Hv']] | [v [Hv Hv']]]]]];
             [ discriminate Hx
             | injection Hc as <-; congruence
             | injection Hc as <-; rewrite Hpw in Hv;
               first [ discriminate Hv | injection Hv as <-; destruct (Hv' _ eq_refl) ] ]) ].
Qed.

(** C9 (amended): [smtp_ok] holds iff there is an [[smtp]] table whose
    host, user and from are present and truthy, whose port is absent
    (587) or converts with [int] to a non-zero number, and whose password
    is a string that is not empty once its spaces are removed.  The
    "Error reading SMTP config" message of [get_smtp_config] is shown
    exactly when there is no [[smtp]] table, the port does not convert
    with [int], or the password is not a string.  When [smtp_ok] does not
    hold, Generate & Log Order with a non-empty selection and a working
    insert still appends the lines to the log and clears the quantity
    map, sends no mail, and shows no message other than that config
    error. *)
Theorem smtp_ok_iff_configured secrets :
  (smtp_ok secrets = true <->
   exists c, secrets = Some c /\
     truthy_opt (get c "host") = true /\ truthy_opt (get c "user") = true /\
     truthy_opt (get c "from") = true /\
     (match get c "port" with
      | None => True
      | Some v => exists p, py_int v = Some p /\ p <> 0%Z
      end) /\
     (exists pw, get c "password" = Some (TStr pw) /\
                 remove_spaces pw <> EmptyString)) /\
  (config_error_shown secrets = true <->
   secrets = None \/ exists c, secrets = Some c /\
     ((exists v, get c "port" = Some v /\ py_int v = None) \/
      (exists v, get c "password" = Some v /\ forall s, v <> TStr s))) /\
  (forall cat roster orderer_ now transport_ok w,
     smtp_ok secrets = false -> selected_lines cat (w_qty_map w) <> [] ->
     generate_and_log cat secrets roster orderer_ now true transport_ok w =
       Finished (mkWorld (w_log w ++ append_rows (selected_lines cat (w_qty_map w))
                                      orderer_ now)
                         [] (w_ui w ++ config_msgs secrets) (w_outbox w))).
Proof.
  split; [|split; [apply config_error_shown_iff|]].
  - unfold smtp_ok, get_smtp_config.
    destruct secrets as [c|].
    2:{ split; [discriminate | intros [c [Hc _]]; discriminate]. }
    destruct (get c "port") as [pv|] eqn:Hp;
      [destruct (py_int pv) as [p|] eqn:Hpi|];
      destruct (get c "password") as [[pw|z|b|x t|b t]|] eqn:Hpw; simpl;
      split; try discriminate;
      try (intros [c' [Hc [_ [_ [_ [Hport [pw' [Hpw' _]]]]]]]];
           injection Hc as <-; rewrite ?Hp, ?Hpw in *;
           try discriminate Hpw';
           try (destruct Hport as [p' [Hp' _]]; congruence); fail).
    + rewrite !andb_true_iff, negb_true_iff, Z.eqb_neq, MailProofs.truthy_str_true.
      intros [[[[Hh Hport] Hu] Hpw'] Hf].
      exists c; split; [reflexivity|].
      rewrite Hp, Hpw.
      repeat split; try assumption.
      * exists p; split; assumption.
      * exists pw; split; [reflexivity | exact Hpw'].
    + intros [c' [Hc [Hh [Hu [Hf [Hport [pw' [Hpw' Hne]]]]]]]].
      injection Hc as <-.
      rewrite Hp in Hport; destruct Hport as [p' [Hp' Hnz]].
      rewrite Hpi in Hp'; injection Hp' as <-.
      rewrite Hpw in Hpw'; injection Hpw' as <-.
      rewrite Hh, Hu, Hf; simpl.
      rewrite (proj2 (Z.eqb_neq _ _) Hnz); simpl.
      apply MailProofs.truthy_str_true in Hne; rewrite Hne; reflexivity.
    + intros H; rewrite !andb_true_iff in H.
      destruct H as [[[[_ _] _] Hx] _]; discriminate Hx.
    + rewrite !andb_true_iff, MailProofs.truthy_str_true.
      intros [[[[Hh _] Hu] Hpw'] Hf].
      exists c; split; [reflexivity|].
      rewrite Hp, Hpw.
      repeat split; try assumption.
      exists pw; split; [reflexivity | exact Hpw'].
    + intros [c' [Hc [Hh [Hu [Hf [_ [pw' [Hpw' Hne]]]]]]]].
      injection Hc as <-.
      rewrite Hpw in Hpw'; injection Hpw' as <-.
      rewrite Hh, Hu, Hf; simpl.
      apply MailProofs.truthy_str_true in Hne; rewrite Hne; reflexivity.
    + intros H; rewrite !andb_true_iff in H.
      destruct H as [[[[_ _] _] Hx] _]; discriminate Hx.
  - intros cat roster orderer_ now transport_ok w Hok Hne.
    unfold generate_and_log.
    destruct (selected_lines cat (w_qty_map w)) as [|l ls]; [contradiction|].
    cbn [Batch.is_nil negb]; rewrite Hok; reflexivity.
Qed.

End SmtpProofs.

(* ------------------------------------------------------------------ *)
(** ** Text that [strip] and the number parser leave as it is *)

Module PlainText.
Import Text CsvCatalog.

(** A printable ASCII byte other than space. *)
Definition plain_byte (c : ascii) : bool :=
  (33 <=? nat_of_ascii c)%nat && (nat_of_ascii c <? 128)%nat.

Lemma plain_byte_range c : plain_byte c = true -> (33 <= nat_of_ascii c < 128)%nat.
Proof.
  unfold plain_byte; intros H; apply andb_true_iff in H as [H1 H2].
  apply Nat.leb_le in H1; apply Nat.ltb_lt in H2; lia.
Qed.

Lemma plain_not_space c : plain_byte c = true -> is_space c = false.
Proof.
  intros H; apply plain_byte_range in H; unfold is_space.
  apply orb_false_iff; split; apply andb_false_iff; right; apply Nat.leb_gt; lia.
Qed.

Lemma ws_len_plain a r : plain_byte a = true -> ws_len (a :: r) = 0%nat.
Proof.
  intros Ha; pose proof (plain_not_space a Ha) as Hs; apply plain_byte_range in Ha.
  assert (Hz : forall k, (128 <= k)%nat -> Nat.eqb (nat_of_ascii a) k = false)
    by (intros k Hk; apply Nat.eqb_neq; lia).
  unfold ws_len, is_space2, is_space3; rewrite Hs.
  destruct r as [|b [|c r]]; cbn zeta; [reflexivity | |];
    rewrite ?(Hz 194%nat), ?(Hz 225%nat), ?(Hz 226%nat), ?(Hz 227%nat) by lia; reflexivity.
Qed.

Lemma ws_len_rev_plain c r : plain_byte c = true -> ws_len_rev (c :: r) = 0%nat.
Proof.
  intros Hc; pose proof (plain_not_space c Hc) as Hs; apply plain_byte_range in Hc.
  assert (Hz : forall k, (128 <= k)%nat -> Nat.eqb (nat_of_ascii c) k = false)
    by (intros k Hk; apply Nat.eqb_neq; lia).
  assert (Hl : (128 <=? nat_of_ascii c)%nat = false) by (apply Nat.leb_gt; lia).
  unfold ws_len_rev, is_space2, is_space3; rewrite Hs.
  destruct r as [|b [|a r]]; cbn zeta; [reflexivity | |];
    rewrite ?(Hz 133%nat), ?(Hz 160%nat), ?(Hz 128%nat), ?(Hz 168%nat), ?(Hz 169%nat), ?(Hz 175%nat),
      ?(Hz 159%nat), ?Hl by lia;
    cbn [andb orb]; rewrite ?andb_false_r; reflexivity.
Qed.

(** Bytes that start and end with a printable character are not
    stripped; in particular bytes that are all printable. *)
Lemma stripL_plain l : forallb plain_byte l = true -> stripL l = l.
Proof.
  intros Hl; unfold stripL, lstripL, rstripR.
  destruct l as [|a r]; [reflexivity|].
  pose proof Hl as Ha; cbn [forallb] in Ha; apply andb_true_iff in Ha as [Ha _].
  cbn [length drop_ws]; rewrite (ws_len_plain a r Ha); cbv iota.
  destruct (rev (a :: r)) as [|c r'] eqn:Hrev;
    [simpl in Hrev; destruct (rev r); discriminate|].
  assert (Hc : plain_byte c = true).
  { rewrite forallb_forall in Hl; apply Hl, in_rev; rewrite Hrev; left; reflexivity. }
  cbn [length drop_ws]; rewrite (ws_len_rev_plain c r' Hc); cbv iota.
  rewrite <- Hrev, rev_involutive; reflexivity.
Qed.

Lemma strip_plain s : forallb plain_byte (list_ascii_of_string s) = true -> strip s = s.
Proof.
  intros H; unfold strip; rewrite (stripL_plain _ H).
  apply string_of_list_ascii_of_string.
Qed.

Lemma c_space_plain c : plain_byte c = true -> c_space c = false.
Proof.
  intros H; apply plain_byte_range in H; unfold c_space.
  apply orb_false_iff; split; [apply andb_false_iff; right; apply Nat.leb_gt | apply Nat.eqb_neq];
    lia.
Qed.

Lemma c_lstrip_plain l : forallb plain_byte l = true -> c_lstrip l = l.
Proof.
  destruct l as [|c r]; simpl; [reflexivity|].
  intros H; apply andb_true_iff in H as [H _]; rewrite (c_space_plain c H); reflexivity.
Qed.

Lemma c_strip_plain s : forallb plain_byte (list_ascii_of_string s) = true -> c_strip s = s.
Proof.
  intros Hs; unfold c_strip; rewrite (c_lstrip_plain _ Hs), c_lstrip_plain.
  - rewrite rev_involutive; apply string_of_list_ascii_of_string.
  - rewrite forallb_forall in *; intros c Hc; apply Hs, in_rev; exact Hc.
Qed.

Lemma uint_plain u :
  forallb plain_byte (list_ascii_of_string (NilEmpty.string_of_uint u)) = true.
Proof. induction u; simpl; auto. Qed.

Lemma py_str_int_plain z : forallb plain_byte (list_ascii_of_string (py_str_int z)) = true.
Proof.
  unfold py_str_int, NilEmpty.string_of_int.
  destruct (Z.to_int z); simpl; apply uint_plain.
Qed.

End PlainText.

(* ------------------------------------------------------------------ *)
(** ** Writing and re-reading the catalog *)

Module CsvProofs.
Import Text CsvCatalog Samples PlainText.

Lemma to_int_not_nil z :
  Z.to_int z <> Decimal.Pos Decimal.Nil /\ Z.to_int z <> Decimal.Neg Decimal.Nil.
Proof.
  pose proof (DecimalZ.to_of (Z.to_int z)) as E; rewrite DecimalZ.of_to in E.
  rewrite E; clear E.
  destruct (Z.to_int z) as [u|u]; unfold Decimal.norm, Decimal.unorm;
    destruct (Decimal.nzhead u); split; discriminate.
Qed.

Lemma digits_val_uint u :
  u <> Decimal.Nil -> digits_val (NilEmpty.string_of_uint u) = Some u.
Proof.
  intros Hu; rewrite <- (NilEmpty.usu u).
  destruct u; [contradiction | reflexivity ..].
Qed.

Lemma parse_py_str_int z : parse_int_text (py_str_int z) = Some z.
Proof.
  destruct (to_int_not_nil z) as [Hp Hn].
  transitivity (Some (Z.of_int (Z.to_int z))); [|rewrite DecimalZ.of_to; reflexivity].
  unfold py_str_int, NilEmpty.string_of_int.
  destruct (Z.to_int z) as [u|u].
  - assert (Hu : u <> Decimal.Nil) by congruence.
    pose proof (digits_val_uint u Hu) as Hd.
    destruct u; [contradiction| ..]; simpl in Hd |- *; rewrite Hd; reflexivity.
  - assert (Hu : u <> Decimal.Nil) by congruence.
    unfold parse_int_text; rewrite (digits_val_uint u Hu); reflexivity.
Qed.

Lemma int_text_py_str z : int64 z -> int_text (py_str_int z) = Some z.
Proof.
  intros _; unfold int_text.
  rewrite (c_strip_plain _ (py_str_int_plain z)), parse_py_str_int; reflexivity.
Qed.

Lemma na_values_not_int t : In t na_values -> parse_int_text (c_strip t) = None.
Proof.
  intros Ht; simpl in Ht.
  repeat (destruct Ht as [<- | Ht]; [vm_compute; reflexivity|]); destruct Ht.
Qed.

Lemma int_text_not_na s z : int_text s = Some z -> is_na s = false.
Proof.
  intros Hs; destruct (is_na s) eqn:E; [exfalso|reflexivity].
  unfold is_na in E; apply existsb_exists in E as [t [Ht Heq]].
  apply String.eqb_eq in Heq; subst t.
  unfold int_text in Hs; rewrite (na_values_not_int s Ht) in Hs; discriminate.
Qed.

Lemma forallb_false_at {A} (f : A -> bool) l x :
  In x l -> f x = false -> forallb f l = false.
Proof.
  intros Hx Hf; destruct (forallb f l) eqn:E; [|reflexivity].
  rewrite forallb_forall in E; rewrite (E x Hx) in Hf; discriminate.
Qed.

Lemma forallb_false_ex {A} (f : A -> bool) l :
  forallb f l = false -> exists x, In x l /\ f x = false.
Proof.
  induction l as [|a l IH]; simpl; [discriminate|].
  destruct (f a) eqn:Ha; simpl.
  - intros H; destruct (IH H) as [x [Hx Hf]]; exists x; split; [right|]; assumption.
  - intros _; exists a; split; [left; reflexivity | exact Ha].
Qed.

Lemma all_some_map zs : all_some (map Some zs) = Some zs.
Proof. induction zs as [|z zs IH]; simpl; [|rewrite IH]; reflexivity. Qed.

(** The reader's chunk size is at least one row. *)
Lemma grow_buffer_ge fuel h b : (1 <= b)%Z -> (b <= grow_buffer fuel h b)%Z.
Proof.
  revert b; induction fuel as [|f IH]; intros b Hb; simpl; [lia|].
  destruct (b * 2 <? h)%Z; [|lia].
  specialize (IH (b * 2)%Z ltac:(lia)); lia.
Qed.

Lemma buffer_lines_pos w : (1 <= buffer_lines w)%Z.
Proof. unfold buffer_lines; apply grow_buffer_ge; lia. Qed.

Lemma take_drop_rows {A} n (l : list A) : take_rows n l ++ drop_rows n l = l.
Proof.
  revert n; induction l as [|x r IH]; intros n; simpl; [reflexivity|].
  destruct (0 <? n)%Z; simpl; [rewrite IH|]; reflexivity.
Qed.

Lemma length_drop_rows_le {A} n (l : list A) : (length (drop_rows n l) <= length l)%nat.
Proof.
  revert n; induction l as [|x r IH]; intros n; simpl; [lia|].
  destruct (0 <? n)%Z; [specialize (IH (n - 1)%Z); lia | simpl; lia].
Qed.

Lemma length_drop_rows {A} n (x : A) r :
  (1 <= n)%Z -> (length (drop_rows n (x :: r)) <= length r)%nat.
Proof.
  intros Hn; cbn [drop_rows]; replace (0 <? n)%Z with true by (symmetry; apply Z.ltb_lt; lia).
  apply length_drop_rows_le.
Qed.

Lemma concat_chunks_fuel {A} n fuel (l : list A) :
  (1 <= n)%Z -> (length l <= fuel)%nat -> concat (chunks_fuel n fuel l) = l.
Proof.
  intros Hn; revert l; induction fuel as [|f IH]; intros l Hl.
  - destruct l; [reflexivity | simpl in Hl; lia].
  - destruct l as [|a r]; [reflexivity|].
    cbn [chunks_fuel concat]; rewrite IH; [apply take_drop_rows|].
    pose proof (length_drop_rows n a r Hn); cbn [length] in *; lia.
Qed.

Lemma chunks_concat {A} n (l : list A) : (1 <= n)%Z -> concat (chunks n l) = l.
Proof. intros Hn; apply concat_chunks_fuel; [exact Hn | lia]. Qed.

Lemma chunks_fuel_incl {A} n fuel (l : list A) ch :
  (1 <= n)%Z -> In ch (chunks_fuel n fuel l) -> ch <> [] /\ incl ch l.
Proof.
  intros Hn; revert l; induction fuel as [|f IH]; intros l Hin; [destruct Hin|].
  destruct l as [|a r]; [destruct Hin|].
  cbn [chunks_fuel] in Hin; destruct Hin as [<- | Hin].
  - split.
    + cbn [take_rows]; replace (0 <? n)%Z with true by (symmetry; apply Z.ltb_lt; lia).
      discriminate.
    + intros x Hx; rewrite <- (take_drop_rows n (a :: r)); apply in_or_app; left; exact Hx.
  - destruct (IH _ Hin) as [Hne Hincl]; split; [exact Hne|].
    intros x Hx; rewrite <- (take_drop_rows n (a :: r)); apply in_or_app; right.
    apply Hincl, Hx.
Qed.

Lemma chunks_incl {A} n (l : list A) ch :
  (1 <= n)%Z -> In ch (chunks n l) -> ch <> [] /\ incl ch l.
Proof. apply chunks_fuel_incl. Qed.

Section Columns.
Context {F : Type} `{PyFloat F}.
Implicit Types (df d : Frame F) (v : list (Val F)).

Lemma render_str ss : map render (map (@VStr F) ss) = ss.
Proof. induction ss as [|s ss IH]; simpl; [reflexivity | f_equal; exact IH]. Qed.

Lemma length_infer_chunk ch : length (snd (@infer_chunk F _ ch)) = length ch.
Proof.
  unfold infer_chunk; cbv zeta.
  repeat match goal with |- context [if ?b then _ else _] => destruct b end;
    cbn [snd]; rewrite ?length_map; reflexivity.
Qed.

Lemma length_as_float (L : list (list (Val F))) :
  length (concat (map (map as_float) L)) = length (concat L).
Proof.
  induction L as [|l L IH]; simpl; [reflexivity|].
  rewrite !length_app, length_map, IH; reflexivity.
Qed.

Lemma length_infer n cells :
  (1 <= n)%Z -> length (@infer_column F _ n cells) = length cells.
Proof.
  intros Hn; unfold infer_column, concat_chunks; cbv zeta.
  transitivity (length (concat (chunks n cells))); [|rewrite chunks_concat; auto].
  transitivity (length (concat (map snd (map (@infer_chunk F _) (chunks n cells))))).
  { destruct (_ && _); [|reflexivity].
    rewrite <- (length_as_float (map snd (map (@infer_chunk F _) (chunks n cells)))).
    rewrite !map_map; reflexivity. }
  rewrite map_map; induction (chunks n cells) as [|ch L IH]; simpl; [reflexivity|].
  rewrite !length_app, IH, length_infer_chunk; reflexivity.
Qed.

(** When the chunks all have one dtype, or one of them is text, the
    column is the chunks' values put one after the other. *)
Lemma concat_chunks_plain (parts : list (Kind * list (Val F))) K :
  (forall p, In p parts -> fst p = K) \/ (exists p, In p parts /\ fst p = KObj) ->
  concat_chunks parts = concat (map snd parts).
Proof.
  intros Hk; unfold concat_chunks; cbv zeta.
  replace (forallb is_numeric_kind (map fst parts) &&
           negb (forallb (kind_eqb (hd KObj (map fst parts))) (map fst parts)))
    with false; [reflexivity | symmetry].
  destruct Hk as [Hk | [p [Hp Hk]]].
  - destruct parts as [|p0 ps]; [reflexivity|].
    replace (forallb (kind_eqb (hd KObj (map fst (p0 :: ps)))) (map fst (p0 :: ps)))
      with true; [cbn [negb]; apply andb_false_r|].
    symmetry; apply forallb_forall; intros k Hk'.
    apply in_map_iff in Hk' as [p [<- Hp]]; cbn [map hd].
    rewrite (Hk p0 (or_introl eq_refl)), (Hk p Hp); destruct K; reflexivity.
  - rewrite (forallb_false_at is_numeric_kind (map fst parts) (fst p));
      [reflexivity | apply in_map, Hp | rewrite Hk; reflexivity].
Qed.

Lemma infer_column_kinds n cells K :
  (forall ch, In ch (chunks n cells) -> fst (@infer_chunk F _ ch) = K) \/
  (exists ch, In ch (chunks n cells) /\ fst (@infer_chunk F _ ch) = KObj) ->
  infer_column n cells = concat (map (fun ch => snd (infer_chunk ch)) (chunks n cells)).
Proof.
  intros Hk; unfold infer_column; rewrite (concat_chunks_plain _ K), map_map; [reflexivity|].
  destruct Hk as [Hk | [ch [Hch Hk]]]; [left | right].
  - intros p Hp; apply in_map_iff in Hp as [ch [<- Hch]]; apply Hk, Hch.
  - exists (infer_chunk ch); split; [apply in_map, Hch | exact Hk].
Qed.

Lemma infer_column_map n cells (g : string -> Val F) K :
  (1 <= n)%Z ->
  (forall ch, In ch (chunks n cells) -> infer_chunk ch = (K, map g ch)) ->
  infer_column n cells = map g cells.
Proof.
  intros Hn Hch.
  rewrite (infer_column_kinds n cells K).
  - transitivity (concat (map (map g) (chunks n cells))).
    + f_equal; apply map_ext_in; intros ch Hc; rewrite (Hch ch Hc); reflexivity.
    + rewrite <- concat_map, chunks_concat by exact Hn; reflexivity.
  - left; intros ch Hc; rewrite (Hch ch Hc); reflexivity.
Qed.

(** A chunk of int64 decimal texts is read as int64. *)
Lemma infer_chunk_ints ch :
  (forall s, In s ch -> exists z, s = py_str_int z /\ int64 z) ->
  infer_chunk ch =
  (KInt, map (fun s => @VInt F (match int_text s with Some z => z | None => 0%Z end)) ch).
Proof.
  intros Hch.
  assert (Hint : forall s, In s ch -> exists z, int_text s = Some z /\ int64 z).
  { intros s Hs; destruct (Hch s Hs) as [z [-> Hz]]; exists z.
    split; [apply int_text_py_str, Hz | exact Hz]. }
  unfold infer_chunk.
  replace (existsb is_na ch) with false.
  2:{ symmetry; apply not_true_iff_false; intros E.
      apply existsb_exists in E as [s [Hs Hna]].
      destruct (Hint s Hs) as [z [Hz _]]; rewrite (int_text_not_na s z Hz) in Hna.
      discriminate. }
  replace (forallb (fun c => is_some (int_text c)) ch) with true.
  2:{ symmetry; apply forallb_forall; intros s Hs.
      destruct (Hint s Hs) as [z [Hz _]]; rewrite Hz; reflexivity. }
  cbn [negb andb]; cbv zeta.
  replace (forallb in_int64 (map (fun c => match int_text c with Some z => z | None => 0%Z end) ch))
    with true.
  2:{ symmetry; apply forallb_forall; intros z' Hz'.
      apply in_map_iff in Hz' as [s [<- Hs]].
      destruct (Hint s Hs) as [z [Hz [H1 H2]]]; rewrite Hz.
      unfold in_int64; apply andb_true_iff; split; apply Z.leb_le; assumption. }
  rewrite map_map; reflexivity.
Qed.

(** A non-empty chunk of price texts is read as float64. *)
Lemma infer_chunk_floats ch :
  ch <> [] -> (forall s, In s ch -> exists x : F, s = float_repr x /\ float_ok x) ->
  infer_chunk ch =
  (KFloat, map (fun c => if is_na c then VNaN else
                         match float_text c with Some x => VFloat x | None => VNaN end) ch).
Proof.
  intros Hne Hch.
  destruct ch as [|s0 ch']; [contradiction|].
  destruct (Hch s0 (or_introl eq_refl)) as [x0 [Hs0 [_ [Hi0 _]]]].
  unfold infer_chunk.
  rewrite (forallb_false_at (fun c => is_some (int_text c)) _ s0)
    by (try (left; reflexivity); rewrite Hs0, Hi0; reflexivity).
  rewrite andb_false_r.
  replace (forallb (fun c => is_na c || is_some (float_text c)) (s0 :: ch')) with true;
    [reflexivity|].
  symmetry; apply forallb_forall; intros s Hs.
  destruct (Hch s Hs) as [x [-> [Ht _]]]; rewrite Ht, orb_true_r; reflexivity.
Qed.

(** A chunk of a text column as [text_column_ok] allows it is read as
    int64 or as text, and [astype(str).str.strip()] gives its texts
    back. *)
Lemma infer_chunk_text ch :
  @text_column_ok F _ ch ->
  (fst (@infer_chunk F _ ch) = KInt \/ fst (@infer_chunk F _ ch) = KObj) /\
  text_col (snd (@infer_chunk F _ ch)) = map VStr ch.
Proof.
  intros Hch; unfold text_column_ok in Hch; rewrite Forall_forall in Hch.
  destruct (forallb (fun c => is_some (int_text c)) ch) eqn:Hall.
  - assert (Hi : forall s, In s ch -> exists z, s = py_str_int z /\ int64 z).
    { intros s Hs; destruct (Hch s Hs) as [_ [_ [Hz | [Hn _]]]]; [exact Hz|].
      rewrite forallb_forall in Hall; specialize (Hall s Hs); rewrite Hn in Hall.
      discriminate. }
    rewrite (infer_chunk_ints ch Hi); split; [left; reflexivity|].
    unfold text_col; cbn [snd]; rewrite map_map; apply map_ext_in; intros s Hs.
    destruct (Hi s Hs) as [z [-> Hz]]; rewrite (int_text_py_str z Hz); cbn [astype_str].
    rewrite (strip_plain _ (py_str_int_plain z)); reflexivity.
  - destruct (forallb_false_ex _ _ Hall) as [s0 [Hs0 Hn0]].
    destruct (Hch s0 Hs0) as [_ [Hna0 [[z [Hz0 Hz]] | [Hi [Hf Hb]]]]].
    { rewrite Hz0, (int_text_py_str z Hz) in Hn0; discriminate. }
    unfold infer_chunk; rewrite Hall, andb_false_r.
    rewrite (forallb_false_at (fun c => is_na c || is_some (float_text c)) ch s0 Hs0)
      by (rewrite Hna0, Hf; reflexivity).
    rewrite (forallb_false_at (fun c => is_na c || is_some (bool_text c)) ch s0 Hs0)
      by (rewrite Hna0, Hb; reflexivity).
    split; [right; reflexivity|].
    unfold text_col; cbn [snd]; rewrite map_map; apply map_ext_in; intros s Hs.
    destruct (Hch s Hs) as [Hst [Hna _]]; rewrite Hna; cbn [astype_str].
    rewrite Hst; reflexivity.
Qed.

Lemma infer_ints n zs :
  (1 <= n)%Z -> Forall int64 zs ->
  infer_column n (map render (map (@VInt F) zs)) = map VInt zs.
Proof.
  intros Hn Hzs; rewrite Forall_forall in Hzs.
  replace (map render (map (@VInt F) zs)) with (map py_str_int zs)
    by (rewrite map_map; reflexivity).
  rewrite (infer_column_map n _
             (fun s => VInt (match int_text s with Some z => z | None => 0%Z end)) KInt Hn).
  - rewrite map_map; apply map_ext_in; intros z Hz.
    rewrite (int_text_py_str z (Hzs z Hz)); reflexivity.
  - intros ch Hch; apply infer_chunk_ints; intros s Hs.
    destruct (chunks_incl n _ ch Hn Hch) as [_ Hincl].
    apply Hincl in Hs; apply in_map_iff in Hs as [z [<- Hz]].
    exists z; split; [reflexivity | apply Hzs, Hz].
Qed.

Lemma fill_int_ints (d : Z) zs : fill_int d (map (@VInt F) zs) = map Some zs.
Proof.
  unfold fill_int; rewrite map_map; simpl.
  replace (forallb is_int_num (map (fun x => @NInt F x) zs)) with true.
  2:{ symmetry; apply forallb_forall; intros n Hn.
      apply in_map_iff in Hn as [z [<- _]]; reflexivity. }
  rewrite map_map; reflexivity.
Qed.

Lemma fill_sort_ints zs : fill_sort (map (@VInt F) zs) = map Some zs.
Proof.
  unfold fill_sort; rewrite map_map; simpl.
  replace (forallb is_int_num (map (fun x => @NInt F x) zs)) with true.
  2:{ symmetry; apply forallb_forall; intros n Hn.
      apply in_map_iff in Hn as [z [<- _]]; reflexivity. }
  rewrite map_map; reflexivity.
Qed.

Lemma text_roundtrip n ss :
  (1 <= n)%Z -> @text_column_ok F _ ss ->
  text_col (infer_column n (map render (map (@VStr F) ss))) = map VStr ss.
Proof.
  intros Hn Hss; rewrite render_str.
  assert (Hch : forall ch, In ch (chunks n ss) -> @text_column_ok F _ ch).
  { intros ch Hc; destruct (chunks_incl n ss ch Hn Hc) as [_ Hincl].
    unfold text_column_ok in *; rewrite Forall_forall in *.
    intros s Hs; apply Hss, Hincl, Hs. }
  rewrite (infer_column_kinds n ss KInt).
  - transitivity (concat (map (map (@VStr F)) (chunks n ss))).
    + unfold text_col; rewrite concat_map, map_map; f_equal; apply map_ext_in.
      intros ch Hc; exact (proj2 (infer_chunk_text ch (Hch ch Hc))).
    + rewrite <- concat_map, chunks_concat by exact Hn; reflexivity.
  - destruct (existsb (fun ch => kind_eqb KObj (fst (@infer_chunk F _ ch))) (chunks n ss))
      eqn:E.
    + right; apply existsb_exists in E as [ch [Hc Hk]]; exists ch; split; [exact Hc|].
      destruct (fst (infer_chunk ch)); try discriminate Hk; reflexivity.
    + left; intros ch Hc.
      destruct (proj1 (infer_chunk_text ch (Hch ch Hc))) as [Hk | Hk]; [exact Hk|].
      assert (E' : existsb (fun ch => kind_eqb KObj (fst (@infer_chunk F _ ch)))
                           (chunks n ss) = true)
        by (apply existsb_exists; exists ch; split; [exact Hc | rewrite Hk; reflexivity]).
      congruence.
Qed.

Lemma price_roundtrip n xs :
  (1 <= n)%Z -> Forall float_ok xs ->
  fill_float (infer_column n (map render (map (@VFloat F) xs))) = xs.
Proof.
  intros Hn Hxs; rewrite Forall_forall in Hxs.
  replace (map render (map (@VFloat F) xs)) with (map float_repr xs)
    by (rewrite map_map; reflexivity).
  rewrite (infer_column_map n _
             (fun c => if is_na c then VNaN else
                       match float_text c with Some x => VFloat x | None => VNaN end)
             KFloat Hn).
  - unfold fill_float; rewrite !map_map.
    rewrite <- (map_id xs) at 2.
    apply map_ext_in; intros x Hx.
    destruct (Hxs x Hx) as [Ht [_ Hna]]; rewrite Hna, Ht; reflexivity.
  - intros ch Hch; destruct (chunks_incl n _ ch Hn Hch) as [Hne Hincl].
    apply infer_chunk_floats; [exact Hne|]; intros s Hs.
    apply Hincl in Hs; apply in_map_iff in Hs as [x [<- Hx]].
    exists x; split; [reflexivity | apply Hxs, Hx].
Qed.

Lemma read_write df :
  read_csv (write_catalog df) =
  map (fun p => (fst p, infer_column (buffer_lines (Z.of_nat (length df)))
                                     (map render (snd p)))) df.
Proof. unfold read_csv, write_catalog; rewrite length_map, map_map; reflexivity. Qed.

Lemma lookup_read_n c n df :
  lookup c (map (fun p => (fst p, infer_column n (map render (snd p)))) df) =
  option_map (fun v => infer_column n (map render v)) (lookup c df).
Proof.
  unfold lookup; induction df as [|p df IH]; simpl; [reflexivity|].
  destruct (String.eqb (fst p) c); [reflexivity | exact IH].
Qed.

Lemma col_read_n c n df v :
  lookup c df = Some v ->
  col c (map (fun p => (fst p, infer_column n (map render (snd p)))) df) =
  infer_column n (map render v).
Proof. intros Hv; unfold col; rewrite lookup_read_n, Hv; reflexivity. Qed.

Lemma has_col_read_n c n df :
  has_col c (map (fun p => (fst p, infer_column n (map render (snd p)))) df) = has_col c df.
Proof.
  unfold has_col; induction df as [|p df IH]; simpl; [reflexivity|]; rewrite IH; reflexivity.
Qed.

Lemma nrows_read_n n df :
  (1 <= n)%Z ->
  nrows (map (fun p => (fst p, infer_column n (map render (snd p)))) df) = nrows df.
Proof.
  intros Hn; destruct df as [|p df]; simpl; [reflexivity|].
  rewrite length_infer, length_map; [reflexivity | exact Hn].
Qed.

Lemma lookup_in c df v : lookup c df = Some v -> In (c, v) df.
Proof.
  unfold lookup; induction df as [|[c' v'] df IH]; simpl; [discriminate|].
  destruct (String.eqb c' c) eqn:E.
  - apply String.eqb_eq in E; subst; intros Hv; injection Hv as <-; left; reflexivity.
  - intros Hv; right; exact (IH Hv).
Qed.

Lemma lookup_has_col c df v : lookup c df = Some v -> has_col c df = true.
Proof.
  unfold lookup, has_col; intros Hv.
  destruct (find (fun p => String.eqb (fst p) c) df) as [p|] eqn:Hf; [|discriminate].
  apply find_some in Hf as [Hp Hc].
  apply existsb_exists; exists p; split; assumption.
Qed.

Lemma lookup_none_has_col c df : has_col c df = false -> lookup c df = None.
Proof.
  unfold lookup, has_col; intros Hh.
  destruct (find (fun p => String.eqb (fst p) c) df) as [p|] eqn:Hf; [|reflexivity].
  apply find_some in Hf as [Hp Hc].
  assert (E : existsb (fun p => String.eqb (fst p) c) df = true)
    by (apply existsb_exists; exists p; split; assumption).
  congruence.
Qed.

Lemma lookup_replace c' c v df :
  lookup c' (map (fun p => if String.eqb (fst p) c then (c, v) else p) df) =
  if String.eqb c c' then (if has_col c df then Some v else None)
  else lookup c' df.
Proof.
  unfold lookup, has_col.
  induction df as [|p df IH]; simpl.
  - destruct (String.eqb c c'); reflexivity.
  - destruct (String.eqb (fst p) c) eqn:Ep; simpl.
    + apply String.eqb_eq in Ep.
      destruct (String.eqb c c') eqn:Ec; simpl; [reflexivity|].
      rewrite IH, Ep, Ec; reflexivity.
    + destruct (String.eqb (fst p) c') eqn:Ep'.
      * apply String.eqb_eq in Ep'; subst c'.
        rewrite String.eqb_sym, Ep; reflexivity.
      * rewrite IH; reflexivity.
Qed.

Lemma lookup_app c df df' :
  lookup c (df ++ df')%list =
  match lookup c df with Some v => Some v | None => lookup c df' end.
Proof.
  unfold lookup; induction df as [|p df IH]; simpl; [reflexivity|].
  destruct (String.eqb (fst p) c); [reflexivity | exact IH].
Qed.

Lemma lookup_set_col c' c v df :
  lookup c' (set_col c v df) = if String.eqb c c' then Some v else lookup c' df.
Proof.
  unfold set_col; destruct (has_col c df) eqn:Hh.
  - rewrite lookup_replace, Hh; reflexivity.
  - rewrite lookup_app.
    destruct (String.eqb c c') eqn:Ec.
    + apply String.eqb_eq in Ec; subst c'.
      rewrite (lookup_none_has_col c df Hh); unfold lookup; cbn [find fst].
      rewrite String.eqb_refl; reflexivity.
    + destruct (lookup c' df); [reflexivity|]; unfold lookup; cbn [find fst].
      rewrite Ec; reflexivity.
Qed.

Lemma fill_columns_noop (l : list string) (n : nat) (d : Frame F) :
  (forall c, In c l -> has_col c d = true) ->
  fold_left (fun d c => if has_col c d then d
                        else (d ++ [(c, repeat VPdNA n)])%list) l d = d.
Proof.
  induction l as [|c l IH]; simpl; intros Hl; [reflexivity|].
  rewrite (Hl c (or_introl eq_refl)); apply IH; intros c' Hc'; apply Hl; right; exact Hc'.
Qed.

End Columns.

Lemma gloves_frame_catalog pn : catalog_frame (gloves_frame pn).
Proof.
  split; [simpl; repeat constructor; simpl; intuition discriminate|].
  split.
  { intros c v Hin; simpl in Hin.
    repeat (destruct Hin as [Hin | Hin]; [injection Hin as <- <-; reflexivity|]).
    destruct Hin. }
  split; [exists ["Gloves"%string]; reflexivity|].
  split; [exists [pn]; reflexivity|].
  split.
  { intros c Hc; simpl in Hc.
    destruct Hc as [<- | [<- | [<- | [<- | []]]]];
      [exists [1%Z] | exists [10%Z] | exists [3%Z] | exists [0%Z]];
      (split; [reflexivity|]; repeat constructor;
       unfold int64, int64_min, int64_max; lia). }
  exists [5%Z]; split; [reflexivity|].
  constructor; [|constructor].
  unfold float_ok; vm_compute; repeat split; reflexivity.
Qed.

(** C8 (counterexample): the product number ["007"] is written as [007],
    read back as the integer 7 and turned into the text ["7"]. *)
Lemma catalog_roundtrip_product_number_007 :
  ~ (forall df : Frame Z, catalog_frame df ->
       exists df', catalog_roundtrip df = Some df' /\
         forall c, In c ["item"; "product_number"; "multiplier"; "items_per_order";
                         "current_qty"; "price"]%string ->
                   lookup c df' = lookup c df).
Proof.
  intros H.
  destruct (H (gloves_frame "007"%string) (gloves_frame_catalog _)) as [df' [Hrt Hl]].
  vm_compute in Hrt; injection Hrt as <-.
  specialize (Hl "product_number"%string ltac:(simpl; auto)).
  vm_compute in Hl; discriminate Hl.
Qed.

(** C8 (amended): writing a catalog frame and reading it back gives every
    catalog column back unchanged (so the same [(item, product_number)]
    pairs and equal numbers) when each [item] and [product_number] value
    is stripped, is no missing-value marker, and is either the decimal
    form of an int64 integer or text that reads as neither a number nor a
    boolean; the integer columns are int64 and every price is read back as
    itself.  This holds whatever chunks of rows [read_csv]'s low-memory
    reader infers the dtypes on.  The columns present in the file
    [read_catalog] first read do not matter: it adds the missing ones. *)
Theorem catalog_roundtrip_sufficient {F : Type} `{PyFloat F} (df : Frame F) ss ps :
  catalog_frame df ->
  lookup "item" df = Some (map VStr ss) -> text_column_ok ss ->
  lookup "product_number" df = Some (map VStr ps) -> text_column_ok ps ->
  exists df', catalog_roundtrip df = Some df' /\
    forall c, In c catalog_columns -> lookup c df' = lookup c df.
Proof.
  intros [_ [Hlen [_ [_ [Hints [xs [Hprice Hfl]]]]]]] Hitem Hss Hpn Hps.
  destruct (Hints "multiplier"%string ltac:(simpl; auto)) as [ms [Hm Hms]].
  destruct (Hints "items_per_order"%string ltac:(simpl; auto)) as [ips [Hi Hips]].
  destruct (Hints "current_qty"%string ltac:(simpl; auto)) as [cqs [Hc Hcqs]].
  destruct (Hints "sort_order"%string ltac:(simpl; auto)) as [sos [Hs Hsos]].
  assert (Hall : forall c, In c catalog_columns -> exists v, lookup c df = Some v).
  { intros c Hin; simpl in Hin.
    repeat (destruct Hin as [<- | Hin]; [eexists; eassumption|]); destruct Hin. }
  unfold catalog_roundtrip; rewrite read_write.
  pose proof (buffer_lines_pos (Z.of_nat (length df))) as Hn1; revert Hn1.
  generalize (buffer_lines (Z.of_nat (length df))); intros n Hn1.
  unfold read_catalog; rewrite (nrows_read_n n df Hn1).
  destruct (Nat.eqb (nrows df) 0) eqn:Hn.
  - apply Nat.eqb_eq in Hn.
    exists empty_catalog; split; [reflexivity|].
    intros c Hin.
    destruct (Hall c Hin) as [v Hv].
    assert (Hv0 : v = []).
    { apply lookup_in, Hlen in Hv; rewrite Hn in Hv; destruct v; [reflexivity|discriminate]. }
    rewrite Hv, Hv0.
    simpl in Hin; repeat (destruct Hin as [<- | Hin]; [reflexivity|]); destruct Hin.
  - cbv zeta.
    rewrite fill_columns_noop.
    2:{ intros c Hin; rewrite has_col_read_n.
        destruct (Hall c Hin) as [v Hv]; exact (lookup_has_col c df v Hv). }
    rewrite (col_read_n _ n _ _ Hm), (col_read_n _ n _ _ Hi),
      (col_read_n _ n _ _ Hc), (col_read_n _ n _ _ Hs),
      (col_read_n _ n _ _ Hprice), (col_read_n _ n _ _ Hitem),
      (col_read_n _ n _ _ Hpn).
    rewrite (infer_ints _ ms Hn1 Hms), (infer_ints _ ips Hn1 Hips),
      (infer_ints _ cqs Hn1 Hcqs), (infer_ints _ sos Hn1 Hsos), !fill_int_ints,
      fill_sort_ints, !all_some_map, (price_roundtrip _ xs Hn1 Hfl),
      (text_roundtrip _ ss Hn1 Hss), (text_roundtrip _ ps Hn1 Hps).
    eexists; split; [reflexivity|].
    intros c Hin; rewrite !lookup_set_col.
    simpl in Hin; repeat (destruct Hin as [<- | Hin]; [simpl; congruence|]); destruct Hin.
Qed.

Lemma catalog_roundtrip_sufficient_witness :
  catalog_frame (gloves_frame "100"%string) /\
  lookup "item" (gloves_frame "100"%string) = Some (map VStr ["Gloves"%string]) /\
  text_column_ok ["Gloves"%string] /\
  lookup "product_number" (gloves_frame "100"%string) = Some (map VStr ["100"%string]) /\
  text_column_ok ["100"%string] /\
  exists df', catalog_roundtrip (gloves_frame "100"%string) = Some df' /\
    forall c, In c catalog_columns -> lookup c df' = lookup c (gloves_frame "100"%string).
Proof.
  assert (H1 := gloves_frame_catalog "100"%string).
  assert (H2 : lookup "item" (gloves_frame "100"%string) = Some (map VStr ["Gloves"%string]))
    by reflexivity.
  assert (H3 : text_column_ok ["Gloves"%string]).
  { constructor; [|constructor].
    split; [vm_compute; reflexivity|]; split; [reflexivity|].
    right; vm_compute; repeat split; reflexivity. }
  assert (H4 : lookup "product_number" (gloves_frame "100"%string) =
               Some (map VStr ["100"%string])) by reflexivity.
  assert (H5 : text_column_ok ["100"%string]).
  { constructor; [|constructor].
    split; [vm_compute; reflexivity|]; split; [reflexivity|].
    left; exists 100%Z; split; [vm_compute; reflexivity|].
    unfold int64, int64_min, int64_max; lia. }
  split; [exact H1|]; split; [exact H2|]; split; [exact H3|].
  split; [exact H4|]; split; [exact H5|].
  exact (catalog_roundtrip_sufficient _ _ _ H1 H2 H3 H4 H5).
Defined.

End CsvProofs.

(* ------------------------------------------------------------------ *)
(** ** [strip], [_split_emails] and [read_people] *)

Module TextProofs.
Import Text Smtp People.

(** [drop_ws] drops a prefix of its input. *)
Lemma drop_ws_suffix len fuel l : exists u, l = u ++ drop_ws len fuel l.
Proof.
  revert l; induction fuel as [|f IH]; intros l; [exists []; reflexivity|].
  cbn [drop_ws]; destruct (len l) as [|k]; [exists []; reflexivity|].
  destruct (IH (skipn (S k) l)) as [u Hu].
  exists (firstn (S k) l ++ u); rewrite <- app_assoc, <- Hu; symmetry; apply firstn_skipn.
Qed.

Lemma drop_ws_fix len fuel l : len l = 0%nat -> drop_ws len fuel l = l.
Proof. intros H; destruct fuel; cbn [drop_ws]; [reflexivity | rewrite H; reflexivity]. Qed.

(** With as much fuel as bytes, [drop_ws] stops at a list that starts
    with no whitespace. *)
Lemma drop_ws_done len fuel l :
  (forall l', (len l' <= length l')%nat) -> (length l <= fuel)%nat ->
  len (drop_ws len fuel l) = 0%nat.
Proof.
  intros Hb; revert l; induction fuel as [|f IH]; intros l Hl.
  - destruct l as [|a l]; [|cbn [length] in Hl; lia].
    cbn [drop_ws]; pose proof (Hb []) as H0; cbn [length] in H0; lia.
  - cbn [drop_ws]; destruct (len l) as [|k] eqn:E; [exact E|].
    apply IH; rewrite length_skipn; pose proof (Hb l) as Hbl; rewrite E in Hbl; lia.
Qed.

Ltac bool_cases :=
  repeat match goal with |- context [if ?x then _ else _] => destruct x end.

Lemma ws_len_le l : (ws_len l <= length l)%nat.
Proof. destruct l as [|a [|b [|c l]]]; unfold ws_len; cbn [length]; bool_cases; lia. Qed.

Lemma ws_len_rev_le l : (ws_len_rev l <= length l)%nat.
Proof. destruct l as [|a [|b [|c l]]]; unfold ws_len_rev; cbn [length]; bool_cases; lia. Qed.

(** A whitespace character at the start of [p] is one of [p ++ q] too. *)
Lemma ws_len_app p q : ws_len p <> 0%nat -> ws_len (p ++ q) = ws_len p.
Proof.
  destruct p as [|a [|b [|c p]]]; cbn [app]; unfold ws_len;
    [intros H; contradiction H; reflexivity | | | reflexivity].
  - destruct (is_space a); [reflexivity | intros H; contradiction H; reflexivity].
  - destruct (is_space a); [reflexivity|].
    destruct (is_space2 a b); [reflexivity | intros H; contradiction H; reflexivity].
Qed.

Lemma ws_len_prefix p q : ws_len (p ++ q) = 0%nat -> ws_len p = 0%nat.
Proof.
  intros H; destruct (Nat.eq_dec (ws_len p) 0) as [E|E]; [exact E|].
  rewrite (ws_len_app p q E) in H; contradiction.
Qed.

Lemma stripL_contig l : exists u v, l = u ++ stripL l ++ v.
Proof.
  destruct (drop_ws_suffix ws_len (length l) l) as [u Hu].
  change (drop_ws ws_len (length l) l) with (lstripL l) in Hu.
  destruct (drop_ws_suffix ws_len_rev (length (rev (lstripL l))) (rev (lstripL l))) as [w Hw].
  change (drop_ws ws_len_rev (length (rev (lstripL l))) (rev (lstripL l)))
    with (rstripR (rev (lstripL l))) in Hw.
  exists u, (rev w); unfold stripL.
  rewrite <- rev_app_distr, <- Hw, rev_involutive; exact Hu.
Qed.

(** The result of [strip] starts and ends with no whitespace character. *)
Lemma stripL_props l :
  ws_len (stripL l) = 0%nat /\ ws_len_rev (rev (stripL l)) = 0%nat.
Proof.
  unfold stripL.
  destruct (drop_ws_suffix ws_len_rev (length (rev (lstripL l))) (rev (lstripL l))) as [w Hw].
  change (drop_ws ws_len_rev (length (rev (lstripL l))) (rev (lstripL l)))
    with (rstripR (rev (lstripL l))) in Hw.
  split.
  - apply (ws_len_prefix _ (rev w)).
    rewrite <- rev_app_distr, <- Hw, rev_involutive.
    exact (drop_ws_done ws_len (length l) l ws_len_le (le_n _)).
  - rewrite rev_involutive.
    exact (drop_ws_done ws_len_rev (length (rev (lstripL l))) (rev (lstripL l))
             ws_len_rev_le (le_n _)).
Qed.

Lemma stripL_fix m : ws_len m = 0%nat -> ws_len_rev (rev m) = 0%nat -> stripL m = m.
Proof.
  intros H1 H2; unfold stripL, lstripL, rstripR.
  rewrite (drop_ws_fix ws_len _ m H1), (drop_ws_fix ws_len_rev _ (rev m) H2), rev_involutive.
  reflexivity.
Qed.

Lemma stripL_idem l : stripL (stripL l) = stripL l.
Proof. destruct (stripL_props l) as [H1 H2]; exact (stripL_fix _ H1 H2). Qed.

Lemma strip_idem s : strip (strip s) = strip s.
Proof. unfold strip; rewrite list_ascii_of_string_of_list_ascii, stripL_idem; reflexivity. Qed.

Lemma strip_contig s :
  exists u v, list_ascii_of_string s = u ++ list_ascii_of_string (strip s) ++ v.
Proof. unfold strip; rewrite list_ascii_of_string_of_list_ascii; apply stripL_contig. Qed.

Lemma in_strip a s : In a (list_ascii_of_string (strip s)) -> In a (list_ascii_of_string s).
Proof.
  destruct (strip_contig s) as [u [v E]]; intros H; rewrite E.
  apply in_or_app; right; apply in_or_app; left; exact H.
Qed.

Lemma strip_space_cons s : strip (String " "%char s) = strip s.
Proof. reflexivity. Qed.

Lemma list_ascii_app a b :
  list_ascii_of_string (a ++ b)%string = list_ascii_of_string a ++ list_ascii_of_string b.
Proof. induction a as [|c a IH]; simpl; [reflexivity | rewrite IH; reflexivity]. Qed.

Lemma string_of_list_app a b :
  string_of_list_ascii (a ++ b) = (string_of_list_ascii a ++ string_of_list_ascii b)%string.
Proof. induction a as [|c a IH]; simpl; [reflexivity | rewrite IH; reflexivity]. Qed.

Lemma append_empty_r s : (s ++ "")%string = s.
Proof. induction s as [|c s IH]; simpl; [reflexivity | rewrite IH; reflexivity]. Qed.

Lemma filter_all {A} (f : A -> bool) l : (forall x, In x l -> f x = true) -> filter f l = l.
Proof.
  induction l as [|x l IH]; simpl; intros H; [reflexivity|].
  rewrite (H x (or_introl eq_refl)), IH; [reflexivity|]; intros y Hy; apply H; right; exact Hy.
Qed.

Lemma truthy_nonempty s : truthy_str s = true <-> s <> EmptyString.
Proof. unfold truthy_str; rewrite negb_true_iff, String.eqb_neq; reflexivity. Qed.

(** The separators of [_split_emails]. *)
Definition is_sep (c : ascii) : bool := Ascii.eqb c ";"%char || Ascii.eqb c ","%char.

Lemma is_sep_false c : is_sep c = false -> c <> ";"%char /\ c <> ","%char.
Proof.
  unfold is_sep; intros H; apply orb_false_iff in H as [H1 H2].
  split; intros ->; discriminate.
Qed.

Lemma split_seps_no_sep s : forall cur x,
  (forall c, In c cur -> is_sep c = false) ->
  In x (split_seps_acc cur s) ->
  forall c, In c (list_ascii_of_string x) -> is_sep c = false.
Proof.
  induction s as [|c r IH]; simpl; intros cur x Hcur.
  - intros Hx; destruct Hx as [<- | []]; rewrite list_ascii_of_string_of_list_ascii.
    intros a Ha; apply Hcur, in_rev, Ha.
  - destruct (Ascii.eqb c ";"%char || Ascii.eqb c ","%char) eqn:E; intros Hx.
    + destruct Hx as [<- | Hx].
      * rewrite list_ascii_of_string_of_list_ascii; intros a Ha; apply Hcur, in_rev, Ha.
      * apply (IH [] x); [intros a [] | exact Hx].
    + apply (IH (c :: cur) x); [|exact Hx].
      intros a [<- | Ha]; [exact E | apply Hcur, Ha].
Qed.

(** An address as [_split_emails] returns them: non-empty, stripped, with
    no separator. *)
Definition clean_address (e : string) : Prop :=
  e <> EmptyString /\ strip e = e /\
  ~ In ";"%char (list_ascii_of_string e) /\ ~ In ","%char (list_ascii_of_string e).

Lemma split_emails_pieces txt e : In e (split_emails txt) -> clean_address e.
Proof.
  unfold split_emails; destruct (String.eqb txt EmptyString); [intros []|].
  rewrite filter_In, in_map_iff; intros [[p [<- Hp]] Ht].
  split; [apply truthy_nonempty, Ht|].
  split; [apply strip_idem|].
  assert (Hns : forall c, In c (list_ascii_of_string (strip p)) -> is_sep c = false).
  { intros c Hc; apply in_strip in Hc.
    exact (split_seps_no_sep txt [] p (fun c' (H : In c' []) => match H with end) Hp c Hc). }
  split; intros Hin; apply Hns, is_sep_false in Hin; destruct Hin; auto.
Qed.

Lemma split_seps_app x s cur :
  (forall c, In c (list_ascii_of_string x) -> is_sep c = false) ->
  split_seps_acc cur (x ++ s)%string = split_seps_acc (rev (list_ascii_of_string x) ++ cur) s.
Proof.
  revert cur; induction x as [|c x IH]; intros cur Hx; simpl; [reflexivity|].
  assert (Hc : is_sep c = false) by (apply Hx; left; reflexivity).
  unfold is_sep in Hc; rewrite Hc.
  rewrite IH by (intros a Ha; apply Hx; right; exact Ha).
  rewrite <- app_assoc; reflexivity.
Qed.

Lemma clean_no_sep e : clean_address e ->
  forall c, In c (list_ascii_of_string e) -> is_sep c = false.
Proof.
  intros [_ [_ [H1 H2]]] c Hc; unfold is_sep.
  destruct (Ascii.eqb_spec c ";"%char); [subst; contradiction|].
  destruct (Ascii.eqb_spec c ","%char); [subst; contradiction|]; reflexivity.
Qed.

Lemma split_seps_join l : l <> [] -> Forall clean_address l -> forall cur,
  split_seps_acc cur (String.concat ", "%string l) =
  string_of_list_ascii (rev cur ++ list_ascii_of_string (hd EmptyString l)) ::
  map (String " "%char) (tl l).
Proof.
  induction l as [|e l IH]; intros Hne Hl cur; [contradiction|].
  inversion Hl as [|? ? He Hl']; subst.
  destruct l as [|e2 l].
  - simpl String.concat; rewrite <- (append_empty_r e) at 1.
    rewrite (split_seps_app e EmptyString cur (clean_no_sep e He)); simpl.
    rewrite rev_app_distr, rev_involutive; reflexivity.
  - change (String.concat ", "%string (e :: e2 :: l)) with
      (e ++ String ","%char (String " "%char (String.concat ", "%string (e2 :: l))))%string.
    rewrite (split_seps_app e _ cur (clean_no_sep e He)).
    remember (String.concat ", "%string (e2 :: l)) as rest eqn:Hrest; simpl.
    rewrite (IH ltac:(discriminate) Hl' [" "%char]); simpl.
    rewrite rev_app_distr, rev_involutive, ?string_of_list_ascii_of_string; reflexivity.
Qed.

(** X1: every address [_split_emails] returns is non-empty, has no
    surrounding whitespace (Unicode whitespace, as [str.strip] removes it)
    and contains no [;] and no [,]. *)
Theorem split_emails_clean txt e :
  In e (split_emails txt) ->
  e <> EmptyString /\ strip e = e /\
  ~ In ";"%char (list_ascii_of_string e) /\ ~ In ","%char (list_ascii_of_string e).
Proof. apply split_emails_pieces. Qed.

Lemma split_emails_clean_witness :
  In "b@y.org"%string (split_emails "a@x.com;  b@y.org ,"%string) /\
  "b@y.org"%string <> EmptyString /\ strip "b@y.org"%string = "b@y.org"%string /\
  ~ In ";"%char (list_ascii_of_string "b@y.org"%string) /\
  ~ In ","%char (list_ascii_of_string "b@y.org"%string).
Proof.
  assert (H : In "b@y.org"%string (split_emails "a@x.com;  b@y.org ,"%string)).
  { vm_compute; right; left; reflexivity. }
  split; [exact H | exact (split_emails_clean _ _ H)].
Defined.

(** X2: joining addresses that are non-empty, stripped and free of [;]
    and [,] with [", "] and splitting the text with [_split_emails] gives
    the same addresses back, in order. *)
Theorem split_emails_join l :
  Forall clean_address l -> split_emails (String.concat ", "%string l) = l.
Proof.
  intros Hl; destruct l as [|e l']; [reflexivity|].
  inversion Hl as [|? ? He Hl']; subst.
  unfold split_emails.
  replace (String.eqb (String.concat ", "%string (e :: l')) EmptyString) with false.
  2:{ symmetry; apply String.eqb_neq.
      destruct He as [Hne _]; destruct e as [|c e]; [contradiction|].
      destruct l'; simpl; discriminate. }
  rewrite (split_seps_join (e :: l') ltac:(discriminate) Hl []); simpl.
  rewrite string_of_list_ascii_of_string, map_map.
  destruct He as [Hne [Hs _]]; rewrite Hs.
  rewrite (map_ext_in (fun x => strip (String " "%char x)) (fun x => x)), map_id.
  - rewrite (proj2 (truthy_nonempty e) Hne), filter_all; [reflexivity|].
    intros x Hx; rewrite Forall_forall in Hl'; apply truthy_nonempty, (Hl' x Hx).
  - intros x Hx; rewrite strip_space_cons.
    rewrite Forall_forall in Hl'; apply (Hl' x Hx).
Qed.

Lemma split_emails_join_witness :
  Forall clean_address ["a@x.com"; "b@y.org"]%string /\
  split_emails (String.concat ", "%string ["a@x.com"; "b@y.org"]%string) =
    ["a@x.com"; "b@y.org"]%string.
Proof.
  assert (H : Forall clean_address ["a@x.com"; "b@y.org"]%string).
  { repeat constructor; try discriminate; try reflexivity; simpl; intuition discriminate. }
  split; [exact H | exact (split_emails_join _ H)].
Defined.

(** No line boundary starts anywhere in the bytes [l]. *)
Definition no_break (l : list ascii) : Prop :=
  forall p q, l = p ++ q -> breaks_at q = false.

Fixpoint no_break_b (l : list ascii) : bool :=
  match l with
  | [] => true
  | c :: r => negb (breaks_at (c :: r)) && no_break_b r
  end.

Lemma no_break_suffixes l : no_break_b l = true -> no_break l.
Proof.
  induction l as [|c r IH]; intros H p q E.
  - destruct p as [|a p]; [destruct q as [|b q]; [reflexivity | discriminate E] | discriminate E].
  - cbn [no_break_b] in H; apply andb_true_iff in H as [H1 H2].
    destruct p as [|a p]; cbn [app] in E.
    + subst q; apply negb_true_iff, H1.
    + injection E as <- E; exact (IH H2 p q E).
Qed.

(** [breaks_at] looks at the first three bytes only: a boundary at the
    start of [q] stays one whatever follows. *)
Lemma breaks_at_app q s : breaks_at q = true -> breaks_at (q ++ s) = true.
Proof.
  destruct q as [|a [|b [|c q]]]; cbn [app]; unfold breaks_at;
    [intros H; discriminate H | | | intros H; exact H].
  - destruct (Ascii.eqb a "013"%char || is_line_break a); [reflexivity | intros H; discriminate H].
  - destruct (Ascii.eqb a "013"%char || is_line_break a); [reflexivity|].
    destruct (is_line_break2 a b); [reflexivity | intros H; discriminate H].
Qed.

Lemma breaks_at_app_false q s : breaks_at (q ++ s) = false -> breaks_at q = false.
Proof.
  intros H; destruct (breaks_at q) eqn:E; [|reflexivity].
  rewrite (breaks_at_app q s E) in H; discriminate H.
Qed.

Lemma lb2_nl a : is_line_break2 a "010"%char = false.
Proof. unfold is_line_break2; simpl; apply andb_false_r. Qed.

Lemma lb3_nl2 a c : is_line_break3 a "010"%char c = false.
Proof. unfold is_line_break3; simpl; rewrite andb_false_r; reflexivity. Qed.

Lemma lb3_nl3 a b : is_line_break3 a b "010"%char = false.
Proof. unfold is_line_break3; simpl; apply andb_false_r. Qed.

(** A \n cannot complete a multi-byte boundary. *)
Lemma breaks_at_nl q r :
  q <> [] -> breaks_at q = false -> breaks_at (q ++ "010"%char :: r) = false.
Proof.
  intros Hq; destruct q as [|a [|b [|c q]]]; [contradiction| | | intros H; exact H].
  - cbn [app]; unfold breaks_at.
    destruct (Ascii.eqb a "013"%char || is_line_break a); [intros H; discriminate H|].
    intros _; rewrite lb2_nl; destruct r; [reflexivity | rewrite lb3_nl2; reflexivity].
  - cbn [app]; unfold breaks_at.
    destruct (Ascii.eqb a "013"%char || is_line_break a); [intros H; discriminate H|].
    destruct (is_line_break2 a b); [intros H; discriminate H|].
    intros _; rewrite lb3_nl3; reflexivity.
Qed.

(** One step of [splitlines_acc]: a byte that starts no boundary joins
    the current line; a boundary ends it and the scan goes on after it. *)
Lemma splitlines_step_nobreak cur c r :
  breaks_at (c :: r) = false -> splitlines_acc cur (c :: r) = splitlines_acc (c :: cur) r.
Proof.
  unfold breaks_at; cbn [splitlines_acc].
  destruct (Ascii.eqb c "013"%char); [intros H; discriminate H|].
  destruct (is_line_break c); [intros H; discriminate H|].
  destruct r as [|c2 r2]; [intros _; reflexivity|].
  destruct (is_line_break2 c c2); [intros H; discriminate H|].
  destruct r2 as [|c3 r3]; [intros _; reflexivity|].
  destruct (is_line_break3 c c2 c3); [intros H; discriminate H | intros _; reflexivity].
Qed.

Lemma splitlines_step_break cur c r :
  breaks_at (c :: r) = true ->
  exists s', (length s' <= length r)%nat /\
    splitlines_acc cur (c :: r) = string_of_list_ascii (rev cur) :: splitlines_acc [] s'.
Proof.
  unfold breaks_at; cbn [splitlines_acc].
  destruct (Ascii.eqb c "013"%char).
  - intros _; destruct r as [|c2 r']; [exists []; split; [lia | reflexivity]|].
    destruct (Ascii.eqb c2 "010"%char).
    + exists r'; cbn [length]; split; [lia | reflexivity].
    + exists (c2 :: r'); split; [lia | reflexivity].
  - destruct (is_line_break c); [intros _; exists r; split; [lia | reflexivity]|].
    destruct r as [|c2 r2]; [intros H; discriminate H|].
    destruct (is_line_break2 c c2); [intros _; exists r2; cbn [length]; split; [lia | reflexivity]|].
    destruct r2 as [|c3 r3]; [intros H; discriminate H|].
    destruct (is_line_break3 c c2 c3); [|intros H; discriminate H].
    intros _; exists r3; cbn [length]; split; [lia | reflexivity].
Qed.

Lemma snoc_split (l p q : list ascii) c :
  l ++ [c] = p ++ q -> q <> [] -> exists q', q = q' ++ [c] /\ l = p ++ q'.
Proof.
  revert l p; induction q as [|d q _] using rev_ind; intros l p E Hq; [contradiction|].
  rewrite app_assoc in E; apply app_inj_tail in E as [E1 E2]; subst d.
  exists q; split; [reflexivity | exact E1].
Qed.

(** The bytes of the current line start no boundary, given what follows. *)
Definition line_ok (cur s : list ascii) : Prop :=
  forall p q, rev cur = p ++ q -> q <> [] -> breaks_at (q ++ s) = false.

Lemma line_ok_nil s : line_ok [] s.
Proof.
  intros p q Hpq Hq; cbn [rev] in Hpq.
  destruct p as [|a p]; [|discriminate Hpq].
  destruct q as [|b q]; [contradiction | discriminate Hpq].
Qed.

Lemma pieces_nil cur x :
  line_ok cur [] -> In x (splitlines_acc cur []) -> no_break (list_ascii_of_string x).
Proof.
  intros Hinv Hx; cbn [splitlines_acc] in Hx.
  destruct cur as [|a cur']; [destruct Hx|].
  destruct Hx as [<- | []].
  rewrite list_ascii_of_string_of_list_ascii; intros p q Hpq.
  destruct q as [|b q]; [reflexivity|].
  rewrite <- (app_nil_r (b :: q)); apply (Hinv p); [exact Hpq | discriminate].
Qed.

Lemma splitlines_pieces n : forall s cur x,
  (length s <= n)%nat -> line_ok cur s -> In x (splitlines_acc cur s) ->
  no_break (list_ascii_of_string x).
Proof.
  induction n as [|n IH]; intros s cur x Hlen Hinv Hx;
    (destruct s as [|c r]; [exact (pieces_nil cur x Hinv Hx)|]);
    [cbn [length] in Hlen; lia|].
  destruct (breaks_at (c :: r)) eqn:Eb.
  - destruct (splitlines_step_break cur c r Eb) as [s' [Hs' E]]; rewrite E in Hx.
    destruct Hx as [<- | Hx].
    + rewrite list_ascii_of_string_of_list_ascii; intros p q Hpq.
      destruct q as [|a q']; [reflexivity|].
      apply (breaks_at_app_false _ (c :: r)), (Hinv p); [exact Hpq | discriminate].
    + apply (IH s' [] x); [cbn [length] in Hlen; lia | apply line_ok_nil | exact Hx].
  - rewrite (splitlines_step_nobreak cur c r Eb) in Hx.
    apply (IH r (c :: cur) x); [cbn [length] in Hlen; lia | | exact Hx].
    intros p q Hpq Hq; cbn [rev] in Hpq.
    destruct (snoc_split _ p q c Hpq Hq) as [q' [-> Hq']].
    rewrite <- app_assoc; cbn [app].
    destruct q' as [|a q'']; cbn [app]; [exact Eb|].
    apply (Hinv p (a :: q'')); [exact Hq' | discriminate].
Qed.

Lemma splitlines_app xs s cur :
  (forall p q, xs = p ++ q -> q <> [] -> breaks_at (q ++ s) = false) ->
  splitlines_acc cur (xs ++ s) = splitlines_acc (rev xs ++ cur) s.
Proof.
  revert cur; induction xs as [|c xs IH]; intros cur Hx; [reflexivity|].
  cbn [app]; rewrite splitlines_step_nobreak.
  - rewrite IH; [cbn [rev]; rewrite <- app_assoc; reflexivity|].
    intros p q Hpq Hq; apply (Hx (c :: p)); [rewrite Hpq; reflexivity | exact Hq].
  - apply (Hx [] (c :: xs)); [reflexivity | discriminate].
Qed.

(** A name as [read_people] returns them. *)
Definition clean_name (n : string) : Prop :=
  n <> EmptyString /\ strip n = n /\ no_break (list_ascii_of_string n).

Definition newline : string := String "010"%char EmptyString.

Lemma splitlines_join l : l <> [] -> Forall clean_name l -> forall cur,
  splitlines_acc cur (list_ascii_of_string (String.concat newline l)) =
  string_of_list_ascii (rev cur ++ list_ascii_of_string (hd EmptyString l)) :: tl l.
Proof.
  induction l as [|e l IH]; intros Hne Hl cur; [contradiction|].
  inversion Hl as [|? ? He Hl']; subst.
  destruct He as [Hene [_ Heb]].
  destruct l as [|e2 l].
  - simpl String.concat.
    assert (Hs : splitlines_acc cur (list_ascii_of_string e ++ []) =
                 splitlines_acc (rev (list_ascii_of_string e) ++ cur) []).
    { apply splitlines_app; intros p q Hpq Hq; rewrite app_nil_r; exact (Heb p q Hpq). }
    rewrite List.app_nil_r in Hs; rewrite Hs; simpl.
    destruct (rev (list_ascii_of_string e) ++ cur) as [|a l0] eqn:E.
    + exfalso; apply app_eq_nil in E as [E _].
      apply (f_equal (@length ascii)) in E; rewrite length_rev in E.
      destruct e; [contradiction | discriminate E].
    + rewrite <- E, rev_app_distr, rev_involutive; reflexivity.
  - change (String.concat newline (e :: e2 :: l)) with
      (e ++ String "010"%char (String.concat newline (e2 :: l)))%string.
    remember (String.concat newline (e2 :: l)) as rest eqn:Hrest.
    rewrite list_ascii_app, (splitlines_app _ _ cur); simpl.
    + rewrite (IH ltac:(discriminate) Hl' []); simpl.
      rewrite rev_app_distr, rev_involutive, string_of_list_ascii_of_string; reflexivity.
    + intros p q Hpq Hq; apply breaks_at_nl; [exact Hq | exact (Heb p q Hpq)].
Qed.

(** X3: every name [read_people] returns is non-empty, has no surrounding
    whitespace (Unicode whitespace, as [str.strip] removes it) and contains
    no line boundary of [str.splitlines] (\n, \r, \v, \f, \x1c-\x1e,
    U+0085, U+2028, U+2029): no position of its bytes starts one. *)
Theorem read_people_clean f x :
  In x (read_people f) ->
  x <> EmptyString /\ strip x = x /\ no_break (list_ascii_of_string x).
Proof.
  destruct f as [| |s]; simpl; try tauto.
  rewrite filter_In, in_map_iff; intros [[ln [<- Hln]] Ht].
  split; [apply truthy_nonempty, Ht|].
  split; [apply strip_idem|].
  intros p q Hpq.
  destruct (strip_contig ln) as [u [v Huv]].
  unfold splitlines in Hln.
  pose proof (splitlines_pieces _ (list_ascii_of_string s) [] ln (le_n _) (line_ok_nil _) Hln)
    as Hnb.
  apply (breaks_at_app_false q v), (Hnb (u ++ p)).
  rewrite Huv, Hpq, <- !app_assoc; reflexivity.
Qed.

Lemma read_people_clean_witness :
  In "Bob Lee"%string (read_people (FileText (String.concat newline [" Ann"; ""; "Bob Lee  "]%string))) /\
  "Bob Lee"%string <> EmptyString /\ strip "Bob Lee"%string = "Bob Lee"%string /\
  no_break (list_ascii_of_string "Bob Lee"%string).
Proof.
  assert (H : In "Bob Lee"%string
                (read_people (FileText (String.concat newline [" Ann"; ""; "Bob Lee  "]%string)))).
  { vm_compute; right; left; reflexivity. }
  split; [exact H | exact (read_people_clean _ _ H)].
Defined.

(** X4: a people file holding names that are non-empty, stripped and
    free of line boundaries, one per line, is read back as exactly those
    names, in order. *)
Theorem read_people_join names :
  Forall clean_name names -> read_people (FileText (String.concat newline names)) = names.
Proof.
  intros Hn; destruct names as [|n ns]; [reflexivity|].
  assert (Hm : map strip (n :: ns) = n :: ns).
  { rewrite Forall_forall in Hn.
    rewrite (map_ext_in strip (fun x => x)), map_id; [reflexivity|].
    intros x Hx; apply (Hn x Hx). }
  assert (Hf : filter truthy_str (n :: ns) = n :: ns).
  { rewrite Forall_forall in Hn.
    apply filter_all; intros x Hx; apply truthy_nonempty, (Hn x Hx). }
  unfold read_people, splitlines.
  rewrite (splitlines_join (n :: ns) ltac:(discriminate) Hn []); cbn [rev app hd tl].
  rewrite string_of_list_ascii_of_string, Hm, Hf; reflexivity.
Qed.

Lemma read_people_join_witness :
  Forall clean_name ["Ann"; "Bob Lee"]%string /\
  read_people (FileText (String.concat newline ["Ann"; "Bob Lee"]%string)) =
    ["Ann"; "Bob Lee"]%string.
Proof.
  assert (Hc : forall n, n <> EmptyString -> strip n = n ->
                 no_break_b (list_ascii_of_string n) = true -> clean_name n).
  { intros n H1 H2 H3; split; [exact H1 | split; [exact H2 | apply no_break_suffixes, H3]]. }
  assert (H : Forall clean_name ["Ann"; "Bob Lee"]%string).
  { constructor; [|constructor; [|constructor]];
      apply Hc; first [discriminate | vm_compute; reflexivity]. }
  split; [exact H | exact (read_people_join _ H)].
Defined.

End TextProofs.

(* ------------------------------------------------------------------ *)
(** ** The order editor loop and the orderer select box *)

Module EditorProofs.
Import Text Session Editor.

Lemma get_set_qty m pid q p :
  get_qty (set_qty pid q m) p = if String.eqb pid p then Some q else get_qty m p.
Proof.
  induction m as [|[p0 v] r IH]; simpl.
  - destruct (String.eqb pid p); reflexivity.
  - destruct (String.eqb_spec p0 pid) as [->|Hne]; simpl.
    + destruct (String.eqb pid p); reflexivity.
    + rewrite IH.
      destruct (String.eqb_spec p0 p) as [->|Hp]; [|reflexivity].
      destruct (String.eqb_spec pid p) as [->|]; [congruence | reflexivity].
Qed.

Lemma apply_edits_app m b pre post :
  apply_edits m b (pre ++ post) =
  match apply_edits m b pre with
  | EditDone m' b' => apply_edits m' b' post
  | EditRaised m' => EditRaised m'
  end.
Proof.
  revert m b; induction pre as [|[pid [q|]] rest IH]; intros m b; simpl;
    [reflexivity | | reflexivity].
  destruct (get_qty m pid) as [v|]; [destruct (Z.eqb v q)|]; apply IH.
Qed.

(** Once a row asked for a rerun, the loop cannot end without one. *)
Lemma apply_edits_rerun_sticky m rows m' b :
  apply_edits m true rows = EditDone m' b -> b = true.
Proof.
  revert m; induction rows as [|[pid [q|]] rest IH]; intros m; simpl.
  - congruence.
  - destruct (get_qty m pid) as [v|]; [destruct (Z.eqb v q)|]; apply IH.
  - discriminate.
Qed.

Definition row_unchanged (m : QtyMap) (r : string * option Z) : Prop :=
  exists z, snd r = Some z /\ get_qty m (fst r) = Some z.

Lemma apply_edits_false_iff m rows m' :
  apply_edits m false rows = EditDone m' false <->
  m' = m /\ Forall (row_unchanged m) rows.
Proof.
  induction rows as [|[pid q] rest IH]; simpl.
  - split; [intros H; injection H as ->; split; [reflexivity | constructor]|].
    intros [-> _]; reflexivity.
  - destruct q as [q|].
    + destruct (get_qty m pid) as [v|] eqn:Hg; [destruct (Z.eqb_spec v q) as [->|Hvq]|].
      * rewrite IH; split.
        -- intros [-> Hf]; split; [reflexivity|].
           constructor; [exists q; split; [reflexivity | exact Hg] | exact Hf].
        -- intros [-> Hf]; inversion Hf; split; [reflexivity | assumption].
      * split.
        -- intros H; apply apply_edits_rerun_sticky in H; discriminate.
        -- intros [_ Hf]; inversion Hf as [|? ? [z [Hz Hgz]] _]; simpl in *.
           injection Hz as <-; congruence.
      * split.
        -- intros H; apply apply_edits_rerun_sticky in H; discriminate.
        -- intros [_ Hf]; inversion Hf as [|? ? [z [Hz Hgz]] _]; simpl in *; congruence.
    + split; [discriminate|].
      intros [_ Hf]; inversion Hf as [|? ? [z [Hz _]] _]; discriminate.
Qed.

(** One pass over rows that all carry a quantity ends normally; every
    product it does not name keeps its quantity, and with distinct products
    every named product ends with its row's quantity. *)
Lemma apply_edits_sets m b rows :
  Forall (fun r => snd r <> None) rows ->
  exists m1 b1, apply_edits m b rows = EditDone m1 b1 /\
    (forall p, ~ In p (map fst rows) -> get_qty m1 p = get_qty m p) /\
    (NoDup (map fst rows) -> forall p z, In (p, Some z) rows -> get_qty m1 p = Some z).
Proof.
  revert m b; induction rows as [|[pid q] rest IH]; intros m b Hs.
  - exists m, b; simpl; split; [reflexivity|]; split; [reflexivity | intros _ p z []].
  - inversion Hs as [|? ? Hq Hs']; subst; simpl in Hq.
    destruct q as [q|]; [|contradiction].
    assert (Hstep : exists mn bn, apply_edits m b ((pid, Some q) :: rest) = apply_edits mn bn rest /\
              get_qty mn pid = Some q /\ forall p, p <> pid -> get_qty mn p = get_qty m p).
    { simpl; destruct (get_qty m pid) as [v|] eqn:Hg; [destruct (Z.eqb_spec v q) as [->|Hvq]|].
      - exists m, b; split; [reflexivity|]; split; [exact Hg | reflexivity].
      - exists (set_qty pid q m), true; split; [reflexivity|].
        rewrite get_set_qty, String.eqb_refl; split; [reflexivity|].
        intros p Hp; rewrite get_set_qty; destruct (String.eqb_spec pid p); [congruence | reflexivity].
      - exists (set_qty pid q m), true; split; [reflexivity|].
        rewrite get_set_qty, String.eqb_refl; split; [reflexivity|].
        intros p Hp; rewrite get_set_qty; destruct (String.eqb_spec pid p); [congruence | reflexivity]. }
    destruct Hstep as [mn [bn [He [Hpid Hoth]]]].
    destruct (IH mn bn Hs') as [m1 [b1 [Hr [Hout Hin]]]].
    exists m1, b1; rewrite He; split; [exact Hr|]; split.
    + intros p Hp; simpl in Hp.
      rewrite Hout by tauto; apply Hoth; intros ->; tauto.
    + intros Hnd p z Hpz; simpl in Hnd; inversion Hnd as [|? ? Hnin Hnd']; subst.
      destruct Hpz as [Hpz | Hpz].
      * injection Hpz as <- <-; rewrite Hout by exact Hnin; exact Hpid.
      * exact (Hin Hnd' p z Hpz).
Qed.

(** X7: the loop over the edited rows ends without asking for a rerun
    exactly when every row has a quantity equal to the one already in the
    map; the map is then left unchanged. *)
Theorem apply_edits_no_rerun m rows m' :
  apply_edits m false rows = EditDone m' false <->
  m' = m /\ Forall (fun r => exists z, snd r = Some z /\ get_qty m (fst r) = Some z) rows.
Proof.
  exact (apply_edits_false_iff m rows m').
Qed.

(** X8: when the edited rows name distinct products and all carry a
    quantity, the first pass ends normally, the map then holds each row's
    quantity, and the pass after the rerun asks for no further rerun. *)
Theorem apply_edits_converges m rows :
  NoDup (map fst rows) -> Forall (fun r => snd r <> None) rows ->
  exists m1 b, apply_edits m false rows = EditDone m1 b /\
    Forall (fun r => get_qty m1 (fst r) = snd r) rows /\
    apply_edits m1 false rows = EditDone m1 false.
Proof.
  intros Hnd Hs.
  destruct (apply_edits_sets m false rows Hs) as [m1 [b1 [Hr [_ Hin]]]].
  assert (Hf : Forall (fun r => get_qty m1 (fst r) = snd r) rows).
  { apply Forall_forall; intros [p q] Hpq.
    rewrite Forall_forall in Hs; specialize (Hs _ Hpq); simpl in Hs |- *.
    destruct q as [z|]; [exact (Hin Hnd p z Hpq) | contradiction]. }
  exists m1, b1; split; [exact Hr|]; split; [exact Hf|].
  apply apply_edits_false_iff; split; [reflexivity|].
  apply Forall_forall; intros r Hr'; rewrite Forall_forall in Hs, Hf.
  specialize (Hs r Hr'); specialize (Hf r Hr').
  destruct (snd r) as [z|] eqn:Hz; [|contradiction].
  exists z; split; [exact Hz | exact Hf].
Qed.

Lemma apply_edits_converges_witness :
  NoDup (map fst [("007"%string, Some 3%Z); ("12"%string, Some 0%Z)]) /\
  Forall (fun r => snd r <> None) [("007"%string, Some 3%Z); ("12"%string, Some 0%Z)] /\
  exists m1 b, apply_edits [("12"%string, 5%Z)] false
                 [("007"%string, Some 3%Z); ("12"%string, Some 0%Z)] = EditDone m1 b /\
    Forall (fun r => get_qty m1 (fst r) = snd r)
      [("007"%string, Some 3%Z); ("12"%string, Some 0%Z)] /\
    apply_edits m1 false [("007"%string, Some 3%Z); ("12"%string, Some 0%Z)] = EditDone m1 false.
Proof.
  assert (Hnd : NoDup (map fst [("007"%string, Some 3%Z); ("12"%string, Some 0%Z)])).
  { simpl; constructor; [simpl; intros [H | []]; discriminate H|].
    constructor; [intros [] | constructor]. }
  assert (Hs : Forall (fun r => snd r <> None) [("007"%string, Some 3%Z); ("12"%string, Some 0%Z)]).
  { repeat constructor; discriminate. }
  split; [exact Hnd|]; split; [exact Hs|].
  exact (apply_edits_converges _ _ Hnd Hs).
Defined.

(** X9: if two edited rows give the same product different quantities,
    no pass of the loop ever ends without asking for a rerun, whatever the
    map holds. *)
Theorem apply_edits_conflict_always_reruns m b rows p z1 z2 :
  In (p, Some z1) rows -> In (p, Some z2) rows -> z1 <> z2 ->
  forall m', apply_edits m b rows <> EditDone m' false.
Proof.
  intros H1 H2 Hne m' He.
  destruct b; [apply apply_edits_rerun_sticky in He; discriminate|].
  apply apply_edits_false_iff in He as [_ Hf]; rewrite Forall_forall in Hf.
  destruct (Hf _ H1) as [y1 [Hy1 Hg1]]; destruct (Hf _ H2) as [y2 [Hy2 Hg2]].
  simpl in *; injection Hy1 as <-; injection Hy2 as <-; congruence.
Qed.

Lemma apply_edits_conflict_always_reruns_witness :
  In ("12"%string, Some 1%Z) [("12"%string, Some 1%Z); ("12"%string, Some 2%Z)] /\
  In ("12"%string, Some 2%Z) [("12"%string, Some 1%Z); ("12"%string, Some 2%Z)] /\
  (1 <> 2)%Z /\
  forall m', apply_edits [] false [("12"%string, Some 1%Z); ("12"%string, Some 2%Z)]
             <> EditDone m' false.
Proof.
  assert (H1 : In ("12"%string, Some 1%Z) [("12"%string, Some 1%Z); ("12"%string, Some 2%Z)])
    by (left; reflexivity).
  assert (H2 : In ("12"%string, Some 2%Z) [("12"%string, Some 1%Z); ("12"%string, Some 2%Z)])
    by (right; left; reflexivity).
  assert (H3 : (1 <> 2)%Z) by discriminate.
  split; [exact H1|]; split; [exact H2|]; split; [exact H3|].
  exact (apply_edits_conflict_always_reruns [] false _ _ _ _ H1 H2 H3).
Defined.

(** X10: the loop raises exactly when some row has no quantity; it stops at
    the first such row, and the map keeps the updates of the rows before
    it. *)
Theorem apply_edits_raises m b rows m' :
  apply_edits m b rows = EditRaised m' <->
  exists pre p post b', rows = (pre ++ (p, None) :: post)%list /\
    Forall (fun r => snd r <> None) pre /\ apply_edits m b pre = EditDone m' b'.
Proof.
  split.
  - revert m b; induction rows as [|[pid [q|]] rest IH]; intros m b; simpl.
    + discriminate.
    + intros H.
      assert (Hst : exists mn bn, apply_edits m b ((pid, Some q) :: rest) = apply_edits mn bn rest /\
                apply_edits m b [(pid, Some q)] = EditDone mn bn).
      { simpl; destruct (get_qty m pid) as [v|]; [destruct (Z.eqb v q)|];
          eexists; eexists; split; reflexivity. }
      destruct Hst as [mn [bn [He1 He2]]].
      simpl in He1; rewrite He1 in H.
      destruct (IH mn bn H) as [pre [p [post [b' [-> [Hs Hpre]]]]]].
      exists ((pid, Some q) :: pre), p, post, b'; split; [reflexivity|]; split.
      * constructor; [discriminate | exact Hs].
      * change ((pid, Some q) :: pre) with ([(pid, Some q)] ++ pre)%list.
        rewrite (apply_edits_app m b [(pid, Some q)] pre), He2; exact Hpre.
    + intros H; injection H as <-.
      exists [], pid, rest, b; split; [reflexivity|]; split; [constructor | reflexivity].
  - intros [pre [p [post [b' [-> [_ Hpre]]]]]].
    rewrite apply_edits_app, Hpre; reflexivity.
Qed.

Lemma apply_edits_raises_witness :
  exists pre p post b',
    [("1"%string, Some 2%Z); ("3"%string, None)] = (pre ++ (p, None) :: post)%list /\
    Forall (fun r => snd r <> None) pre /\ apply_edits [] false pre = EditDone [("1"%string, 2%Z)] b'.
Proof.
  apply (apply_edits_raises [] false [("1"%string, Some 2%Z); ("3"%string, None)]).
  reflexivity.
Defined.

Definition is_none_qty (o : option Z) : bool := match o with None => true | Some _ => false end.

Lemma untouched_pass m0 pids : forall m b,
  (forall p, shown_qty m p = shown_qty m0 p) ->
  exists m', apply_edits m b (editor_rows m0 pids) =
               EditDone m' (b || existsb (fun p => is_none_qty (get_qty m p)) pids) /\
    (forall p, shown_qty m' p = shown_qty m0 p) /\
    (forall p, get_qty m p <> None -> get_qty m' p <> None) /\
    (forall p, In p pids -> get_qty m' p <> None).
Proof.
  induction pids as [|p ps IH]; intros m b Hs.
  - exists m; cbn [editor_rows map apply_edits existsb]; rewrite Bool.orb_false_r.
    split; [reflexivity|]; split; [exact Hs|]; split; [tauto | intros _ []].
  - change (editor_rows m0 (p :: ps)) with ((p, Some (shown_qty m0 p)) :: editor_rows m0 ps).
    cbn [apply_edits existsb].
    destruct (get_qty m p) as [v|] eqn:Hg; cbn [is_none_qty orb].
    + assert (Hv : v = shown_qty m0 p) by (rewrite <- Hs; unfold shown_qty; rewrite Hg; reflexivity).
      rewrite Hv, Z.eqb_refl.
      destruct (IH m b Hs) as [m' [He [Hs' [Hk Hin]]]].
      exists m'; split; [exact He|]; split; [exact Hs'|]; split; [exact Hk|].
      intros q [<- | Hq]; [apply Hk; congruence | apply Hin, Hq].
    + set (m1 := set_qty p (shown_qty m0 p) m).
      assert (Hs1 : forall q, shown_qty m1 q = shown_qty m0 q).
      { intros q; unfold m1, shown_qty at 1; rewrite get_set_qty.
        destruct (String.eqb_spec p q) as [->|]; [reflexivity | apply Hs]. }
      destruct (IH m1 true Hs1) as [m' [He [Hs' [Hk Hin]]]].
      exists m'; rewrite Bool.orb_true_r; split; [exact He|]; split; [exact Hs'|]; split.
      * intros q Hq; apply Hk; unfold m1; rewrite get_set_qty.
        destruct (String.eqb p q); [discriminate | exact Hq].
      * intros q [<- | Hq]; [|apply Hin, Hq].
        apply Hk; unfold m1; rewrite get_set_qty, String.eqb_refl; discriminate.
Qed.

(** X20: when the user changes nothing in the editor table, the loop adds
    every listed product missing from the map with the 0 the table showed,
    and asks for a rerun exactly when some listed product was missing; the
    table rebuilt from the new map then reads back without a rerun. *)
Theorem editor_untouched m pids :
  exists m', apply_edits m false (editor_rows m pids) =
               EditDone m' (existsb (fun p => is_none_qty (get_qty m p)) pids) /\
    (forall p, In p pids -> get_qty m' p = Some (shown_qty m p)) /\
    apply_edits m' false (editor_rows m' pids) = EditDone m' false.
Proof.
  destruct (untouched_pass m pids m false (fun p => eq_refl)) as [m' [He [Hs [_ Hin]]]].
  exists m'; split; [exact He|].
  assert (Hg : forall p, In p pids -> get_qty m' p = Some (shown_qty m p)).
  { intros p Hp; rewrite <- Hs; unfold shown_qty.
    destruct (get_qty m' p) eqn:E; [reflexivity|].
    exfalso; exact (Hin p Hp E). }
  split; [exact Hg|].
  apply apply_edits_false_iff; split; [reflexivity|].
  apply Forall_forall; intros r Hr; unfold editor_rows in Hr.
  apply in_map_iff in Hr as [p [<- Hp]].
  exists (shown_qty m' p); split; [reflexivity|]; simpl.
  rewrite Hs; exact (Hg p Hp).
Qed.

Lemma nth_py_index x l d :
  existsb (String.eqb x) l = true -> nth (py_index x l) l d = x.
Proof.
  induction l as [|y l IH]; simpl; [discriminate|].
  destruct (String.eqb_spec y x) as [->|Hne]; [reflexivity|].
  rewrite (proj2 (String.eqb_neq x y) (fun H => Hne (eq_sym H))); exact IH.
Qed.

(** X11: the orderer preselected in the select box is the remembered one
    when it is non-empty and in the people list, and otherwise the first
    person, or ["Unknown"] when the list is empty; it is always one of the
    box's options. *)
Theorem preselected_orderer_spec sess people :
  preselected_orderer sess people =
    match sess with
    | Some s => if truthy_str s && existsb (String.eqb s) people then s
                else hd "Unknown"%string people
    | None => hd "Unknown"%string people
    end /\
  In (preselected_orderer sess people) (orderer_options people).
Proof.
  assert (Heq : preselected_orderer sess people =
    match sess with
    | Some s => if truthy_str s && existsb (String.eqb s) people then s
                else hd "Unknown"%string people
    | None => hd "Unknown"%string people
    end).
  { unfold preselected_orderer, orderer_index, current_orderer.
    destruct people as [|p ps]; [destruct sess as [s|]; [destruct (truthy_str s)|]; reflexivity|].
    assert (Hfb : existsb (String.eqb p) (p :: ps) = true) by (simpl; rewrite String.eqb_refl; reflexivity).
    assert (Hfb0 : py_index p (p :: ps) = O) by (simpl; rewrite String.eqb_refl; reflexivity).
    destruct sess as [s|]; [destruct (truthy_str s)|];
      rewrite ?Bool.andb_true_l, ?Bool.andb_false_l;
      try (rewrite Hfb, Hfb0; reflexivity).
    destruct (existsb (String.eqb s) (p :: ps)) eqn:Hin.
    - apply nth_py_index; exact Hin.
    - reflexivity. }
  split; [exact Heq|].
  rewrite Heq; unfold orderer_options.
  destruct people as [|p ps].
  - destruct sess as [s|]; simpl; [rewrite Bool.andb_false_r|]; left; reflexivity.
  - destruct sess as [s|]; [destruct (truthy_str s && existsb (String.eqb s) (p :: ps)) eqn:E|];
      simpl; try (left; reflexivity).
    apply Bool.andb_true_iff in E as [_ E].
    apply existsb_exists in E as [y [Hy Hsy]]; apply String.eqb_eq in Hsy; subst y; exact Hy.
Qed.

End EditorProofs.

(* ------------------------------------------------------------------ *)
(** ** The e-mail pattern and [read_emails] *)

Module EmailProofs.
Import Text Smtp Mail CsvCatalog People Emails.

(** The text the pattern matches: local part, [@], domain, [.], letters. *)
Definition body (l d t : list ascii) : list ascii :=
  (l ++ "@"%char :: d ++ "."%char :: t)%list.

Definition well_formed (l d t : list ascii) : Prop :=
  l <> [] /\ Forall (fun c => is_local_char c = true) l /\
  d <> [] /\ Forall (fun c => is_domain_char c = true) d /\
  (2 <= length t)%nat /\ Forall (fun c => is_alpha c = true) t.

Lemma rep_some cls mn s k r :
  rep cls mn s k = Some r ->
  exists xs s', s = (xs ++ s')%list /\ Forall (fun c => cls c = true) xs /\
                (mn <= length xs)%nat /\ k s' = Some r.
Proof.
  revert mn; induction s as [|c s IH]; intros mn H; simpl in H.
  - destruct (Nat.eqb_spec mn 0) as [Em|]; [subst mn|discriminate].
    exists [], []; split; [reflexivity|]; split; [constructor|]; split; [lia | exact H].
  - destruct (cls c) eqn:Hc; [destruct (rep cls (pred mn) s k) as [t|] eqn:Hr|].
    + injection H as <-; destruct (IH _ Hr) as [xs [s' [-> [Hf [Hl Hk]]]]].
      exists (c :: xs), s'; split; [reflexivity|]; split; [constructor; assumption|].
      split; [simpl; lia | exact Hk].
    + destruct (Nat.eqb_spec mn 0) as [Em|]; [subst mn|discriminate].
      exists [], (c :: s); split; [reflexivity|]; split; [constructor|]; split; [lia | exact H].
    + destruct (Nat.eqb_spec mn 0) as [Em|]; [subst mn|discriminate].
      exists [], (c :: s); split; [reflexivity|]; split; [constructor|]; split; [lia | exact H].
Qed.

Lemma email_at_some s r : email_at s = Some r ->
  exists l d t, s = (body l d t ++ r)%list /\ well_formed l d t.
Proof.
  unfold email_at; intros H.
  apply rep_some in H as [l [s1 [-> [Hl [Hll Hk]]]]].
  destruct s1 as [|c s2]; [discriminate|].
  destruct (Ascii.eqb_spec c "@"%char) as [->|]; [|discriminate].
  apply rep_some in Hk as [d [s3 [-> [Hd [Hdl Hk]]]]].
  destruct s3 as [|c' s4]; [discriminate|].
  destruct (Ascii.eqb_spec c' "."%char) as [->|]; [|discriminate].
  apply rep_some in Hk as [t [s5 [-> [Ht [Htl Hk]]]]].
  injection Hk as <-.
  exists l, d, t; split.
  - unfold body; rewrite <- app_assoc; simpl; rewrite <- app_assoc; reflexivity.
  - split; [intros ->; simpl in Hll; lia|]; split; [exact Hl|].
    split; [intros ->; simpl in Hdl; lia|]; split; [exact Hd|].
    split; [exact Htl | exact Ht].
Qed.

Lemma search_from_eq s :
  search_from s = match email_at s with
                  | Some rest => Some (firstn (length s - length rest) s)
                  | None => match s with [] => None | _ :: r => search_from r end
                  end.
Proof. destruct s; reflexivity. Qed.

Lemma firstn_body (b r : list ascii) : firstn (length (b ++ r) - length r) (b ++ r) = b.
Proof.
  rewrite length_app, Nat.add_sub, firstn_app, Nat.sub_diag, firstn_O, app_nil_r, firstn_all.
  reflexivity.
Qed.

(** [search] returns the match at the leftmost position where the pattern
    matches, with the text after it. *)
Lemma search_from_some s e : search_from s = Some e ->
  exists pre post, s = (pre ++ e ++ post)%list /\ email_at (e ++ post) = Some post /\
    forall n, (n < length pre)%nat -> email_at (skipn n s) = None.
Proof.
  induction s as [|c s IH]; intros H; [discriminate H|].
  rewrite search_from_eq in H; destruct (email_at (c :: s)) as [rest|] eqn:Ea.
  - assert (He : firstn (length (c :: s) - length rest) (c :: s) = e) by congruence.
    destruct (email_at_some _ _ Ea) as [l [d [t [Hs _]]]].
    rewrite Hs, firstn_body in He; subst e; rewrite Hs.
    exists [], rest; split; [reflexivity|]; split; [rewrite <- Hs; exact Ea | simpl; lia].
  - destruct (IH H) as [pre [post [Hs [Hm Hl]]]].
    exists (c :: pre), post; split; [rewrite Hs; reflexivity|]; split; [exact Hm|].
    intros [|n] Hn; [exact Ea|]; simpl in Hn |- *; apply Hl; lia.
Qed.

Lemma email_search_some raw e : email_search raw = Some e ->
  exists pre post l d t,
    list_ascii_of_string raw = (pre ++ list_ascii_of_string e ++ post)%list /\
    list_ascii_of_string e = body l d t /\ well_formed l d t /\
    forall n, (n < length pre)%nat -> email_at (skipn n (list_ascii_of_string raw)) = None.
Proof.
  unfold email_search; destruct (search_from _) as [x|] eqn:Hs; [|discriminate].
  simpl; intros H; injection H as <-.
  destruct (search_from_some _ _ Hs) as [pre [post [Hr [Hm Hl]]]].
  destruct (email_at_some _ _ Hm) as [l [d [t [Hx Hw]]]].
  apply app_inv_tail in Hx.
  exists pre, post, l, d, t; rewrite list_ascii_of_string_of_list_ascii.
  split; [exact Hr|]; split; [exact Hx|]; split; [exact Hw | exact Hl].
Qed.

Lemma rep_stop cls ys k :
  (forall xs' ys', ys = (xs' ++ ys')%list -> xs' <> [] ->
                   Forall (fun c => cls c = true) xs' -> k ys' = None) ->
  rep cls 0 ys k = k ys.
Proof.
  induction ys as [|c r IH]; intros Hk; simpl; [reflexivity|].
  destruct (cls c) eqn:Hc; [|reflexivity].
  rewrite IH.
  - rewrite (Hk [c] r); [reflexivity | reflexivity | discriminate | constructor; [exact Hc | constructor]].
  - intros xs' ys' -> Hne Hf; apply (Hk (c :: xs') ys'); [reflexivity | discriminate | constructor; assumption].
Qed.

(** A run of [cls] characters followed by text where [k] succeeds, and on
    which no longer run lets [k] succeed, is what the greedy repetition
    takes. *)
Lemma rep_longest cls mn xs ys k r :
  Forall (fun c => cls c = true) xs -> (mn <= length xs)%nat ->
  (forall xs' ys', ys = (xs' ++ ys')%list -> xs' <> [] ->
                   Forall (fun c => cls c = true) xs' -> k ys' = None) ->
  k ys = Some r -> rep cls mn (xs ++ ys) k = Some r.
Proof.
  revert mn; induction xs as [|c xs IH]; intros mn Hf Hm Hk Hr.
  - simpl in Hm; replace mn with 0%nat by lia; rewrite rep_stop; assumption.
  - inversion Hf as [|? ? Hc Hf']; subst; simpl.
    rewrite Hc, (IH (pred mn) Hf' ltac:(simpl in Hm; lia) Hk Hr); reflexivity.
Qed.

Lemma alpha_not_dot c : is_alpha c = true -> Ascii.eqb c "."%char = false.
Proof. intros H; destruct (Ascii.eqb_spec c "."%char) as [->|]; [discriminate H | reflexivity]. Qed.

Lemma alpha_domain c : is_alpha c = true -> is_domain_char c = true.
Proof. intros H; unfold is_domain_char; rewrite H; reflexivity. Qed.

Lemma dot_not_boundary post :
  match post with [] => True | c :: _ => is_domain_char c = false end ->
  match post with c :: _ => Ascii.eqb c "."%char = false | [] => True end.
Proof.
  destruct post as [|c p]; [tauto|]; intros H.
  destruct (Ascii.eqb_spec c "."%char) as [->|]; [discriminate H | reflexivity].
Qed.

(** X12: the address [read_emails] keeps from a cell is a piece of the
    cell's text of the form local part, [@], domain, [.], at least two
    letters, and the pattern matches at no earlier position of the cell. *)
Theorem email_search_shape raw e : email_search raw = Some e ->
  exists pre post l d t,
    list_ascii_of_string raw = (pre ++ list_ascii_of_string e ++ post)%list /\
    list_ascii_of_string e = body l d t /\ well_formed l d t /\
    forall n, (n < length pre)%nat -> email_at (skipn n (list_ascii_of_string raw)) = None.
Proof.
  exact (email_search_some raw e).
Qed.

Lemma email_search_shape_witness :
  exists pre post l d t,
    list_ascii_of_string "Jane <jane.doe@mail.example.com>, x"%string =
      (pre ++ list_ascii_of_string "jane.doe@mail.example.com"%string ++ post)%list /\
    list_ascii_of_string "jane.doe@mail.example.com"%string = body l d t /\ well_formed l d t /\
    forall n, (n < length pre)%nat ->
      email_at (skipn n (list_ascii_of_string "Jane <jane.doe@mail.example.com>, x"%string)) = None.
Proof.
  apply email_search_shape; vm_compute; reflexivity.
Defined.

(** X13: a cell that starts with a well-formed address followed by nothing,
    or by a character outside [[A-Za-z0-9.\-]] (a comma, a space, [>]),
    yields exactly that address; what follows it is dropped. *)
Theorem email_search_leading l d t post :
  well_formed l d t ->
  match post with [] => True | c :: _ => is_domain_char c = false end ->
  email_search (string_of_list_ascii (body l d t ++ post)) =
    Some (string_of_list_ascii (body l d t)).
Proof.
  intros [Hl0 [Hl [Hd0 [Hd [Ht2 Ht]]]]] Hpost.
  assert (Hdot := dot_not_boundary post Hpost).
  assert (Ha : email_at (body l d t ++ post) = Some post).
  { unfold email_at, body; rewrite <- app_assoc; simpl.
    apply rep_longest.
    - exact Hl.
    - destruct l; [contradiction | simpl; lia].
    - intros xs' ys' Hs Hne Hf; destruct xs' as [|c xs']; [contradiction|].
      injection Hs as Hc _; subst c; inversion Hf as [|? ? Hc' _].
      vm_compute in Hc'; discriminate Hc'.
    - simpl; rewrite <- app_assoc; simpl.
      apply rep_longest.
      + exact Hd.
      + destruct d; [contradiction | simpl; lia].
      + intros xs' ys' Hs Hne Hf; destruct xs' as [|c xs']; [contradiction|].
        injection Hs as <- Hs; inversion Hf as [|? ? _ Hf']; subst.
        apply app_eq_app in Hs as [l' [[-> ->] | [-> ->]]].
        * destruct l' as [|c l'].
          -- destruct post as [|c p]; [reflexivity|]; simpl in Hdot |- *; rewrite Hdot; reflexivity.
          -- simpl; rewrite alpha_not_dot; [reflexivity|].
             rewrite Forall_forall in Ht; apply Ht, in_or_app; right; left; reflexivity.
        * destruct l' as [|c l'].
          -- rewrite app_nil_r in *; simpl.
             destruct ys' as [|c p]; [reflexivity|]; simpl in Hdot |- *; rewrite Hdot; reflexivity.
          -- exfalso; simpl in Hpost; rewrite Forall_forall in Hf'.
             rewrite (Hf' c) in Hpost; [discriminate|].
             apply in_or_app; right; left; reflexivity.
      + simpl; apply rep_longest; [exact Ht | exact Ht2 | | reflexivity].
        intros xs' ys' -> Hne Hf; destruct xs' as [|c xs']; [contradiction|].
        inversion Hf as [|? ? Hc _]; subst; simpl in Hpost.
        rewrite (alpha_domain c Hc) in Hpost; discriminate. }
  unfold email_search; rewrite list_ascii_of_string_of_list_ascii, search_from_eq, Ha.
  simpl option_map; rewrite firstn_body; reflexivity.
Qed.

Lemma email_search_leading_witness :
  well_formed (list_ascii_of_string "jane"%string) (list_ascii_of_string "x"%string)
    (list_ascii_of_string "com"%string) /\
  email_search (string_of_list_ascii
    (body (list_ascii_of_string "jane"%string) (list_ascii_of_string "x"%string)
          (list_ascii_of_string "com"%string) ++ list_ascii_of_string ", bob@y.org"%string)) =
    Some "jane@x.com"%string.
Proof.
  assert (Hw : well_formed (list_ascii_of_string "jane"%string) (list_ascii_of_string "x"%string)
                 (list_ascii_of_string "com"%string)).
  { repeat split; try discriminate; repeat constructor. }
  split; [exact Hw|].
  exact (email_search_leading _ _ _ (list_ascii_of_string ", bob@y.org"%string) Hw eq_refl).
Defined.

Section Roster.
Context {F : Type} `{PyFloat F}.

Lemma read_emails_found file n e :
  In (n, e) (read_emails file) -> exists c, email_search c = Some e.
Proof.
  destruct file as [df|]; simpl; [|tauto].
  rewrite in_flat_map; intros [i [_ Hi]].
  match type of Hi with In _ (match ?x with _ => _ end) => destruct x as [e'|] eqn:He end;
    [|destruct Hi].
  destruct Hi as [Hi | []]; injection Hi as _ <-; eexists; exact He.
Qed.

Lemma body_has_at l d t : has_at (string_of_list_ascii (body l d t)) = true.
Proof.
  unfold has_at; rewrite list_ascii_of_string_of_list_ascii, existsb_exists.
  exists "@"%char; split; [unfold body; apply in_or_app; right; left; reflexivity|].
  apply Ascii.eqb_refl.
Qed.

(** X14: every e-mail of the rows [read_emails] returns has the shape local
    part, [@], domain, [.], two or more letters. *)
Theorem read_emails_well_formed file n e :
  In (n, e) (read_emails file) ->
  exists l d t, list_ascii_of_string e = body l d t /\ well_formed l d t.
Proof.
  intros Hin; destruct (read_emails_found file n e Hin) as [c Hc].
  destruct (email_search_some c e Hc) as [_ [_ [l [d [t [_ [He [Hw _]]]]]]]].
  exists l, d, t; split; assumption.
Qed.

(** X15: every address of the e-mail file's roster is among the
    recipients [all_recipients] computes, whatever the SMTP defaults. *)
Theorem roster_in_all_recipients file cfg e :
  In e (emails_roster (read_emails file)) -> In e (all_recipients cfg (emails_roster (read_emails file))).
Proof.
  intros Hin; unfold all_recipients.
  apply MailProofs.in_sorted_set, filter_In.
  assert (Hr : exists n, In (n, e) (read_emails file)).
  { unfold emails_roster in Hin; destruct (read_emails file); [destruct Hin|].
    apply in_map_iff in Hin as [[n e'] [He Hn]]; simpl in He; subst e'; exists n; exact Hn. }
  destruct Hr as [n Hr].
  destruct (read_emails_found file n e Hr) as [c Hc].
  destruct (email_search_some c e Hc) as [_ [_ [l [d [t [_ [He [[Hl0 _] _]]]]]]]].
  assert (He' : e = string_of_list_ascii (body l d t))
    by (rewrite <- He, string_of_list_ascii_of_string; reflexivity).
  split.
  - apply in_or_app; left; apply filter_In; split; [exact Hin|].
    apply MailProofs.truthy_str_true; subst e; unfold body.
    destruct l; [contradiction | discriminate].
  - subst e; apply body_has_at.
Qed.

End Roster.

(** An e-mail file with headers to normalize and a row without an address. *)
Definition sample_emails_frame : Frame Z :=
  [(" Name"%string, [VStr "Ann"%string; VStr "Bob"%string]);
   ("EMAIL"%string, [VStr "Ann <ann@x.com>"%string; VStr "none"%string])].

Lemma sample_emails_rows :
  read_emails (Some sample_emails_frame) = [("Ann"%string, "ann@x.com"%string)].
Proof. vm_compute; reflexivity. Qed.

Lemma read_emails_well_formed_witness :
  In ("Ann"%string, "ann@x.com"%string) (read_emails (Some sample_emails_frame)) /\
  exists l d t, list_ascii_of_string "ann@x.com"%string = body l d t /\ well_formed l d t.
Proof.
  assert (H : In ("Ann"%string, "ann@x.com"%string) (read_emails (Some sample_emails_frame)))
    by (rewrite sample_emails_rows; left; reflexivity).
  split; [exact H | exact (read_emails_well_formed _ _ _ H)].
Defined.

Lemma roster_in_all_recipients_witness :
  In "ann@x.com"%string (emails_roster (read_emails (Some sample_emails_frame))) /\
  In "ann@x.com"%string (all_recipients None (emails_roster (read_emails (Some sample_emails_frame)))).
Proof.
  assert (H : In "ann@x.com"%string (emails_roster (read_emails (Some sample_emails_frame))))
    by (rewrite sample_emails_rows; left; reflexivity).
  split; [exact H | exact (roster_in_all_recipients _ None _ H)].
Defined.

End EmailProofs.

(* ------------------------------------------------------------------ *)
(** ** Generate & Log Order: logging, the mail and the session map *)

Module SubmitMoreProofs.
Import Catalog OrderLog Session Smtp Mail Batch Submit.

Lemma str_lt_irrefl y : ~ MailProofs.str_lt y y.
Proof.
  unfold MailProofs.str_lt; intros H.
  pose proof (String.compare_antisym y y) as Ha; rewrite H in Ha; discriminate Ha.
Qed.

Lemma strongly_sorted_eq l1 l2 :
  StronglySorted MailProofs.str_lt l1 -> StronglySorted MailProofs.str_lt l2 ->
  (forall x, In x l1 <-> In x l2) -> l1 = l2.
Proof.
  revert l2; induction l1 as [|a r1 IH]; intros l2 H1 H2 Hx.
  - destruct l2 as [|b r2]; [reflexivity|].
    exfalso; apply (proj2 (Hx b)); left; reflexivity.
  - destruct l2 as [|b r2]; [exfalso; apply (proj1 (Hx a)); left; reflexivity|].
    apply StronglySorted_inv in H1 as [H1 F1]; apply StronglySorted_inv in H2 as [H2 F2].
    rewrite Forall_forall in F1, F2.
    assert (Hab : a = b).
    { destruct (proj1 (Hx a) (or_introl eq_refl)) as [->|Ha]; [reflexivity|].
      destruct (proj2 (Hx b) (or_introl eq_refl)) as [->|Hb]; [reflexivity|].
      exfalso; apply (str_lt_irrefl a), (MailProofs.str_lt_trans a b a); [apply F1, Hb | apply F2, Ha]. }
    subst b; f_equal; apply IH; [exact H1 | exact H2|].
    intros x; split; intros Hin.
    + destruct (proj1 (Hx x) (or_intror Hin)) as [Hxa|H]; [exfalso; subst x; exact (str_lt_irrefl a (F1 a Hin)) | exact H].
    + destruct (proj2 (Hx x) (or_intror Hin)) as [Hxa|H]; [exfalso; subst x; exact (str_lt_irrefl a (F2 a Hin)) | exact H].
Qed.

(** [send_email] recomputes its recipient list from [all_recipients]'s
    result and the defaults; the result is the same list. *)
Lemma send_recipients_all cfg roster :
  send_recipients cfg (all_recipients cfg roster) = all_recipients cfg roster.
Proof.
  apply strongly_sorted_eq; [apply MailProofs.sorted_set_sorted.. |].
  intros x; unfold send_recipients, all_recipients.
  repeat first [rewrite MailProofs.in_sorted_set | rewrite filter_In | rewrite in_app_iff
               | rewrite Bool.andb_true_iff].
  tauto.
Qed.

(** The four ways the handler ends once something is selected: the failed
    insert, the [OverflowError] of pricing a mail that is due, no mail
    due, and a mail handed to [send_email]. *)
Lemma generate_and_log_cases cat secrets roster o now tok w :
  selected_lines cat (w_qty_map w) <> [] ->
  let rows := selected_lines cat (w_qty_map w) in
  let R := all_recipients (get_smtp_config secrets) roster in
  let w1 := mkWorld (w_log w ++ append_rows rows o now) (w_qty_map w)
                    (w_ui w ++ config_msgs secrets) (w_outbox w) in
  generate_and_log cat secrets roster o now false tok w = Raised w /\
  (smtp_ok secrets && negb (is_nil R) = true -> priced_lines cat rows = None ->
     generate_and_log cat secrets roster o now true tok w = Raised w1) /\
  (smtp_ok secrets && negb (is_nil R) = false ->
     generate_and_log cat secrets roster o now true tok w = Finished (clear_qty_map w1)) /\
  (forall ts, smtp_ok secrets && negb (is_nil R) = true -> priced_lines cat rows = Some ts ->
     exists m, generate_and_log cat secrets roster o now true tok w =
       Finished (mkWorld (w_log w1) [] (w_ui w1 ++ [m])
                   (w_outbox w1 ++ if tok then [(R, product_groups ts)] else [])%list)).
Proof.
  intros Hne; cbv zeta.
  unfold generate_and_log.
  destruct (selected_lines cat (w_qty_map w)) as [|l0 ls0] eqn:Hrows; [contradiction|].
  cbn zeta; cbn [is_nil negb].
  split; [reflexivity|].
  destruct (smtp_ok secrets) eqn:Hok; cbn [andb].
  2:{ split; [intros H; discriminate H|]; split; [intros _; reflexivity|].
      intros ts H; discriminate H. }
  assert (Hc : exists c, get_smtp_config secrets = Some c)
    by (unfold smtp_ok in Hok; destruct (get_smtp_config secrets);
        [eexists; reflexivity | discriminate]).
  destruct Hc as [c Hc]; rewrite Hc.
  unfold send_email; rewrite send_recipients_all.
  destruct (all_recipients (Some c) roster) as [|r0 rs] eqn:HR; cbn [is_nil negb].
  - split; [intros H; discriminate H|]; split; [intros _; reflexivity|].
    intros ts H; discriminate H.
  - split; [intros _ Hp; rewrite Hp; reflexivity|]; split; [intros H; discriminate H|].
    intros ts _ Hp; rewrite Hp.
    destruct tok; eexists; cbn [clear_qty_map w_log w_ui w_outbox];
      rewrite ?app_nil_r; reflexivity.
Qed.

(** X16: Generate & Log Order with a non-empty selection: when the insert
    of [append_log] fails the handler raises and nothing changes; when it
    succeeds the handler raises only if a mail is due (SMTP configured and
    recipients) and pricing the selection raises [OverflowError] (a
    quantity too large for a float), after the rows are logged; otherwise
    it finishes, having appended one log row per selected line, cleared
    the quantity map, and shown the configuration error when there is one
    and then exactly one mail message (success or failure) when a mail is
    due, none otherwise. *)
Theorem generate_and_log_selected cat secrets roster o now ins tok w :
  selected_lines cat (w_qty_map w) <> [] ->
  let g := generate_and_log cat secrets roster o now ins tok w in
  let R := all_recipients (get_smtp_config secrets) roster in
  (ins = false -> g = Raised w) /\
  (ins = true -> smtp_ok secrets && negb (is_nil R) = true ->
     priced_lines cat (selected_lines cat (w_qty_map w)) = None ->
     g = Raised (mkWorld (w_log w ++ append_rows (selected_lines cat (w_qty_map w)) o now)
                  (w_qty_map w) (w_ui w ++ config_msgs secrets) (w_outbox w))) /\
  (ins = true ->
     (smtp_ok secrets && negb (is_nil R) = false \/
      priced_lines cat (selected_lines cat (w_qty_map w)) <> None) ->
     exists w' msgs, g = Finished w' /\
       w_log w' = (w_log w ++ append_rows (selected_lines cat (w_qty_map w)) o now)%list /\
       w_qty_map w' = [] /\
       w_ui w' = (w_ui w ++ config_msgs secrets ++ msgs)%list /\
       length msgs = (if smtp_ok secrets && negb (is_nil R) then 1 else 0)%nat).
Proof.
  intros Hne; cbv zeta.
  destruct (generate_and_log_cases cat secrets roster o now tok w Hne) as [H0 [H1 [H2 H3]]].
  destruct ins.
  2:{ split; [intros _; exact H0|]; split; intros H; discriminate H. }
  split; [intros H; discriminate H|].
  split; [intros _; exact H1|].
  intros _ Hc.
  destruct (smtp_ok secrets && negb (is_nil (all_recipients (get_smtp_config secrets) roster)))
    eqn:Es.
  - destruct Hc as [Hc | Hc]; [discriminate Hc|].
    destruct (priced_lines cat (selected_lines cat (w_qty_map w))) as [ts|] eqn:Ep;
      [|contradiction].
    destruct (H3 ts ltac:(first [exact Es | reflexivity]) ltac:(first [exact Ep | reflexivity])) as [m Hm].
    eexists; exists [m]; split; [exact Hm|]; cbn [w_log w_ui w_qty_map w_outbox].
    repeat split; rewrite ?app_assoc; reflexivity.
  - eexists; exists []; split; [exact (H2 ltac:(first [exact Es | reflexivity]))|]; cbn [clear_qty_map w_log w_ui w_qty_map w_outbox].
    repeat split; rewrite ?app_nil_r; reflexivity.
Qed.

Definition sample_world : World := mkWorld [] Samples.sample_qty_map [] [].

Lemma generate_and_log_selected_witness :
  selected_lines [Samples.gloves_row] Samples.sample_qty_map <> [] /\
  exists w' (msgs : list UiMsg),
    generate_and_log [Samples.gloves_row] (Some Samples.sample_secrets) [] "Ann"%string 7%Z
      true true sample_world = Finished w' /\
    w_qty_map w' = [] /\ length msgs = 1%nat.
Proof.
  assert (H : selected_lines [Samples.gloves_row] Samples.sample_qty_map <> []) by discriminate.
  split; [exact H|].
  destruct (generate_and_log_selected [Samples.gloves_row] (Some Samples.sample_secrets) []
              "Ann"%string 7%Z true true sample_world H) as [_ [_ H3]].
  destruct (H3 eq_refl ltac:(right; vm_compute; discriminate))
    as [w' [msgs [Hg [_ [Hq [_ Hl]]]]]].
  exists w', msgs; split; [exact Hg|]; split; [exact Hq|].
  rewrite Hl; vm_compute; reflexivity.
Defined.

(** X17: with a non-empty selection, the handler hands a mail to the
    transport only after a successful insert, and only when SMTP is
    configured, [all_recipients] is non-empty and the transport delivers;
    when the selection can be priced the mail goes to exactly
    [all_recipients]'s list and carries the product groups of the priced
    selection, and when the insert fails or pricing raises the outbox is
    left as it was. *)
Theorem generate_and_log_outbox cat secrets roster o now ins tok w :
  selected_lines cat (w_qty_map w) <> [] ->
  let g := generate_and_log cat secrets roster o now ins tok w in
  let R := all_recipients (get_smtp_config secrets) roster in
  (forall ts, ins = true -> priced_lines cat (selected_lines cat (w_qty_map w)) = Some ts ->
     exists w', g = Finished w' /\
       w_outbox w' = (w_outbox w ++
         (if smtp_ok secrets && negb (is_nil R) && tok
          then [(R, product_groups ts)] else []))%list) /\
  ((ins = false \/ priced_lines cat (selected_lines cat (w_qty_map w)) = None) ->
     forall w', g = Finished w' \/ g = Raised w' -> w_outbox w' = w_outbox w).
Proof.
  intros Hne; cbv zeta.
  destruct (generate_and_log_cases cat secrets roster o now tok w Hne) as [H0 [H1 [H2 H3]]].
  split.
  - intros ts Hins Hp; subst ins.
    destruct (smtp_ok secrets && negb (is_nil (all_recipients (get_smtp_config secrets) roster)))
      eqn:Es.
    + destruct (H3 ts ltac:(first [exact Es | reflexivity]) ltac:(first [exact Hp | reflexivity])) as [m Hm]; eexists; split; [exact Hm | reflexivity].
    + eexists; split; [exact (H2 ltac:(first [exact Es | reflexivity]))|]; cbn [clear_qty_map w_outbox].
      rewrite app_nil_r; reflexivity.
  - intros Hc w' Hg; destruct ins.
    + destruct Hc as [Hc | Hp]; [discriminate Hc|].
      destruct (smtp_ok secrets && negb (is_nil (all_recipients (get_smtp_config secrets) roster)))
        eqn:Es.
      * rewrite (H1 ltac:(first [exact Es | reflexivity]) ltac:(first [exact Hp | reflexivity])) in Hg.
        destruct Hg as [Hg | Hg]; [discriminate Hg | injection Hg as <-; reflexivity].
      * rewrite (H2 ltac:(first [exact Es | reflexivity])) in Hg.
        destruct Hg as [Hg | Hg]; [injection Hg as <-; reflexivity | discriminate Hg].
    + rewrite H0 in Hg.
      destruct Hg as [Hg | Hg]; [discriminate Hg | injection Hg as <-; reflexivity].
Qed.

Lemma generate_and_log_outbox_witness :
  selected_lines [Samples.gloves_row] Samples.sample_qty_map <> [] /\
  exists w',
    generate_and_log [Samples.gloves_row] (Some Samples.sample_secrets) [] "Ann"%string 7%Z
      true true sample_world = Finished w' /\
    length (w_outbox w') = 1%nat.
Proof.
  assert (H : selected_lines [Samples.gloves_row] Samples.sample_qty_map <> []) by discriminate.
  split; [exact H|].
  destruct (generate_and_log_outbox [Samples.gloves_row] (Some Samples.sample_secrets) []
              "Ann"%string 7%Z true true sample_world H) as [H1 _].
  destruct (priced_lines [Samples.gloves_row]
              (selected_lines [Samples.gloves_row] Samples.sample_qty_map)) as [ts|] eqn:Ep;
    [|vm_compute in Ep; discriminate Ep].
  destruct (H1 ts eq_refl Ep) as [w' [Hg Ho]].
  exists w'; split; [exact Hg|].
  rewrite Ho; vm_compute; reflexivity.
Defined.

End SubmitMoreProofs.

(* ------------------------------------------------------------------ *)
(** ** [read_catalog]: missing columns and the shape of its result *)

Module CatalogReadProofs.
Import Text CsvCatalog.

Section Read.
Context {F : Type} `{PyFloat F}.
Implicit Types (df d : Frame F) (v : list (Val F)).

Definition add_missing (n : nat) (d : Frame F) (c : string) : Frame F :=
  if has_col c d then d else (d ++ [(c, repeat VPdNA n)])%list.

Lemma add_missing_app n cs d : exists extra, fold_left (add_missing n) cs d = (d ++ extra)%list.
Proof.
  revert d; induction cs as [|c cs IH]; intros d; simpl.
  - exists []; rewrite app_nil_r; reflexivity.
  - unfold add_missing at 2; destruct (has_col c d).
    + apply IH.
    + destruct (IH (d ++ [(c, repeat VPdNA n)])%list) as [extra ->].
      exists ((c, repeat VPdNA n) :: extra); rewrite <- app_assoc; reflexivity.
Qed.

Lemma lookup_some_has_col c d : has_col c d = true -> exists v, lookup c d = Some v.
Proof.
  unfold has_col, lookup; intros Hh.
  apply existsb_exists in Hh as [p [Hp Hc]].
  destruct (find (fun p => String.eqb (fst p) c) d) as [q|] eqn:Hf; [eexists; reflexivity|].
  exfalso; rewrite (find_none _ _ Hf p Hp) in Hc; discriminate.
Qed.

Lemma has_col_app c d d' : has_col c (d ++ d')%list = has_col c d || has_col c d'.
Proof. unfold has_col; apply existsb_app. Qed.

Lemma lookup_keep c d extra v : lookup c d = Some v -> lookup c (d ++ extra)%list = Some v.
Proof. intros Hv; rewrite CsvProofs.lookup_app, Hv; reflexivity. Qed.

(** The columns the loop [for c in [...]: if c not in df.columns: df[c] =
    pd.NA] adds, and the ones it keeps. *)
Lemma lookup_add_missing n cs c d :
  lookup c (fold_left (add_missing n) cs d) =
  match lookup c d with
  | Some v => Some v
  | None => if existsb (String.eqb c) cs then Some (repeat VPdNA n) else None
  end.
Proof.
  destruct (lookup c d) as [v|] eqn:Hv.
  - destruct (add_missing_app n cs d) as [extra ->]; apply lookup_keep, Hv.
  - revert d Hv; induction cs as [|c0 cs IH]; intros d Hv; simpl; [exact Hv|].
    unfold add_missing at 2.
    destruct (has_col c0 d) eqn:Hh.
    + rewrite IH by exact Hv.
      destruct (String.eqb_spec c c0) as [->|]; [|reflexivity].
      destruct (lookup_some_has_col c0 d Hh) as [v Hv']; congruence.
    + destruct (String.eqb_spec c c0) as [->|Hne]; simpl.
      * destruct (add_missing_app n cs (d ++ [(c0, repeat VPdNA n)])%list) as [extra ->].
        apply lookup_keep; rewrite CsvProofs.lookup_app, Hv.
        unfold lookup; simpl; rewrite String.eqb_refl; reflexivity.
      * apply IH; rewrite CsvProofs.lookup_app, Hv.
        unfold lookup; simpl.
        destruct (String.eqb_spec c0 c); [congruence | reflexivity].
Qed.

Lemma read_catalog_eq df :
  read_catalog df =
  if Nat.eqb (nrows df) 0 then Some empty_catalog
  else
    let df1 := fold_left (add_missing (nrows df)) catalog_columns df in
    match all_some (fill_int 1 (col "multiplier" df1)),
          all_some (fill_int 1 (col "items_per_order" df1)),
          all_some (fill_int 0 (col "current_qty" df1)),
          all_some (fill_sort (col "sort_order" df1)) with
    | Some ms, Some ips, Some cqs, Some sos =>
        Some (set_col "sort_order" (map VInt sos)
               (set_col "price" (map VFloat (fill_float (col "price" df1)))
                 (set_col "current_qty" (map VInt cqs)
                   (set_col "items_per_order" (map VInt ips)
                     (set_col "multiplier" (map VInt ms)
                       (set_col "product_number" (text_col (col "product_number" df1))
                         (set_col "item" (text_col (col "item" df1)) df1)))))))
    | _, _, _, _ => None
    end.
Proof. reflexivity. Qed.

Lemma col_missing n c d :
  In c catalog_columns -> has_col c d = false ->
  col c (fold_left (add_missing n) catalog_columns d) = repeat VPdNA n.
Proof.
  intros Hc Hh; unfold col; rewrite lookup_add_missing, CsvProofs.lookup_none_has_col by exact Hh.
  replace (existsb (String.eqb c) catalog_columns) with true; [reflexivity|].
  symmetry; apply existsb_exists; exists c; split; [exact Hc | apply String.eqb_refl].
Qed.

Lemma forallb_nan_false k :
  forallb is_int_num (map (@to_numeric F _) (repeat VPdNA (S k))) = false.
Proof. reflexivity. Qed.

Lemma fill_int_missing (z : Z) k : fill_int z (repeat (@VPdNA F) (S k)) = repeat (Some z) (S k).
Proof.
  unfold fill_int; rewrite forallb_nan_false, map_map.
  rewrite map_repeat; reflexivity.
Qed.

Lemma all_some_repeat (z : Z) k : all_some (repeat (Some z) k) = Some (repeat z k).
Proof. induction k as [|k IH]; simpl; [|rewrite IH]; reflexivity. Qed.

Lemma fill_sort_positions s k :
  map (fun p : nat * @Num F => match snd p with
                     | NInt z => float_trunc (float_of_Z z)
                     | NFloat x => float_trunc x
                     | NNaN => Some (Z.of_nat (fst p))
                     end) (combine (seq s k) (repeat NNaN k)) =
  map (fun i => Some (Z.of_nat i)) (seq s k).
Proof.
  revert s; induction k as [|k IH]; intros s; simpl; [reflexivity|].
  rewrite IH; reflexivity.
Qed.

Lemma fill_sort_missing k :
  fill_sort (repeat (@VPdNA F) (S k)) = map (fun i => Some (Z.of_nat i)) (seq 0 (S k)).
Proof.
  unfold fill_sort; rewrite forallb_nan_false, map_repeat, repeat_length.
  apply fill_sort_positions.
Qed.

Lemma all_some_positions l : all_some (map (fun i => Some (Z.of_nat i)) l) = Some (map Z.of_nat l).
Proof. induction l as [|i l IH]; simpl; [|rewrite IH]; reflexivity. Qed.

Ltac set_col_chain :=
  rewrite ?CsvProofs.lookup_set_col; cbn [String.eqb Ascii.eqb Bool.eqb andb].

(** X18: when the frame read from the file lacks a column, [read_catalog]
    (when it returns) fills it with its default: 1 for [multiplier] and
    [items_per_order], 0 for [current_qty], 0.0 for [price], and the row
    positions 0, 1, ... for [sort_order]. *)
Theorem read_catalog_defaults df df' :
  read_catalog df = Some df' ->
  (has_col "multiplier" df = false ->
     lookup "multiplier" df' = Some (repeat (VInt 1%Z) (nrows df))) /\
  (has_col "items_per_order" df = false ->
     lookup "items_per_order" df' = Some (repeat (VInt 1%Z) (nrows df))) /\
  (has_col "current_qty" df = false ->
     lookup "current_qty" df' = Some (repeat (VInt 0%Z) (nrows df))) /\
  (has_col "price" df = false ->
     lookup "price" df' = Some (repeat (VFloat (float_of_Z 0%Z)) (nrows df))) /\
  (has_col "sort_order" df = false ->
     lookup "sort_order" df' = Some (map (fun i => VInt (Z.of_nat i)) (seq 0 (nrows df)))).
Proof.
  rewrite read_catalog_eq.
  destruct (nrows df) as [|k] eqn:Hn; simpl Nat.eqb; cbv iota.
  - intros He; injection He as <-; repeat split; reflexivity.
  - cbv zeta.
    set (df1 := fold_left (add_missing (S k)) catalog_columns df).
    destruct (all_some (fill_int 1 (col "multiplier" df1))) as [ms|] eqn:Hms; [|discriminate].
    destruct (all_some (fill_int 1 (col "items_per_order" df1))) as [ips|] eqn:Hips; [|discriminate].
    destruct (all_some (fill_int 0 (col "current_qty" df1))) as [cqs|] eqn:Hcqs; [|discriminate].
    destruct (all_some (fill_sort (col "sort_order" df1))) as [sos|] eqn:Hsos; [|discriminate].
    intros He; injection He as <-.
    assert (Hcol : forall c, In c catalog_columns -> has_col c df = false -> col c df1 = repeat VPdNA (S k))
      by (intros c Hc Hh; apply col_missing; assumption).
    split; [|split; [|split; [|split]]]; intros Hh; set_col_chain.
    + rewrite (Hcol "multiplier"%string ltac:(simpl; tauto) Hh), fill_int_missing, all_some_repeat in Hms.
      assert (E : ms = repeat 1%Z (S k)) by congruence; subst ms.
      rewrite map_repeat; reflexivity.
    + rewrite (Hcol "items_per_order"%string ltac:(simpl; tauto) Hh), fill_int_missing, all_some_repeat in Hips.
      assert (E : ips = repeat 1%Z (S k)) by congruence; subst ips.
      rewrite map_repeat; reflexivity.
    + rewrite (Hcol "current_qty"%string ltac:(simpl; tauto) Hh), fill_int_missing, all_some_repeat in Hcqs.
      assert (E : cqs = repeat 0%Z (S k)) by congruence; subst cqs.
      rewrite map_repeat; reflexivity.
    + rewrite (Hcol "price"%string ltac:(simpl; tauto) Hh); unfold fill_float.
      rewrite !map_repeat; reflexivity.
    + rewrite (Hcol "sort_order"%string ltac:(simpl; tauto) Hh), fill_sort_missing, all_some_positions in Hsos.
      assert (E : sos = map Z.of_nat (seq 0 (S k))) by congruence; subst sos.
      rewrite map_map; reflexivity.
Qed.

End Read.

(** A catalog file with only the item and product number columns. *)
Definition two_column_frame : Frame Z :=
  [("item"%string, [VStr " Gloves"%string; VStr "Masks"%string]);
   ("product_number"%string, [VInt 100%Z; VInt 7%Z])].

Lemma read_catalog_defaults_witness :
  exists df', read_catalog two_column_frame = Some df' /\
  (has_col "multiplier" two_column_frame = false ->
     lookup "multiplier" df' = Some (repeat (VInt 1%Z) (nrows two_column_frame))) /\
  (has_col "items_per_order" two_column_frame = false ->
     lookup "items_per_order" df' = Some (repeat (VInt 1%Z) (nrows two_column_frame))) /\
  (has_col "current_qty" two_column_frame = false ->
     lookup "current_qty" df' = Some (repeat (VInt 0%Z) (nrows two_column_frame))) /\
  (has_col "price" two_column_frame = false ->
     lookup "price" df' = Some (repeat (VFloat (float_of_Z 0%Z)) (nrows two_column_frame))) /\
  (has_col "sort_order" two_column_frame = false ->
     lookup "sort_order" df' =
       Some (map (fun i => VInt (Z.of_nat i)) (seq 0 (nrows two_column_frame)))).
Proof.
  eexists; split; [vm_compute; reflexivity|].
  apply read_catalog_defaults; vm_compute; reflexivity.
Defined.

End CatalogReadProofs.

(* ------------------------------------------------------------------ *)
(** ** [last_info_map]: one row per key *)

Module LogMoreProofs.
Import Catalog OrderLog Samples.

(** A later order of another product. *)
Definition masks_e : LogEntry := mkLogEntry "Masks"%string "200"%string 3 (Some 8%Z) "Bob"%string.

(** X21: [last_info_map] returns at most one row per (item,
    product_number) key, every row is a log entry with its columns renamed,
    and every key present in the log has a row. *)
Theorem last_info_map_one_per_key log m :
  last_info_map_rel log m ->
  (forall k, (length (filter (fun li => key_eqb (li_key li) k) m) <= 1)%nat) /\
  (forall li, In li m -> exists e, In e log /\ li = rename e) /\
  (forall e, In e log -> exists li, In li m /\ li_key li = key e).
Proof.
  exact (ReconcilerProofs.last_info_map_props log m).
Qed.

Lemma last_info_map_one_per_key_witness :
  last_info_map_rel [tie_e1; masks_e] (map rename [tie_e1; masks_e]) /\
  (forall k, (length (filter (fun li => key_eqb (li_key li) k) (map rename [tie_e1; masks_e])) <= 1)%nat) /\
  (forall li, In li (map rename [tie_e1; masks_e]) -> exists e, In e [tie_e1; masks_e] /\ li = rename e) /\
  (forall e, In e [tie_e1; masks_e] -> exists li, In li (map rename [tie_e1; masks_e]) /\ li_key li = key e).
Proof.
  assert (H : last_info_map_rel [tie_e1; masks_e] (map rename [tie_e1; masks_e])).
  { exists [masks_e; tie_e1], [tie_e1; masks_e]; split; [split|split; [split|]].
    - apply perm_swap.
    - repeat constructor.
    - apply perm_swap.
    - repeat constructor.
    - reflexivity. }
  split; [exact H | exact (last_info_map_one_per_key _ _ H)].
Defined.

End LogMoreProofs.

(* ------------------------------------------------------------------ *)
(** ** [send_email]: when a mail goes out, and to whom *)

Module MailMoreProofs.
Import Text Smtp Mail.

(** X22: [send_email] hands a mail to the transport only with a
    configuration, a delivering transport and a non-empty list; the list is
    sorted without duplicates and holds exactly the non-empty given or
    default addresses that contain [@]. *)
Theorem send_email_sent cfg to tok rs :
  send_email cfg to tok = Sent rs ->
  tok = true /\ cfg <> None /\ rs <> [] /\ StronglySorted MailProofs.str_lt rs /\
  (forall x, In x rs <->
     (In x to \/ In x (cfg_default_to cfg)) /\ x <> EmptyString /\ has_at x = true).
Proof.
  unfold send_email.
  destruct (send_recipients cfg to) as [|r0 rs0] eqn:Hs; [discriminate|].
  destruct cfg as [c|]; [|discriminate].
  destruct tok; [|discriminate].
  intros He; injection He as <-.
  split; [reflexivity|]; split; [discriminate|]; split; [discriminate|].
  rewrite <- Hs; split; [apply MailProofs.sorted_set_sorted|].
  intros x; unfold send_recipients.
  rewrite MailProofs.in_sorted_set, filter_In, in_app_iff, Bool.andb_true_iff,
    MailProofs.truthy_str_true.
  tauto.
Qed.

Lemma send_email_sent_witness :
  send_email (get_smtp_config (Some Samples.sample_secrets)) ["a@x.com"; "a@x.com"; "bad"; ""]%string true
    = Sent ["a@x.com"; "b@x.com"]%string /\
  (true = true /\ get_smtp_config (Some Samples.sample_secrets) <> None /\
   ["a@x.com"; "b@x.com"]%string <> [] /\
   StronglySorted MailProofs.str_lt ["a@x.com"; "b@x.com"]%string /\
   (forall x, In x ["a@x.com"; "b@x.com"]%string <->
      (In x ["a@x.com"; "a@x.com"; "bad"; ""]%string \/
       In x (cfg_default_to (get_smtp_config (Some Samples.sample_secrets)))) /\
      x <> EmptyString /\ has_at x = true)).
Proof.
  assert (H : send_email (get_smtp_config (Some Samples.sample_secrets))
                ["a@x.com"; "a@x.com"; "bad"; ""]%string true = Sent ["a@x.com"; "b@x.com"]%string)
    by (vm_compute; reflexivity).
  split; [exact H | exact (send_email_sent _ _ _ _ H)].
Defined.

End MailMoreProofs.
